(** * dependencies.py: template expansion, dependency records, batch
      operations and transactional directory cleanup

    A shallow embedding of [dependencies.py].  Python values are a tagged
    union, dictionaries are finite maps, exceptions are an explicit result
    type, and every method that mutates [self] or touches the outside world
    is a state-passing function. *)

From Stdlib Require Import ZArith QArith String Ascii List Bool Lia.
From stdpp Require Import base option gmap strings list fin_maps.

Local Open Scope string_scope.
Local Open Scope Z_scope.

(** ** Python strings

    [str] is modelled by [string] (a sequence of 8-bit characters); the
    methods below are the ones the source calls.  A [unicode] object, as
    produced by [json.load], is given by its code points, taken below
    256, and so by the [str] object that holds the same characters.  Of
    the methods the source calls, [strip] is the one that tells the two
    types apart on such characters: it is given for both, [strip] for
    [str] and [ustrip] for [unicode]. *)

Module PyStr.

(** The characters of [string.whitespace]: tab, LF, VT, FF, CR, space.
    These are the characters that [str.strip()] removes. *)
Definition is_space (c : ascii) : bool :=
  let n := nat_of_ascii c in
  ((9 <=? n)%nat && (n <=? 13)%nat) || (n =? 32)%nat.

Definition is_lower (c : ascii) : bool :=
  let n := nat_of_ascii c in (97 <=? n)%nat && (n <=? 122)%nat.

Definition is_upper (c : ascii) : bool :=
  let n := nat_of_ascii c in (65 <=? n)%nat && (n <=? 90)%nat.

Definition is_digit (c : ascii) : bool :=
  let n := nat_of_ascii c in (48 <=? n)%nat && (n <=? 57)%nat.

(** [[a-zA-Z_]] and [[a-zA-Z_0-9]] of [template_regex]. *)
Definition is_word_start (c : ascii) : bool :=
  is_lower c || is_upper c || Ascii.eqb c "_".

Definition is_word_char (c : ascii) : bool :=
  is_word_start c || is_digit c.

Definition upper_char (c : ascii) : ascii :=
  if is_lower c then ascii_of_nat (nat_of_ascii c - 32) else c.

(** [s.upper()] *)
Fixpoint upper (s : string) : string :=
  match s with
  | EmptyString => EmptyString
  | String c r => String (upper_char c) (upper r)
  end.

(** [c in s] for a one-character [c] *)
Fixpoint contains (c : ascii) (s : string) : bool :=
  match s with
  | EmptyString => false
  | String d r => Ascii.eqb c d || contains c r
  end.

(** [s.split(c, 1)] when [c in s]: the text before the first [c] and the
    text after it; [None] when [c] does not occur (Python then returns a
    one-element list). *)
Fixpoint split1 (c : ascii) (s : string) : option (string * string) :=
  match s with
  | EmptyString => None
  | String d r =>
      if Ascii.eqb c d then Some (EmptyString, r)
      else match split1 c r with
           | Some (a, b) => Some (String d a, b)
           | None => None
           end
  end.

Fixpoint lstrip (s : string) : string :=
  match s with
  | EmptyString => EmptyString
  | String c r => if is_space c then lstrip r else s
  end.

Fixpoint rstrip (s : string) : string :=
  match s with
  | EmptyString => EmptyString
  | String c r =>
      match rstrip r with
      | EmptyString => if is_space c then EmptyString else String c EmptyString
      | r' => String c r'
      end
  end.

(** [s.strip()] for a [str] *)
Definition strip (s : string) : string := rstrip (lstrip s).

(** The white space of [unicode]: below 256 these are the characters of
    [str.strip()], the separators 0x1c to 0x1f, the next-line character
    0x85 and the no-break space 0xa0. *)
Definition is_uspace (c : ascii) : bool :=
  let n := nat_of_ascii c in
  is_space c || ((28 <=? n)%nat && (n <=? 31)%nat)
  || (n =? 133)%nat || (n =? 160)%nat.

(** Stripping the characters that [sp] selects. *)
Fixpoint lstrip_by (sp : ascii -> bool) (s : string) : string :=
  match s with
  | EmptyString => EmptyString
  | String c r => if sp c then lstrip_by sp r else s
  end.

Fixpoint rstrip_by (sp : ascii -> bool) (s : string) : string :=
  match s with
  | EmptyString => EmptyString
  | String c r =>
      match rstrip_by sp r with
      | EmptyString => if sp c then EmptyString else String c EmptyString
      | r' => String c r'
      end
  end.

Definition strip_by (sp : ascii -> bool) (s : string) : string :=
  rstrip_by sp (lstrip_by sp s).

(** [s.strip()] for a [unicode] *)
Definition ustrip (s : string) : string := strip_by is_uspace s.

(** The two string types of Python 2, and [s.strip()] by the type of
    [s]. *)
Inductive kind : Type := Bytes | Unicode.

Definition whitespace (k : kind) : ascii -> bool :=
  match k with
  | Bytes => is_space
  | Unicode => is_uspace
  end.

Definition strip_as (k : kind) (s : string) : string :=
  match k with
  | Bytes => strip s
  | Unicode => ustrip s
  end.

(** [s.startswith(p)] *)
Fixpoint startswith (p s : string) : bool :=
  match p, s with
  | EmptyString, _ => true
  | String a p', String b s' => Ascii.eqb a b && startswith p' s'
  | String _ _, EmptyString => false
  end.

(** [sep.join(l)] for a list of strings *)
Fixpoint join (sep : string) (l : list string) : string :=
  match l with
  | [] => EmptyString
  | [x] => x
  | x :: r => x ++ sep ++ join sep r
  end.

(** The longest prefix of word characters, and the rest. *)
Fixpoint span_word (s : string) : string * string :=
  match s with
  | EmptyString => (EmptyString, EmptyString)
  | String c r =>
      if is_word_char c
      then let '(w, r') := span_word r in (String c w, r')
      else (EmptyString, s)
  end.

End PyStr.

(** ** The template regular expression

    [template_regex] has three alternatives, tried in this order at every
    position: [\$\$], [\$[a-zA-Z_][a-zA-Z_0-9]*] and [\$\{[^}]*\}].
    [re.sub] walks the string from left to right, replaces every match and
    copies the characters in between.  [tokenize] returns that
    decomposition: the matches with the text of their named group, and the
    characters that no match covers. *)

(** A match of [template_regex], by the named group that matched. *)
Inductive regex_match : Type :=
  | MDollar                 (* group 'dollar': the text "$$" *)
  | MWord (w : string)      (* group 'word':   "$" ++ w *)
  | MParens (b : string).   (* group 'parens': "${" ++ b ++ "}" *)

Inductive token : Type :=
  | TLit (c : ascii)        (* a character outside every match *)
  | TMatch (m : regex_match).

Fixpoint tokenize_fuel (n : nat) (s : string) : list token :=
  match n with
  | O => []
  | S n =>
      match s with
      | EmptyString => []
      | String "$" (String "$" r) => TMatch MDollar :: tokenize_fuel n r
      | String "$" (String c r) =>
          if PyStr.is_word_start c then
            let '(w, r') := PyStr.span_word (String c r) in
            TMatch (MWord w) :: tokenize_fuel n r'
          else if Ascii.eqb c "{" then
            match PyStr.split1 "}" r with
            | Some (b, r') => TMatch (MParens b) :: tokenize_fuel n r'
            | None => TLit "$" :: tokenize_fuel n (String c r)
            end
          else TLit "$" :: tokenize_fuel n (String c r)
      | String c r => TLit c :: tokenize_fuel n r
      end
  end.

(** Every step consumes at least one character, so the length of the
    string is enough fuel. *)
Definition tokenize (s : string) : list token :=
  tokenize_fuel (String.length s) s.

(** ** Python values and exceptions *)

(** The values a JSON document or [DEPENDENCY_TYPES] holds: [None],
    booleans, integers ([int] and [long]), floating-point numbers,
    strings, lists and dictionaries.  A finite [float] is given by the
    rational number it stands for, which is all that [==], [>] and the
    truth test look at.  A nested dictionary keeps its items as a list
    of pairs. *)
Inductive value : Type :=
  | VNone
  | VBool (b : bool)
  | VInt (n : Z)
  | VFloat (x : Q)
  | VStr (s : string)
  | VList (l : list value)
  | VDict (d : list (string * value)).

(** The exception classes the source raises or catches.  [except Exception]
    catches all of them; [except KeyError], [except IOError], [except
    OSError] and [except subprocess.CalledProcessError] catch one class. *)
Inductive exn_class : Type :=
  | KeyError | ValueError | TypeError | AttributeError
  | IOError | OSError | CalledProcessError | Exception.

Record exn : Type := mk_exn { exn_cls : exn_class; exn_args : list value }.

Definition exn_class_eqb (a b : exn_class) : bool :=
  match a, b with
  | KeyError, KeyError | ValueError, ValueError | TypeError, TypeError
  | AttributeError, AttributeError | IOError, IOError | OSError, OSError
  | CalledProcessError, CalledProcessError | Exception, Exception => true
  | _, _ => false
  end.

(** The outcome of a call: a value, a raised exception, or (for the
    recursion of the expander only) exhausted fuel. *)
Inductive res (A : Type) : Type :=
  | Ok (a : A)
  | Raise (e : exn)
  | OutOfFuel.
Arguments Ok {A} a.
Arguments Raise {A} e.
Arguments OutOfFuel {A}.

(** State and exceptions: a computation over a mutable state [S]. *)
Definition M (S A : Type) : Type := S -> res A * S.

Definition ret {S A} (a : A) : M S A := fun s => (Ok a, s).
Definition raise {S A} (e : exn) : M S A := fun s => (Raise e, s).
Definition bind {S A B} (m : M S A) (k : A -> M S B) : M S B :=
  fun s =>
    match m s with
    | (Ok a, s') => k a s'
    | (Raise e, s') => (Raise e, s')
    | (OutOfFuel, s') => (OutOfFuel, s')
    end.
(** [try: m except cls: h] *)
Definition try_except {S A} (m : M S A) (cls : exn_class) (h : exn -> M S A)
  : M S A :=
  fun s =>
    match m s with
    | (Raise e, s') =>
        if exn_class_eqb (exn_cls e) cls then h e s' else (Raise e, s')
    | r => r
    end.
Definition get {S} : M S S := fun s => (Ok s, s).
Definition modify {S} (f : S -> S) : M S unit := fun s => (Ok tt, f s).
Definition lift_res {S A} (r : res A) : M S A := fun s => (r, s).

Declare Scope py_scope.
Delimit Scope py_scope with py.
Notation "x <- m ;; k" := (bind m (fun x => k))
  (at level 100, m at next level, right associativity) : py_scope.
Notation "m ;;; k" := (bind m (fun _ => k))
  (at level 100, right associativity) : py_scope.

(** ** is_trueish *)

(** [hasattr(value, "upper")] holds for strings only; [value in [1, "1",
    "YES", "Y", "TRUE", "ON", True]] compares with [==], under which the
    integer [1], the float [1.0] and [True] are equal. *)
Definition is_trueish (v : value) : bool :=
  match v with
  | VStr s =>
      let u := PyStr.upper s in
      existsb (String.eqb u) ["1"; "YES"; "Y"; "TRUE"; "ON"]
  | VInt n => n =? 1
  | VFloat x => Qeq_bool x 1
  | VBool b => b
  | VNone | VList _ | VDict _ => false
  end.

(** ** EnvironmentExpander *)

Record EnvironmentExpander : Type := mk_expander {
  env_dict : gmap string value;
  cache : gmap string value;
  expandset : gset string
}.

(** [EnvironmentExpander(env_dict)] *)
Definition new_expander (env : gmap string value) : EnvironmentExpander :=
  {| env_dict := env; cache := ∅; expandset := ∅ |}.

Definition recursive_expansion (key : string) : exn :=
  mk_exn ValueError [VStr "Recursive expansion for key:"; VStr key].
Definition key_undefined (key : string) : exn :=
  mk_exn KeyError [VStr "Key undefined:"; VStr key].
Definition malformed_conditional : exn :=
  mk_exn ValueError
    [VStr "conditional must be of form ${condition?result:alternative}"].

Section Expander.
Local Open Scope py_scope.
Abbreviation Exp := (M EnvironmentExpander).

(** The methods below call [self.expand]; [rec] stands for that call. *)
Variable rec : string -> Exp value.

Definition expandconditional (key : string) : Exp value :=
  if negb (PyStr.contains "?" key) then raise malformed_conditional else
  match PyStr.split1 "?" key with
  | None => raise malformed_conditional
  | Some (condition, rest) =>
      if negb (PyStr.contains ":" rest) then raise malformed_conditional else
      match PyStr.split1 ":" rest with
      | None => raise malformed_conditional
      | Some (primary, alternative) =>
          let condition := PyStr.strip condition in
          let primary := PyStr.strip primary in
          let alternative := PyStr.strip alternative in
          conditionvalue <-
            try_except (rec condition) KeyError (fun _ => ret (VBool false)) ;;
          if is_trueish conditionvalue then rec primary
          else rec alternative
      end
  end.

(** [replacematch]: the replacement for one match of [template_regex]. *)
Definition replacematch (m : regex_match) : Exp value :=
  match m with
  | MDollar => ret (VStr "$")
  | MWord key | MParens key =>
      let key := PyStr.strip key in
      if PyStr.contains "?" key then expandconditional key else rec key
  end.

(** The two methods above strip with [str.strip()]: they are the
    methods on a template that is a [str].  On a template of kind [kind]
    every [.strip()] is the one of that kind, and nothing else changes:
    [expandconditional_as] and [replacematch_as] are the two methods on
    either kind of template. *)
Definition expandconditional_as (kind : PyStr.kind) (key : string)
  : Exp value :=
  if negb (PyStr.contains "?" key) then raise malformed_conditional else
  match PyStr.split1 "?" key with
  | None => raise malformed_conditional
  | Some (condition, rest) =>
      if negb (PyStr.contains ":" rest) then raise malformed_conditional else
      match PyStr.split1 ":" rest with
      | None => raise malformed_conditional
      | Some (primary, alternative) =>
          let condition := PyStr.strip_as kind condition in
          let primary := PyStr.strip_as kind primary in
          let alternative := PyStr.strip_as kind alternative in
          conditionvalue <-
            try_except (rec condition) KeyError (fun _ => ret (VBool false)) ;;
          if is_trueish conditionvalue then rec primary
          else rec alternative
      end
  end.

Definition replacematch_as (kind : PyStr.kind) (m : regex_match)
  : Exp value :=
  match m with
  | MDollar => ret (VStr "$")
  | MWord key | MParens key =>
      let key := PyStr.strip_as kind key in
      if PyStr.contains "?" key then expandconditional_as kind key
      else rec key
  end.

(** The pieces [re.sub] collects: unmatched text and the replacement of
    every match, from left to right. *)
Fixpoint sub_pieces (ts : list token) : Exp (list value) :=
  match ts with
  | [] => ret []
  | t :: ts' =>
      p <- match t with
           | TLit c => ret (VStr (String c EmptyString))
           | TMatch m => replacematch m
           end ;;
      ps <- sub_pieces ts' ;;
      ret (p :: ps)
  end.

(** [re.sub] drops a replacement that is [None] and joins the others
    with the empty string, which raises [TypeError] on a piece that is
    not a string. *)
Fixpoint join_pieces (ps : list value) : res string :=
  match ps with
  | [] => Ok EmptyString
  | VNone :: ps' => join_pieces ps'
  | VStr s :: ps' =>
      match join_pieces ps' with
      | Ok r => Ok (s ++ r)
      | e => e
      end
  | _ :: _ => Raise (mk_exn TypeError [VStr "sequence item: expected string"])
  end.

Definition template_sub (s : string) : Exp value :=
  ps <- sub_pieces (tokenize s) ;;
  r <- lift_res (join_pieces ps) ;;
  ret (VStr r).

(** [_expandvalue].  The dictionary branch calls [self.expandvalue],
    an attribute the class does not have: building the first item of
    the result raises [AttributeError]; an empty dictionary has no item
    to build. *)
Fixpoint _expandvalue (v : value) : Exp value :=
  match v with
  | VStr s => template_sub s
  | VList l =>
      xs <- (fix each (l : list value) : Exp (list value) :=
               match l with
               | [] => ret []
               | x :: l' =>
                   y <- _expandvalue x ;;
                   ys <- each l' ;;
                   ret (y :: ys)
               end) l ;;
      ret (VList xs)
  | VDict [] => ret (VDict [])
  | VDict (_ :: _) =>
      raise (mk_exn AttributeError
               [VStr "'EnvironmentExpander' object has no attribute 'expandvalue'"])
  | VNone | VBool _ | VInt _ | VFloat _ => ret v
  end.

(** [_expand] *)
Definition _expand (key : string) : Exp value :=
  self <- get ;;
  match env_dict self !! key with
  | None => raise (key_undefined key)
  | Some v => _expandvalue v
  end.

End Expander.

Section ExpandFuel.
Local Open Scope py_scope.

(** [self.expandset.remove(key)] raises [KeyError] on a missing key. *)
Definition expandset_remove (key : string) : M EnvironmentExpander unit :=
  self <- get ;;
  if decide (key ∈ expandset self)
  then modify (fun self =>
         {| env_dict := env_dict self; cache := cache self;
            expandset := expandset self ∖ {[key]} |})
  else raise (mk_exn KeyError [VStr key]).

(** [expand].  The recursion of the source goes through [_expand],
    [_expandvalue] and [replacematch] back to [expand]; [fuel] bounds
    its depth. *)
Fixpoint expand (fuel : nat) (key : string) : M EnvironmentExpander value :=
  match fuel with
  | O => fun self => (OutOfFuel, self)
  | S fuel =>
      self <- get ;;
      match cache self !! key with
      | Some v => ret v
      | None =>
          if decide (key ∈ expandset self)
          then raise (recursive_expansion key)
          else
            modify (fun self =>
              {| env_dict := env_dict self; cache := cache self;
                 expandset := {[key]} ∪ expandset self |}) ;;;
            result <- _expand (expand fuel) key ;;
            modify (fun self =>
              {| env_dict := env_dict self;
                 cache := <[key := result]> (cache self);
                 expandset := expandset self |}) ;;;
            expandset_remove key ;;;
            ret result
      end
  end.

(** The depth of the recursion never exceeds the number of keys of the
    environment by more than one. *)
Definition enough_fuel (self : EnvironmentExpander) : nat :=
  S (size (env_dict self)).

(** [self.expand(key)] as callers outside the class use it. *)
Definition expander_expand (key : string) : M EnvironmentExpander value :=
  fun self => expand (enough_fuel self) key self.

End ExpandFuel.

(** ** Archives *)

(** An opened archive: its family and its entries (member name and
    content). *)
Inductive archive_kind : Type := TarFile | ZipFile.
Record archive : Type := mk_archive {
  ar_kind : archive_kind;
  ar_entries : list (string * string)
}.

Module PyVal.

(** [v > 0] as Python 2 orders values: [None] is below every number,
    and every string, list and dictionary is above every number. *)
Definition gt0 (v : value) : bool :=
  match v with
  | VNone => false
  | VBool b => b
  | VInt n => 0 <? n
  | VFloat x => negb (Qle_bool x 0)
  | VStr _ | VList _ | VDict _ => true
  end.

(** The truth value of [v] in [if v:]. *)
Definition truthy (v : value) : bool :=
  match v with
  | VNone => false
  | VBool b => b
  | VInt n => negb (n =? 0)
  | VFloat x => negb (Qeq_bool x 0)
  | VStr s => negb (String.eqb s EmptyString)
  | VList l => negb (Nat.eqb (List.length l) 0)
  | VDict d => negb (Nat.eqb (List.length d) 0)
  end.

(** [v] as a slice index: integers and booleans only (a float raises
    [TypeError] as every other value does). *)
Definition index (v : value) : res Z :=
  match v with
  | VInt n => Ok n
  | VBool b => Ok (if b then 1 else 0)
  | _ => Raise (mk_exn TypeError [VStr "slice indices must be integers"])
  end.

(** [==] between two values that can be dictionary keys. *)
Definition key_eqb (a b : value) : bool :=
  match a, b with
  | VNone, VNone => true
  | VStr x, VStr y => String.eqb x y
  | VInt x, VInt y => x =? y
  | VBool x, VBool y => Bool.eqb x y
  | VInt x, VBool y | VBool y, VInt x => x =? (if y then 1 else 0)
  | VFloat x, VFloat y => Qeq_bool x y
  | VFloat x, VInt n | VInt n, VFloat x => Qeq_bool x (inject_Z n)
  | VFloat x, VBool b | VBool b, VFloat x =>
      Qeq_bool x (inject_Z (if b then 1 else 0))
  | _, _ => false
  end.

(** Lists and dictionaries cannot be hashed. *)
Definition hashable (v : value) : bool :=
  match v with
  | VList _ | VDict _ => false
  | _ => true
  end.

Definition unhashable : exn := mk_exn TypeError [VStr "unhashable type"].

(** [sep.join(l)] raises [TypeError] on an item that is not a string. *)
Fixpoint join (sep : string) (l : list value) : res string :=
  match l with
  | [] => Ok EmptyString
  | [VStr x] => Ok x
  | VStr x :: r =>
      match join sep r with
      | Ok t => Ok (x ++ sep ++ t)
      | e => e
      end
  | _ :: _ => Raise (mk_exn TypeError [VStr "sequence item: expected string"])
  end.

End PyVal.

(** [name.split('/')] *)
Fixpoint split_slash (s : string) : list string :=
  match s with
  | EmptyString => [EmptyString]
  | String c r =>
      if Ascii.eqb c "/" then EmptyString :: split_slash r
      else match split_slash r with
           | [] => [String c EmptyString]
           | x :: xs => String c x :: xs
           end
  end.

(** [l[n:]] *)
Definition slice_from {A} (n : Z) (l : list A) : list A :=
  if 0 <=? n then drop (Z.to_nat n) l
  else drop (List.length l - Z.to_nat (- n)) l.

(** ** Openers *)

Inductive opener : Type := open_file_url | urlopen | open_rb.

(** [re.match("[^\W\d]{2,8}:", path)]: two to eight letters or
    underscores, then a colon. *)
Fixpoint span_alpha (s : string) : string * string :=
  match s with
  | EmptyString => (EmptyString, EmptyString)
  | String c r =>
      if PyStr.is_word_start c
      then let '(w, r') := span_alpha r in (String c w, r')
      else (EmptyString, s)
  end.

Definition has_scheme (path : string) : bool :=
  let '(w, r) := span_alpha path in
  (2 <=? String.length w)%nat && (String.length w <=? 8)%nat &&
  PyStr.startswith ":" r.

Definition get_opener_for_path (path : string) : opener :=
  if PyStr.startswith "file:" path || PyStr.startswith "smb:" path
  then open_file_url
  else if has_scheme path then urlopen
  else open_rb.

(** [os.path.splitext(name)[1]]: the text from the last dot of the last
    path component, unless that component has only leading dots. *)
Fixpoint ext_of_component (seen_other : bool) (s : string) : string :=
  match s with
  | EmptyString => EmptyString
  | String c r =>
      let later := ext_of_component (seen_other || negb (Ascii.eqb c ".")) r in
      if negb (String.eqb later EmptyString) then later
      else if Ascii.eqb c "." && seen_other then s
      else EmptyString
  end.

Definition splitext_ext (name : string) : string :=
  ext_of_component false (List.last (split_slash name) EmptyString).

Definition archive_kind_of (name : string) : archive_kind :=
  if existsb (String.eqb (PyStr.upper (splitext_ext name)))
       [".ZIP"; ".NUPKG"; ".JAR"]
  then ZipFile else TarFile.

(** ** The outside world

    The file system, the network and the [git] client are not part of the
    source.  [W] is the state of that world and [External] the calls the
    source makes into it; a call returns or raises, and may change the
    world. *)

(** What a call into the outside world does: it returns or it raises. *)
Inductive outcome (A : Type) : Type :=
  | Returns (a : A)
  | Raises (e : exn).
Arguments Returns {A} a.
Arguments Raises {A} e.

Definition res_of_outcome {A} (o : outcome A) : res A :=
  match o with
  | Returns a => Ok a
  | Raises e => Raise e
  end.

(** One [logfile.write]: the format string as the source has it (escape
    sequences as written there) and the values it is filled with. *)
Definition log_entry : Type := string * list value.

Section World.
Local Open Scope py_scope.

Variable W : Type.
Variable File : Type.

Record External : Type := mk_external {
  (** [os.path.abspath] *)
  os_path_abspath : string -> string;
  (** [opener(remote_path)] for each of the three openers *)
  call_opener : opener -> string -> W -> outcome File * W;
  (** [fileobj.read()] *)
  file_read : File -> W -> outcome string * W;
  (** [zipfile.ZipFile(memoryfile, "r")] and [tarfile.open(...)] *)
  decode_archive : archive_kind -> string -> string -> outcome archive;
  (** [os.makedirs] *)
  os_makedirs : string -> W -> outcome unit * W;
  (** [archive.extractall(local_path)] *)
  extractall : archive -> string -> W -> outcome unit * W;
  (** [remote_file.close()] *)
  file_close : File -> W -> W;
  (** [os.path.exists] and [os.path.isdir] *)
  os_path_exists : string -> W -> bool;
  os_path_isdir : string -> W -> bool;
  (** [subprocess.call(args, cwd=..., shell=True)]: the exit status *)
  subprocess_call : list value -> string -> W -> outcome Z * W
}.

Variable ext : External.

(** What a method acts on besides [self]. *)
Record Sys : Type := mk_sys { logfile : list log_entry; world : W }.

Definition in_world {S A} (m : W -> outcome A * W) : M (S * Sys) A :=
  fun st =>
    let '(r, w) := m (world (snd st)) in
    (res_of_outcome r,
     (fst st, {| logfile := logfile (snd st); world := w |})).

Definition logfile_write {S} (fmt : string) (args : list value)
  : M (S * Sys) unit :=
  modify (fun st =>
    (fst st, {| logfile := logfile (snd st) ++ [(fmt, args)];
                world := world (snd st) |})).

(** [openarchive] *)
Definition openarchive {S} (name : string) (fileobj : File)
  : M (S * Sys) archive :=
  contents <- in_world (file_read ext fileobj) ;;
  lift_res (res_of_outcome
    (decode_archive ext (archive_kind_of name) name contents)).

(** [extract_archive] *)
Definition strip_entry (strip_dirs : Z) (entry : string * string)
  : string * string :=
  (PyStr.join "/" (slice_from strip_dirs (split_slash (fst entry))),
   snd entry).

Definition extract_archive {S} (a : archive) (local_path : string)
    (strip_dirs : value) : M (S * Sys) unit :=
  a <- (if PyVal.gt0 strip_dirs then
          match ar_kind a with
          | ZipFile =>
              raise (mk_exn Exception
                [VStr "Cannot strip leading directories from zip archives."])
          | TarFile =>
              match ar_entries a with
              | [] => ret a
              | _ :: _ =>
                  n <- lift_res (PyVal.index strip_dirs) ;;
                  ret {| ar_kind := TarFile;
                         ar_entries := map (strip_entry n) (ar_entries a) |}
              end
          end
        else ret a) ;;
  in_world (extractall ext a local_path).

(** [subprocess.check_call] *)
Definition check_call {S} (args : list value) (cwd : string)
  : M (S * Sys) unit :=
  retcode <- in_world (subprocess_call ext args cwd) ;;
  if retcode =? 0 then ret tt
  else raise (mk_exn CalledProcessError [VInt retcode; VList args]).

(** ** Dependency *)

Record Dependency : Type := mk_dependency {
  expander : EnvironmentExpander;
  has_overrides : bool
}.

(** [Dependency(name, environment, logfile, has_overrides)]; the
    constructor does not store [name]. *)
Definition new_dependency (name : value) (environment : gmap string value)
    (overridden : bool) : Dependency :=
  {| expander := new_expander environment; has_overrides := overridden |}.

Abbreviation Dep := (M (Dependency * Sys)).

(** [self.expander.expand(key)], also [self[key]] *)
Definition dep_expand (key : string) : Dep value :=
  fun st =>
    let '(r, e) := expander_expand key (expander (fst st)) in
    (r, ({| expander := e; has_overrides := has_overrides (fst st) |},
         snd st)).

(** The argument of a call that needs a string: [None.startswith], or
    [str + int], raise. *)
Definition as_str {S} (cls : exn_class) (v : value) : M S string :=
  match v with
  | VStr s => ret s
  | _ => raise (mk_exn cls [VStr "not a string"])
  end.

(** The body of the first [try] of [fetch]. *)
Definition fetch_open (remote_path : value) : Dep (archive * File) :=
  path <- as_str AttributeError remote_path ;;
  let opener := get_opener_for_path path in
  remote_file <- in_world (call_opener ext opener path) ;;
  a <- openarchive path remote_file ;;
  ret (a, remote_file).

(** [Dependency.fetch] *)
Definition fetch : Dep bool :=
  remote_path <- dep_expand "archive-path" ;;
  dest <- dep_expand "dest" ;;
  dest <- as_str AttributeError dest ;;
  let local_path := os_path_abspath ext dest in
  strip_dirs <- dep_expand "strip-archive-dirs" ;;
  name <- dep_expand "name" ;;
  logfile_write "Fetching '%s'\n  from '%s'\n" [name; remote_path] ;;;
  opened <-
    try_except (r <- fetch_open remote_path ;; ret (Some r)) IOError
      (fun _ => logfile_write "  FAILED\n" [] ;;; ret None) ;;
  match opened with
  | None => ret false
  | Some (a, remote_file) =>
      try_except (in_world (os_makedirs ext local_path)) OSError
        (fun _ => ret tt) ;;;
      logfile_write "  unpacking to '%s'\n" [VStr local_path] ;;;
      extract_archive a local_path strip_dirs ;;;
      modify (fun st =>
        (fst st, {| logfile := logfile (snd st);
                    world := file_close ext remote_file (world (snd st)) |})) ;;;
      logfile_write "  OK\n" [] ;;;
      ret true
  end.

(** The body of the [try] of [checkout]; [false] is its [return False]. *)
Definition checkout_commands (name : string) (sourcegit tag : value)
  : Dep bool :=
  let target := "../" ++ name in
  self <- get ;;
  proceed <-
    (if negb (os_path_exists ext target (world (snd self))) then
       logfile_write "  git clone {0} {1}\n" [sourcegit; VStr name] ;;;
       check_call [VStr "git"; VStr "clone"; sourcegit; VStr name] ".." ;;;
       ret true
     else if negb (os_path_isdir ext target (world (snd self))) then
       logfile_write
         "Cannot checkout {0}, because directory ../{0} already exists\n"
         [VStr name] ;;;
       ret false
     else
       logfile_write "  git fetch origin\n" [] ;;;
       check_call [VStr "git"; VStr "fetch"; VStr "origin"] target ;;;
       ret true) ;;
  if proceed then
    logfile_write "  git checkout {0}\n" [tag] ;;;
    check_call [VStr "git"; VStr "checkout"; tag] target ;;;
    ret true
  else ret false.

(** [Dependency.checkout] *)
Definition checkout : Dep bool :=
  name <- dep_expand "name" ;;
  sourcegit <- dep_expand "source-git" ;;
  match sourcegit with
  | VNone =>
      logfile_write "No git repo defined for {0}.\n" [name] ;;;
      ret false
  | _ =>
      name <- as_str TypeError name ;;
      logfile_write "Fetching source for '%s'\n  into '%s'\n"
        [VStr name; VStr (os_path_abspath ext ("../" ++ name))] ;;;
      tag <- dep_expand "tag" ;;
      try_except (checkout_commands name sourcegit tag) CalledProcessError
        (fun cpe =>
           logfile_write
             "Command '%s' returned non-zero exit status %d\n"
             (rev (exn_args cpe)) ;;;
           ret false)
  end.

(** ** DependencyCollection *)

(** [self.dependencies]: the records under the name each was stored
    with, in insertion order. *)
Record DependencyCollection : Type := mk_collection {
  base_env : gmap string value;
  dependency_types : gmap string (gmap string value);
  dependencies : list (value * Dependency)
}.

Abbreviation Coll := (M (DependencyCollection * Sys)).

(** [env.update(other)]: the items of [other] win. *)
Definition dict_update (env other : gmap string value) : gmap string value :=
  other ∪ env.

(** [d[k]] and [d[k] = v] on [self.dependencies] *)
Fixpoint deps_get (k : value) (l : list (value * Dependency))
  : option Dependency :=
  match l with
  | [] => None
  | (k', d) :: r => if PyVal.key_eqb k' k then Some d else deps_get k r
  end.

Fixpoint deps_set (k : value) (d : Dependency) (l : list (value * Dependency))
  : list (value * Dependency) :=
  match l with
  | [] => [(k, d)]
  | (k', d') :: r =>
      if PyVal.key_eqb k' k then (k', d) :: r else (k', d') :: deps_set k d r
  end.

(** [self.dependency_types[dep_type]] *)
Definition types_getitem (types : gmap string (gmap string value))
    (dep_type : value) : res (gmap string value) :=
  match dep_type with
  | VStr t =>
      match types !! t with
      | Some defaults => Ok defaults
      | None => Raise (mk_exn KeyError [dep_type])
      end
  | VList _ | VDict _ => Raise PyVal.unhashable
  | VNone | VBool _ | VInt _ | VFloat _ => Raise (mk_exn KeyError [dep_type])
  end.

(** [create_dependency] *)
Definition create_dependency (defn overrides : gmap string value)
  : Coll unit :=
  self <- get ;;
  let env : gmap string value := ∅ in
  let env := dict_update env (base_env (fst self)) in
  env <- match defn !! "type" with
         | Some dep_type =>
             defaults <- lift_res
               (types_getitem (dependency_types (fst self)) dep_type) ;;
             ret (dict_update env defaults)
         | None => ret env
         end ;;
  let env := dict_update env defn in
  let env := dict_update env overrides in
  if match env !! "ignore" with
     | Some v => PyVal.truthy v
     | None => false
     end
  then ret tt
  else
    match env !! "name" with
    | None =>
        raise (mk_exn ValueError
                 [VStr "Dependency definition contains no name"])
    | Some name =>
        let d := new_dependency name env (0 <? size overrides)%nat in
        if PyVal.hashable name then
          modify (fun st =>
            ({| base_env := base_env (fst st);
                dependency_types := dependency_types (fst st);
                dependencies := deps_set name d (dependencies (fst st)) |},
             snd st))
        else raise PyVal.unhashable
    end.

(** [_filter]: the records an operation runs on, each identified by
    the name it is stored under.  Without a subset the source returns
    [self.dependencies.values()], whose order is that of the hash table
    of the dictionary; the model has no hash table and lists the records
    in the order in which their names were first stored. *)
Definition _filter (subset : option (list string)) : Coll (list value) :=
  self <- get ;;
  match subset with
  | None => ret (map fst (dependencies (fst self)))
  | Some subset =>
      let missing_dependencies :=
        filter (fun name =>
                  deps_get (VStr name) (dependencies (fst self)) = None)
               subset in
      if (0 <? List.length missing_dependencies)%nat then
        raise (mk_exn Exception
          [VStr ("No entries in dependency file named: "
                 ++ PyStr.join ", " missing_dependencies ++ ".")])
      else ret (map VStr subset)
  end.

(** A method call on the record stored under [k]; the record keeps
    what the call did to it. *)
Definition on_dependency {A} (k : value) (m : Dep A) : Coll A :=
  fun st =>
    match deps_get k (dependencies (fst st)) with
    | None => (Raise (mk_exn KeyError [k]), st)
    | Some d =>
        let '(r, (d', sys')) := m (d, snd st) in
        (r, ({| base_env := base_env (fst st);
                dependency_types := dependency_types (fst st);
                dependencies := deps_set k d' (dependencies (fst st)) |},
             sys'))
    end.

(** The loop shared by [fetch] and [checkout]:
    [for d in dependencies: if not d.op(): failed_dependencies.append(d.name)] *)
Fixpoint collect_failed (op : Dep bool) (ds : list value)
    (failed_dependencies : list value) : Coll (list value) :=
  match ds with
  | [] => ret failed_dependencies
  | d :: ds' =>
      ok <- on_dependency d op ;;
      if negb ok then
        name <- on_dependency d (dep_expand "name") ;;
        collect_failed op ds' (failed_dependencies ++ [name])
      else collect_failed op ds' failed_dependencies
  end.

Definition report_failed (message : string) (failed_dependencies : list value)
  : Coll bool :=
  match failed_dependencies with
  | _ :: _ =>
      names <- lift_res (PyVal.join " " failed_dependencies) ;;
      logfile_write (message ++ names ++ "\n") [] ;;;
      ret false
  | [] => ret true
  end.

(** [DependencyCollection.fetch] *)
Definition collection_fetch (subset : option (list string)) : Coll bool :=
  ds <- _filter subset ;;
  failed_dependencies <- collect_failed fetch ds [] ;;
  report_failed "Failed to fetch some dependencies: " failed_dependencies.

(** [DependencyCollection.checkout] *)
Definition collection_checkout (subset : option (list string)) : Coll bool :=
  ds <- _filter subset ;;
  failed_dependencies <- collect_failed checkout ds [] ;;
  report_failed "Failed to check out some dependencies: " failed_dependencies.

(** [sum((d.expand_configure_args() for d in dependencies), [])]:
    [total + v] raises [TypeError] unless [v] is a list. *)
Fixpoint sum_configure_args (ds : list value) (total : list value)
  : Coll (list value) :=
  match ds with
  | [] => ret total
  | d :: ds' =>
      v <- on_dependency d (dep_expand "configure-args") ;;
      match v with
      | VList l => sum_configure_args ds' (total ++ l)
      | _ => raise (mk_exn TypeError [VStr "can only concatenate list to list"])
      end
  end.

(** [DependencyCollection.get_args] *)
Definition get_args (subset : option (list string)) : Coll (list value) :=
  ds <- _filter subset ;;
  sum_configure_args ds [].

End World.

Arguments mk_external {W File}.
Arguments os_path_abspath {W File} e.
Arguments call_opener {W File} e.
Arguments file_read {W File} e.
Arguments decode_archive {W File} e.
Arguments os_makedirs {W File} e.
Arguments extractall {W File} e.
Arguments file_close {W File} e.
Arguments os_path_exists {W File} e.
Arguments os_path_isdir {W File} e.
Arguments subprocess_call {W File} e.
Arguments mk_sys {W} logfile world.
Arguments logfile {W} s.
Arguments world {W} s.

(** [DEPENDENCY_TYPES] *)
Definition DEPENDENCY_TYPES : gmap string (gmap string value) :=
  list_to_map [
    ("ignore", list_to_map [("ignore", VBool true)]);
    ("openhome", list_to_map [
       ("archive-extension", VStr ".tar.gz");
       ("archive-prefix", VStr "");
       ("archive-suffix", VStr "");
       ("binary-repo", VStr "http://openhome.org/releases/artifacts");
       ("archive-directory", VStr "${binary-repo}/${name}/");
       ("archive-filename", VStr "${archive-prefix}${name}-${version}-${archive-platform}${archive-suffix}${archive-extension}");
       ("remote-archive-path", VStr "${archive-directory}${archive-filename}");
       ("use-local-archive", VBool false);
       ("archive-path", VStr "${use-local-archive?local-archive-path:remote-archive-path}");
       ("source-path", VStr "${linn-git-user}@core.linn.co.uk:/home/git");
       ("repo-name", VStr "${name}");
       ("source-git", VStr "${source-path}/${repo-name}.git");
       ("tag", VStr "${repo-name}_${version}");
       ("any-platform", VStr "AnyPlatform");
       ("platform-specific", VBool true);
       ("archive-platform", VStr "${platform-specific?platform:any-platform}");
       ("dest", VStr "dependencies/${archive-platform}/");
       ("configure-args", VList []);
       ("strip-archive-dirs", VInt 0)]);
    ("external", list_to_map [
       ("binary-repo", VStr "http://openhome.org/releases/artifacts");
       ("source-git", VNone);
       ("any-platform", VStr "AnyPlatform");
       ("platform-specific", VBool true);
       ("archive-platform", VStr "${platform-specific?platform:any-platform}");
       ("archive-path", VStr "${binary-repo}/${archive-platform}/${archive-filename}");
       ("dest", VStr "dependencies/${archive-platform}/");
       ("configure-args", VList []);
       ("strip-archive-dirs", VInt 0)])
  ].

(** [DependencyCollection(env, logfile)] *)
Definition new_collection (env : gmap string value) : DependencyCollection :=
  {| base_env := env; dependency_types := DEPENDENCY_TYPES;
     dependencies := [] |}.

(** ** open_file_url

    [urllib.url2pathname], [os.path.sep] and the test
    [platform.platform().startswith("Windows")] depend on the platform and
    are parameters.  The function ends with [open(final_path, "rb")]; the
    model returns [final_path], or the error raised before the call. *)

Module FileUrl.

Inductive error : Type :=
  | IndexError        (* [path[0]] or [path[1]] past the end of the string *)
  | BadSmbLocal       (* "Bad smb:// path" *)
  | BadSmbPath        (* "Bad smb:// path. Use 'smb://hostname/path/to/file.ext'" *)
  | SmbNotSupported.  (* "SMB file access not supported on non-Windows platforms." *)

(** [s.replace(a, b)] for one-character [a] and [b] *)
Fixpoint replace (a b : ascii) (s : string) : string :=
  match s with
  | EmptyString => EmptyString
  | String c r => String (if Ascii.eqb c a then b else c) (replace a b r)
  end.

(** [s[n:]] *)
Fixpoint drop (n : nat) (s : string) : string :=
  match n, s with
  | O, _ => s
  | S n', String _ r => drop n' r
  | S _, EmptyString => EmptyString
  end.

Definition isalpha (c : ascii) : bool := PyStr.is_lower c || PyStr.is_upper c.

Section OpenFileUrl.
Variable url2pathname : string -> string.
Variable sep : ascii.
Variable windows : bool.

(** The flags [remote] and [legacy] and [final_path], as the [if]
    cascade on [path] sets them. *)
Definition classify (smb : bool) (path : string)
  : error + (bool * bool * string) :=
  match path with
  | EmptyString => inl IndexError
  | String c0 rest =>
      if Ascii.eqb c0 "/" then
        match rest with
        | EmptyString => inl IndexError
        | String c1 _ =>
            if Ascii.eqb c1 "/" then inr (true, true, replace "/" sep path)
            else if smb then inl BadSmbLocal
            else inr (false, false, replace "/" sep rest)
        end
      else if isalpha c0 then
        match rest with
        | EmptyString => inl IndexError
        | String c1 _ =>
            if Ascii.eqb c1 ":" then inr (false, false, replace "/" sep path)
            else inr (true, false, ("\\" ++ replace "/" sep path)%string)
        end
      else inr (true, false, ("\\" ++ replace "/" sep path)%string)
  end.

Definition open_file_url (url : string) : error + string :=
  let '(url, smb) :=
    if PyStr.startswith "smb://" url then (drop 6 url, true)
    else if PyStr.startswith "file://" url then (drop 7 url, false)
    else (url, false) in
  let path := replace sep "/" (url2pathname url) in
  match classify smb path with
  | inl e => inl e
  | inr (remote, legacy, final_path) =>
      if smb && (legacy || negb remote) then inl BadSmbPath
      else if (smb || remote) && negb windows then inl SmbNotSupported
      else inr final_path
  end.

End OpenFileUrl.

End FileUrl.

(** ** read_json_dependencies

    [json.load] is not part of the source.  [dependencies] and
    [overrides] stand for what it returned for the two files: each a list
    of objects, as the loop of the source needs them. *)

(** [d[k] = v] and [d.get(k)] on a dictionary whose keys are values: an
    assignment to a key that is equal to one already there keeps the old
    key and replaces what is stored under it. *)
Fixpoint pydict_set {A} (k : value) (v : A) (l : list (value * A))
  : list (value * A) :=
  match l with
  | [] => [(k, v)]
  | (k', v') :: r =>
      if PyVal.key_eqb k' k then (k', v) :: r else (k', v') :: pydict_set k v r
  end.

Fixpoint pydict_get {A} (k : value) (l : list (value * A)) : option A :=
  match l with
  | [] => None
  | (k', v) :: r => if PyVal.key_eqb k' k then Some v else pydict_get k r
  end.

(** [dep['name']] *)
Definition getitem_name (dep : gmap string value) : res value :=
  match dep !! "name" with
  | Some name => Ok name
  | None => Raise (mk_exn KeyError [VStr "name"])
  end.

(** [dict((dep['name'], dep) for dep in overrides)], filled from left to
    right from [acc]. *)
Fixpoint overrides_by_name (overrides : list (gmap string value))
    (acc : list (value * gmap string value))
  : res (list (value * gmap string value)) :=
  match overrides with
  | [] => Ok acc
  | dep :: rest =>
      match getitem_name dep with
      | Ok name =>
          if PyVal.hashable name
          then overrides_by_name rest (pydict_set name dep acc)
          else Raise PyVal.unhashable
      | Raise e => Raise e
      | OutOfFuel => OutOfFuel
      end
  end.

Section ReadJson.
Local Open Scope py_scope.
Variable W : Type.

(** [for d in dependencies: ...] *)
Fixpoint create_each (by_name : list (value * gmap string value))
    (dependencies : list (gmap string value))
  : M (DependencyCollection * Sys W) unit :=
  match dependencies with
  | [] => ret tt
  | d :: rest =>
      name <- lift_res (getitem_name d) ;;
      override <-
        (if PyVal.hashable name
         then ret (default ∅ (pydict_get name by_name))
         else raise PyVal.unhashable) ;;
      create_dependency W d override ;;;
      create_each by_name rest
  end.

(** [read_json_dependencies] *)
Definition read_json_dependencies
    (dependencies overrides : list (gmap string value))
    (env : gmap string value) : M (Sys W) DependencyCollection :=
  fun sys =>
    let '(r, (collection, sys')) :=
      (by_name <- lift_res (overrides_by_name overrides []) ;;
       create_each by_name dependencies) (new_collection env, sys) in
    (match r with
     | Ok _ => Ok collection
     | Raise e => Raise e
     | OutOfFuel => OutOfFuel
     end, sys').

End ReadJson.

(** ** clean_directories

    [FS] is the state of the file system; [os.path.isdir], [os.rename]
    and [shutil.rmtree] are the calls the function makes into it.  Every
    [os.rename] and [shutil.rmtree] call is recorded, in order, with the
    exception it raised, if any. *)

Inductive syscall : Type :=
  | CallRename (src dst : string) (err : option exn)
  | CallRmtree (path : string) (err : option exn).

Definition error_of {A} (o : outcome A) : option exn :=
  match o with
  | Returns _ => None
  | Raises e => Some e
  end.

Section Cleaner.
Local Open Scope py_scope.

Variable FS : Type.
Variable os_path_isdir : string -> FS -> bool.
Variable os_rename : string -> string -> FS -> outcome unit * FS.
Variable shutil_rmtree : string -> FS -> outcome unit * FS.

Record Disk : Type := mk_disk { fs : FS; calls : list syscall }.

(** The local variables of [clean_directories] that its handlers read. *)
Record Locals : Type := mk_locals {
  moved : list (string * string);
  lastdirectory : option string
}.

Abbreviation Clean := (M (Locals * Disk)).

Definition rename (src dst : string) : Clean unit :=
  fun st =>
    let '(r, fs') := os_rename src dst (fs (snd st)) in
    (res_of_outcome r,
     (fst st,
      {| fs := fs';
         calls := calls (snd st) ++ [CallRename src dst (error_of r)] |})).

Definition rmtree (path : string) : Clean unit :=
  fun st =>
    let '(r, fs') := shutil_rmtree path (fs (snd st)) in
    (res_of_outcome r,
     (fst st,
      {| fs := fs';
         calls := calls (snd st) ++ [CallRmtree path (error_of r)] |})).

Definition set_lastdirectory (d : option string) : Clean unit :=
  modify (fun st =>
    ({| moved := moved (fst st); lastdirectory := d |}, snd st)).

Definition moved_append (x : string * string) : Clean unit :=
  modify (fun st =>
    ({| moved := moved (fst st) ++ [x];
        lastdirectory := lastdirectory (fst st) |}, snd st)).

(** [for directory in directories: ...] *)
Fixpoint rename_away (directories : list string) : Clean unit :=
  match directories with
  | [] => ret tt
  | directory :: rest =>
      st <- get ;;
      if negb (os_path_isdir directory (fs (snd st))) then rename_away rest
      else
        let newname := directory ++ ".deleteme" in
        set_lastdirectory (Some directory) ;;;
        rename directory newname ;;;
        set_lastdirectory None ;;;
        moved_append (directory, newname) ;;;
        rename_away rest
  end.

(** [for original, newname in reversed(moved): os.rename(newname, original)];
    the argument is the reversed list. *)
Fixpoint rename_back (l : list (string * string)) : Clean unit :=
  match l with
  | [] => ret tt
  | (original, newname) :: rest =>
      rename newname original ;;; rename_back rest
  end.

(** [for original, newname in moved: shutil.rmtree(newname)] *)
Fixpoint rmtree_all (l : list (string * string)) : Clean unit :=
  match l with
  | [] => ret tt
  | (original, newname) :: rest => rmtree newname ;;; rmtree_all rest
  end.

(** A bare [except:] and [except Exception] catch every exception. *)
Definition try_except_all {S A} (m : M S A) (h : exn -> M S A) : M S A :=
  fun s =>
    match m s with
    | (Raise e, s') => h e s'
    | r => r
    end.

Definition failed_to_remove (directory : string) : exn :=
  mk_exn Exception
    [VStr ("Failed to remove directory '" ++ directory ++
           "'. Try closing applications that might be using it. (E.g. Visual Studio.)")].

(** The second message ends with [str(e)]; the arguments of [e] stand
    for that text. *)
Definition failed_to_remove_any (e : exn) : exn :=
  mk_exn Exception
    (VStr "Failed to remove directory. Try closing applications that might be using it. (E.g. Visual Studio.)\n"
     :: exn_args e).

Definition clean_directories_body (directories : list string) : Clean unit :=
  try_except_all
    (try_except_all (rename_away directories)
       (fun e =>
          st <- get ;;
          rename_back (rev (moved (fst st))) ;;;
          raise e) ;;;
     st <- get ;;
     rmtree_all (moved (fst st)))
    (fun e =>
       st <- get ;;
       match lastdirectory (fst st) with
       | Some d => raise (failed_to_remove d)
       | None => raise (failed_to_remove_any e)
       end).

(** [clean_directories], started on the file system [disk]. *)
Definition clean_directories (directories : list string) (disk : FS)
  : res unit * Disk :=
  let '(r, (_, d)) :=
    clean_directories_body directories
      ({| moved := []; lastdirectory := None |},
       {| fs := disk; calls := [] |}) in
  (r, d).

End Cleaner.

Arguments mk_disk {FS} fs calls.
Arguments fs {FS} d.
Arguments calls {FS} d.

(** ** fetch_dependencies: the platform and the directories to clean

    The first part of [fetch_dependencies], up to the call of
    [clean_directories].  [env] is the dictionary of the caller, which
    the function writes to; [default_platform] is imported from another
    module; the variable of this name stands for what it returns. *)

Definition no_platform : exn :=
  mk_exn Exception [VStr "Platform not specified and unable to guess."].

Section FetchDependencies.
Local Open Scope py_scope.

Variable default_platform : value.

(** From [if platform is not None] to the [raise]; returns [platform]. *)
Definition fetch_dependencies_platform (platform : value)
  : M (gmap string value) value :=
  (match platform with
   | VNone => ret tt
   | _ => modify <["platform" := platform]>
   end) ;;;
  env <- get ;;
  platform <-
    match env !! "platform" with
    | None => modify <["platform" := default_platform]> ;;; ret default_platform
    | Some _ => ret platform
    end ;;
  match platform with
  | VNone => raise no_platform
  | _ => ret platform
  end.

(** ['dependencies/' + platform] raises [TypeError] unless [platform]
    is a string. *)
Definition clean_dirs (fetch nuget : bool) (platform : value)
  : res (list string) :=
  match
    (if fetch then
       match platform with
       | VStr p => Ok ["dependencies/AnyPlatform"; "dependencies/" ++ p]
       | _ => Raise (mk_exn TypeError
                       [VStr "cannot concatenate 'str' and another object"])
       end
     else Ok [])
  with
  | Ok dirs => Ok (dirs ++ (if nuget then ["dependencies/nuget"] else []))%list
  | e => e
  end.

Variable FS : Type.
Variable os_path_isdir : string -> FS -> bool.
Variable os_rename : string -> string -> FS -> outcome unit * FS.
Variable shutil_rmtree : string -> FS -> outcome unit * FS.

(** [fetch_dependencies] up to and including [clean_directories]: the
    platform it goes on with, the dictionary [env] and the file
    system with the calls made. *)
Definition fetch_dependencies_clean (platform : value)
    (env : option (gmap string value))
    (fetch nuget clean list_details : bool) (disk : FS)
  : res value * (gmap string value * Disk FS) :=
  let untouched := {| fs := disk; calls := [] |} in
  match fetch_dependencies_platform platform (default ∅ env) with
  | (Ok platform, env) =>
      if clean && negb list_details then
        match clean_dirs fetch nuget platform with
        | Ok dirs =>
            match clean_directories FS os_path_isdir os_rename shutil_rmtree
                    dirs disk with
            | (Ok _, d) => (Ok platform, (env, d))
            | (Raise e, d) => (Raise e, (env, d))
            | (OutOfFuel, d) => (OutOfFuel, (env, d))
            end
        | Raise e => (Raise e, (env, untouched))
        | OutOfFuel => (OutOfFuel, (env, untouched))
        end
      else (Ok platform, (env, untouched))
  | (Raise e, env) => (Raise e, (env, untouched))
  | (OutOfFuel, env) => (OutOfFuel, (env, untouched))
  end.

End FetchDependencies.

(** * Specification vocabulary

    The predicates, the auxiliary functions and the sample data that the
    statements below are written with. *)

(** ** Invariants of stateful computations *)

(** [keeps I c]: the computation [c] takes a state in which [I] holds to
    a state in which [I] holds, whether it returns or raises. *)
Definition keeps {S : Type} (I : S -> Prop) {A} (c : M S A) : Prop :=
  forall s r s', I s -> c s = (r, s') -> I s'.

(** [sound E base c]: started on an expander over the environment [E]
    whose in-progress set includes [base], the computation [c] does
    not run out of fuel, leaves the environment alone and never
    shrinks the in-progress set. *)
Definition sound (E : gmap string value) (base : gset string) {A}
    (c : M EnvironmentExpander A) : Prop :=
  forall self r self',
    env_dict self = E -> base ⊆ expandset self -> c self = (r, self') ->
    r <> OutOfFuel /\ env_dict self' = E /\ expandset self ⊆ expandset self'.

(** ** The expander *)

(** One call of [expand] on a key that is neither cached nor in
    progress: [enter] before [_expand], [leave] after it. *)

Definition enter (key : string) (self : EnvironmentExpander) : EnvironmentExpander :=
  {| env_dict := env_dict self; cache := cache self;
     expandset := {[key]} ∪ expandset self |}.

Definition leave (key : string) (r : res value * EnvironmentExpander)
  : res value * EnvironmentExpander :=
  match r with
  | (Ok result, self) =>
      if decide (key ∈ expandset self)
      then (Ok result,
            {| env_dict := env_dict self; cache := <[key := result]> (cache self);
               expandset := expandset self ∖ {[key]} |})
      else (Raise (mk_exn KeyError [VStr key]),
            {| env_dict := env_dict self; cache := <[key := result]> (cache self);
               expandset := expandset self |})
  | other => other
  end.

(** A key that is being expanded has no cached value. *)
Definition cache_inv (self : EnvironmentExpander) : Prop :=
  forall k, k ∈ expandset self -> cache self !! k = None.

(** What a conditional expression evaluates to, in a template of kind
    [kind] and with [rec] for the lookup of a key: the lookup of the
    stripped condition decides between the lookups of the stripped
    primary and of the stripped alternative; an error of the lookup of
    the condition counts as a false condition when it is a [KeyError],
    and is raised otherwise. *)
Definition conditional_result (kind : PyStr.kind)
    (rec : string -> M EnvironmentExpander value)
    (condition primary alternative : string) (self : EnvironmentExpander)
  : res value * EnvironmentExpander :=
  match rec (PyStr.strip_as kind condition) self with
  | (Ok v, self1) =>
      if is_trueish v then rec (PyStr.strip_as kind primary) self1
      else rec (PyStr.strip_as kind alternative) self1
  | (Raise e, self1) =>
      if exn_class_eqb (exn_cls e) KeyError
      then rec (PyStr.strip_as kind alternative) self1
      else (Raise e, self1)
  | (OutOfFuel, self1) => (OutOfFuel, self1)
  end.

(** The value [1.0], and a template with the separator 0x1f, which
    [unicode.strip()] removes and [str.strip()] keeps. *)
Definition one_float : value := VFloat 1.

Definition unit_separator : string := String (ascii_of_nat 31) EmptyString.

(** The error of calling the method that the class does not have. *)
Definition no_expandvalue : exn :=
  mk_exn AttributeError
    [VStr "'EnvironmentExpander' object has no attribute 'expandvalue'"].

Definition truthy_strings : list string := ["1"; "YES"; "Y"; "TRUE"; "ON"].

Definition is_ok {A} (r : res A) : bool :=
  match r with
  | Ok _ => true
  | _ => false
  end.

(** The states an expander over [E] can be in between two calls of
    [expand] from outside. *)
Inductive reachable (E : gmap string value) : EnvironmentExpander -> Prop :=
  | reachable_new : reachable E (new_expander E)
  | reachable_expand self key :
      reachable E self -> reachable E (snd (expander_expand key self)).

(** Neither key of a cycle between [x] and [y] has a cached value. *)
Definition uncached (E : gmap string value) (x y : string)
    (self : EnvironmentExpander) : Prop :=
  env_dict self = E /\ cache self !! x = None /\ cache self !! y = None.

Definition cycle_error (x y : string) (r : res value) : Prop :=
  r = Raise (recursive_expansion x) \/ r = Raise (recursive_expansion y).

(** The [name] of the environment is a string, and so is its cached
    expansion, if any. *)
Definition name_inv (self : EnvironmentExpander) : Prop :=
  (exists s, env_dict self !! "name" = Some (VStr s)) /\
  (forall v, cache self !! "name" = Some v -> exists s, v = VStr s).

(** ** Building a dependency *)

(** The defaults a definition inherits: those of its [type], if it has
    one. *)
Definition type_layer (types : gmap string (gmap string value))
    (defn : gmap string value) : res (gmap string value) :=
  match defn !! "type" with
  | Some dep_type => types_getitem types dep_type
  | None => Ok ∅
  end.

(** The first layer, from the strongest to the weakest, that has the key. *)
Definition layered_lookup (k : string)
    (overrides defn defaults base : gmap string value) : option value :=
  match overrides !! k with
  | Some v => Some v
  | None =>
      match defn !! k with
      | Some v => Some v
      | None =>
          match defaults !! k with
          | Some v => Some v
          | None => base !! k
          end
      end
  end.

Definition is_ignored (env : gmap string value) : bool :=
  match env !! "ignore" with
  | Some v => PyVal.truthy v
  | None => false
  end.

Definition store (name : value) (d : Dependency) (coll : DependencyCollection)
  : DependencyCollection :=
  {| base_env := base_env coll; dependency_types := dependency_types coll;
     dependencies := deps_set name d (dependencies coll) |}.

(** Every record stored under a string has such a name. *)
Definition stored_ok (coll : DependencyCollection) : Prop :=
  Forall (fun kd => forall n, fst kd = VStr n -> name_inv (expander (snd kd)))
    (dependencies coll).

(** ** fetch, checkout and batches *)

Definition log_append {W} (sys : Sys W) (fmt : string) (args : list value)
  : Sys W :=
  {| logfile := logfile sys ++ [(fmt, args)]; world := world sys |}.

Definition with_expander (d : Dependency) (e : EnvironmentExpander) : Dependency :=
  {| expander := e; has_overrides := has_overrides d |}.

Definition after (key : string) (e : EnvironmentExpander) : EnvironmentExpander :=
  snd (expander_expand key e).

(** The record a method runs on has a string as [name]; the collection
    a batch runs on has such records. *)
Definition dep_named {W} (st : Dependency * Sys W) : Prop :=
  name_inv (expander (fst st)).

Definition coll_ok {W} (st : DependencyCollection * Sys W) : Prop :=
  stored_ok (fst st).

(** [finishes m]: the computation [m] never runs out of fuel. *)
Definition finishes {S A} (m : M S A) : Prop :=
  forall s, fst (m s) <> OutOfFuel.

(** [ran op names st rs stop st']: the batch over [names] from the
    state [st].  The entries are taken in the order of [names]; for
    each, [op] is applied to the record stored under the name and to
    the system, and the record is stored again as [op] left it.  When
    [op] returns [True] the batch goes on with the next entry.  When
    [op] returns [False] the name of the record is looked up in its
    expander and the batch goes on as well.  When [op] raises, or
    when that lookup of the name does, the batch ends there and the
    entries that follow are not run.  [rs] lists the entries that were
    run to the end, each with the name it is listed under (when it
    returned [True]) or the name that was looked up (when it returned
    [False]) and with what it returned; [stop] is the exception that
    ended the batch, if any; [st'] is the state at the end. *)
Inductive ran {W} (op : M (Dependency * Sys W) bool)
  : list string -> DependencyCollection * Sys W -> list (string * bool)
    -> option exn -> DependencyCollection * Sys W -> Prop :=
  | ran_end st : ran op [] st [] None st
  | ran_true n names coll sys d d' sys' rs stop st' :
      deps_get (VStr n) (dependencies coll) = Some d ->
      op (d, sys) = (Ok true, (d', sys')) ->
      ran op names (store (VStr n) d' coll, sys') rs stop st' ->
      ran op (n :: names) (coll, sys) ((n, true) :: rs) stop st'
  | ran_false n names coll sys d d' sys' name e' rs stop st' :
      deps_get (VStr n) (dependencies coll) = Some d ->
      op (d, sys) = (Ok false, (d', sys')) ->
      expander_expand "name" (expander d') = (Ok (VStr name), e') ->
      ran op names (store (VStr n) (with_expander d' e') coll, sys')
        rs stop st' ->
      ran op (n :: names) (coll, sys) ((name, false) :: rs) stop st'
  | ran_raised n names coll sys d d' sys' e :
      deps_get (VStr n) (dependencies coll) = Some d ->
      op (d, sys) = (Raise e, (d', sys')) ->
      ran op (n :: names) (coll, sys) [] (Some e)
        (store (VStr n) d' coll, sys')
  | ran_name_raised n names coll sys d d' sys' e e' :
      deps_get (VStr n) (dependencies coll) = Some d ->
      op (d, sys) = (Ok false, (d', sys')) ->
      expander_expand "name" (expander d') = (Raise e, e') ->
      ran op (n :: names) (coll, sys) [] (Some e)
        (store (VStr n) (with_expander d' e') coll, sys').

(** The names of the entries that returned [False], in order. *)
Fixpoint failed_entries (rs : list (string * bool)) : list string :=
  match rs with
  | [] => []
  | (name, ok) :: rest =>
      if ok then failed_entries rest else name :: failed_entries rest
  end.

(** What a batch returns or raises after the run [rs], [stop], [st']:
    the exception that ended the run, if any; otherwise [True] when no
    entry returned [False], and otherwise [False] after one line of the
    log with the names of the entries that returned [False]. *)
Definition batch_result {W} (message : string) (rs : list (string * bool))
    (stop : option exn) (st' : DependencyCollection * Sys W)
  : res bool * (DependencyCollection * Sys W) :=
  match stop with
  | Some e => (Raise e, st')
  | None =>
      match failed_entries rs with
      | [] => (Ok true, st')
      | names =>
          (Ok false,
           (fst st',
            log_append (snd st')
              (message ++ PyStr.join " " names ++ "\n") []))
      end
  end.

(** ** clean_directories *)

Definition fwd_call (p : string * string) : syscall :=
  CallRename (fst p) (snd p) None.

Definition back_call (p : string * string) : syscall :=
  CallRename (snd p) (fst p) None.

Definition well_named (directories : list string) (p : string * string) : Prop :=
  In (fst p) directories /\ snd p = (fst p ++ ".deleteme")%string.

(** [renamed os_rename s l s']: the renames of [l], in order, succeed
    from the file system [s] and lead to [s']. *)
Inductive renamed {FS : Type}
    (os_rename : string -> string -> FS -> outcome unit * FS)
  : FS -> list (string * string) -> FS -> Prop :=
  | renamed_nil s : renamed os_rename s [] s
  | renamed_cons s a b s1 l s2 :
      os_rename a b s = (Returns tt, s1) -> renamed os_rename s1 l s2 ->
      renamed os_rename s ((a, b) :: l) s2.

(** A file system to run [clean_directories] on: directories by path,
    each with its contents and a flag telling whether another process
    holds it open.  A directory that is held open cannot be renamed or
    removed, and nothing can be renamed onto an existing path. *)
Module FlatFS.

Record dir : Type := mk_dir { contents : list string; in_use : bool }.

Abbreviation t := (gmap string dir).

Definition os_error (errno : Z) (path : string) : exn :=
  mk_exn OSError [VInt errno; VStr path].

Definition isdir (path : string) (s : t) : bool :=
  match s !! path with
  | Some _ => true
  | None => false
  end.

Definition rename (src dst : string) (s : t) : outcome unit * t :=
  match s !! src with
  | None => (Raises (os_error 2 src), s)
  | Some d =>
      if in_use d then (Raises (os_error 13 src), s)
      else match s !! dst with
           | Some _ => (Raises (os_error 17 dst), s)
           | None => (Returns tt, <[dst := d]> (delete src s))
           end
  end.

Definition rmtree (path : string) (s : t) : outcome unit * t :=
  match s !! path with
  | None => (Raises (os_error 2 path), s)
  | Some d =>
      if in_use d then (Raises (os_error 13 path), s)
      else (Returns tt, delete path s)
  end.

End FlatFS.

(** The same file system with a watcher (an indexer, a virus scanner)
    that opens every directory that appears under a new name: a rename
    succeeds as before and leaves the directory held open under its new
    name. *)
Module WatchedFS.

Definition hold (path : string) (s : FlatFS.t) : FlatFS.t :=
  match s !! path with
  | Some d => <[path := FlatFS.mk_dir (FlatFS.contents d) true]> s
  | None => s
  end.

Definition rename (src dst : string) (s : FlatFS.t)
  : outcome unit * FlatFS.t :=
  match FlatFS.rename src dst s with
  | (Returns _, s') => (Returns tt, hold dst s')
  | other => other
  end.

End WatchedFS.

(** ** A scripted outside world

    The world is the list of the effects that happened; a script says
    which remote files can be opened, what [os.makedirs] does, which
    paths exist and which [git] commands fail. *)

Inductive event : Type :=
  | Made (path : string)
  | Extracted (a : archive) (path : string)
  | Ran (args : list value) (cwd : string)
  | Closed (contents : string).

Record script : Type := mk_script {
  remote_files : list (string * string);
  makedirs_error : option exn;
  present : list (string * bool);
  git_status : list value -> Z
}.

Fixpoint assoc {A} (k : string) (l : list (string * A)) : option A :=
  match l with
  | [] => None
  | (k', v) :: r => if String.eqb k' k then Some v else assoc k r
  end.

Definition scripted (sc : script) : External (list event) string :=
  {| os_path_abspath := fun p => ("/work/" ++ p)%string;
     call_opener := fun _ p w =>
       match assoc p (remote_files sc) with
       | Some contents => (Returns contents, w)
       | None => (Raises (mk_exn IOError [VInt 2; VStr p]), w)
       end;
     file_read := fun f w => (Returns f, w);
     decode_archive := fun k _ contents =>
       Returns {| ar_kind := k;
                  ar_entries := if String.eqb contents EmptyString then []
                                else [(contents, "data")] |};
     os_makedirs := fun p w =>
       match makedirs_error sc with
       | Some e => (Raises e, w)
       | None => (Returns tt, (w ++ [Made p])%list)
       end;
     extractall := fun a p w => (Returns tt, (w ++ [Extracted a p])%list);
     file_close := fun f w => (w ++ [Closed f])%list;
     os_path_exists := fun p _ =>
       match assoc p (present sc) with
       | Some _ => true
       | None => false
       end;
     os_path_isdir := fun p _ => default false (assoc p (present sc));
     subprocess_call := fun args cwd w =>
       (Returns (git_status sc args), (w ++ [Ran args cwd])%list) |}.

(** ** Sample data *)

Definition cycle_env : gmap string value :=
  list_to_map [("a", VStr "${b}"); ("b", VStr "${a}"); ("c", VStr "plain")].

Definition flag_env : gmap string value :=
  list_to_map [("flag", VStr "on"); ("yes", VStr "Y"); ("no", VStr "N")].

Definition quiet : Sys unit := {| logfile := []; world := tt |}.

Definition nothing_happened : Sys (list event) := {| logfile := []; world := [] |}.

Definition linux_env : gmap string value :=
  list_to_map [("platform", VStr "Linux-x64")].

Definition defn_A : gmap string value :=
  list_to_map [("name", VStr "A"); ("type", VStr "external");
               ("archive-filename", VStr "a.zip")].

Definition override_A : gmap string value :=
  list_to_map [("name", VStr "A"); ("archive-filename", VStr "a2.zip")].

Definition external_defaults : gmap string value :=
  default ∅ (DEPENDENCY_TYPES !! "external").

Definition defn_list_type : gmap string value :=
  list_to_map [("name", VStr "A"); ("type", VList [VStr "external"])].

Definition env_A : gmap string value :=
  dict_update (dict_update (dict_update (dict_update ∅ linux_env)
    external_defaults) defn_A) override_A.

Definition dep_A : Dependency := new_dependency (VStr "A") env_A true.

Definition path_A : string :=
  "http://openhome.org/releases/artifacts/Linux-x64/a2.zip".

Definition defn_B : gmap string value :=
  list_to_map [("name", VStr "B"); ("type", VStr "external");
               ("archive-filename", VStr "b.tar.gz")].

Definition path_B : string :=
  "http://openhome.org/releases/artifacts/Linux-x64/b.tar.gz".

(** The collection of A (overridden) and B, as [read_json_dependencies]
    builds it. *)
Definition coll_AB : DependencyCollection :=
  match
    bind (create_dependency unit defn_A override_A)
      (fun _ => create_dependency unit defn_B ∅)
      (new_collection linux_env, quiet)
  with
  | (_, (coll, _)) => coll
  end.

(** A definition of type [external] that lacks [archive-filename], as
    a dependencies file can have it, and the collection of C and B. *)
Definition defn_C : gmap string value :=
  list_to_map [("name", VStr "C"); ("type", VStr "external")].

Definition coll_CB : DependencyCollection :=
  match
    bind (create_dependency unit defn_C ∅)
      (fun _ => create_dependency unit defn_B ∅)
      (new_collection linux_env, quiet)
  with
  | (_, (coll, _)) => coll
  end.

(** A definition without [type] and without [source-git]. *)
Definition dep_bare : Dependency :=
  new_dependency (VStr "B") (list_to_map [("name", VStr "B")]) false.

(** Nothing can be fetched. *)
Definition offline : script :=
  {| remote_files := []; makedirs_error := None; present := [];
     git_status := fun _ => 0 |}.

(** The archive of A is there and has no entry, and [os.makedirs] is
    refused. *)
Definition permission_denied : exn :=
  mk_exn OSError [VInt 13; VStr "Permission denied"].

Definition read_only : script :=
  {| remote_files := [(path_A, "")];
     makedirs_error := Some permission_denied; present := [];
     git_status := fun _ => 0 |}.

(** Only the archive of B can be fetched. *)
Definition only_B : script :=
  {| remote_files := [(path_B, "root/f1")]; makedirs_error := None;
     present := []; git_status := fun _ => 0 |}.

Definition disk_xy : FlatFS.t :=
  list_to_map [("x", FlatFS.mk_dir ["f1"; "f2"] false);
               ("y", FlatFS.mk_dir ["g.dll"] true)].

Definition disk_wxy : FlatFS.t :=
  list_to_map [("w", FlatFS.mk_dir ["e1"] false);
               ("x", FlatFS.mk_dir ["f1"; "f2"] false);
               ("y", FlatFS.mk_dir ["g.dll"] true)].

(** ** Further vocabulary of the expander *)

(** [lookups s s']: some sequence of calls of [expand] from outside,
    whatever they return, takes the expander from [s] to [s']. *)
Inductive lookups : EnvironmentExpander -> EnvironmentExpander -> Prop :=
  | lookups_refl s : lookups s s
  | lookups_step s key s' :
      lookups (snd (expander_expand key s)) s' -> lookups s s'.

(** [shape v c]: [c] can be the expansion of the raw value [v].  A
    string expands to a string, and to itself when it has no dollar
    sign; a list expands to a list of the same length, element by
    element; [None], booleans and numbers expand to themselves; of the
    dictionaries only the empty one expands at all. *)
Fixpoint shape (v c : value) {struct v} : Prop :=
  match v, c with
  | VStr s, VStr r => PyStr.contains "$" s = false -> r = s
  | VList l, VList l' =>
      (fix each (l l' : list value) : Prop :=
         match l, l' with
         | [], [] => True
         | x :: xs, y :: ys => shape x y /\ each xs ys
         | _, _ => False
         end) l l'
  | VDict [], VDict [] => True
  | VNone, VNone => True
  | VBool a, VBool b => a = b
  | VInt a, VInt b => a = b
  | VFloat a, VFloat b => a = b
  | _, _ => False
  end.

(** Every cached value is the expansion of a value of the environment. *)
Definition cache_shaped (self : EnvironmentExpander) : Prop :=
  forall k c, cache self !! k = Some c ->
    exists v, env_dict self !! k = Some v /\ shape v c.

(** The characters of a string, each as a piece of text. *)
Fixpoint text_pieces (s : string) : list value :=
  match s with
  | EmptyString => []
  | String c r => VStr (String c EmptyString) :: text_pieces r
  end.

Fixpoint text_tokens (s : string) : list token :=
  match s with
  | EmptyString => []
  | String c r => TLit c :: text_tokens r
  end.

(** The list branch of [_expandvalue]:
    [[self._expandvalue(x) for x in value]]. *)
Fixpoint expand_each (rec : string -> M EnvironmentExpander value)
    (l : list value) : M EnvironmentExpander (list value) :=
  match l with
  | [] => ret []
  | x :: l' =>
      bind (_expandvalue rec x) (fun y =>
      bind (expand_each rec l') (fun ys => ret (y :: ys)))
  end.

(** A value that [_expandvalue] has nothing to do on: no string in it
    has a dollar sign and no mapping in it has an item. *)
Fixpoint is_literal (v : value) : bool :=
  match v with
  | VStr s => negb (PyStr.contains "$" s)
  | VList l => forallb is_literal l
  | VDict [] => true
  | VDict (_ :: _) => false
  | VNone | VBool _ | VInt _ | VFloat _ => true
  end.

(** The state of an expander over [E] between and during lookups: the
    environment is [E], every cached value is the expansion of a value
    of [E], and a key that is in progress (or was left in the
    in-progress set by a lookup that raised) has a value that is not a
    literal. *)
Definition consistent (E : gmap string value) (self : EnvironmentExpander) : Prop :=
  env_dict self = E /\ cache_shaped self /\
  forall k v, k ∈ expandset self -> E !! k = Some v -> is_literal v = false.

(** The state after a lookup of [key] that returned [v]. *)
Definition remember (key : string) (v : value) (self : EnvironmentExpander)
  : EnvironmentExpander :=
  {| env_dict := env_dict self; cache := <[key := v]> (cache self);
     expandset := expandset self |}.

(** ** Paths and archives *)

(** The text before the first colon of a path, if it has a colon. *)
Definition scheme_of (path : string) : option string :=
  match PyStr.split1 ":" path with
  | Some (w, _) => Some w
  | None => None
  end.

(** Letters and underscores only. *)
Fixpoint is_alpha_word (s : string) : bool :=
  match s with
  | EmptyString => true
  | String c r => PyStr.is_word_start c && is_alpha_word r
  end.

(** The opener by the scheme of the path: [file] and [smb] are read by
    [open_file_url], any other word of two to eight letters by
    [urlopen], and everything else is a local file name. *)
Definition opener_of_scheme (scheme : option string) : opener :=
  match scheme with
  | None => open_rb
  | Some w =>
      if String.eqb w "file" || String.eqb w "smb" then open_file_url
      else if is_alpha_word w && (2 <=? String.length w)%nat
              && (String.length w <=? 8)%nat then urlopen
      else open_rb
  end.

(** The member name [rest] under the leading directories [dirs]. *)
Definition under (dirs : list string) (rest : string) : string :=
  fold_right (fun d acc => d ++ "/" ++ acc)%string rest dirs.

(** A member of an archive: the leading directories of its name, the
    rest of its name and its content. *)
Definition member : Type := list string * string * string.

Definition packed (m : member) : string * string :=
  (under (fst (fst m)) (snd (fst m)), snd m).

Definition stripped (m : member) : string * string :=
  (snd (fst m), snd m).

(** [n] leading directories, none with a slash in its name. *)
Definition has_dirs (n : nat) (m : member) : Prop :=
  List.length (fst (fst m)) = n /\
  Forall (fun d => PyStr.contains "/" d = false) (fst (fst m)).

(** ** The outcomes of clean_directories *)

Definition removed (p : string * string) : syscall := CallRmtree (snd p) None.

(** A loop over [l] that makes the call [ok p] for every pair it gets
    through and stops at the first pair [p] whose call raises, recorded
    as [failed p e]: the calls [cs] it made, and what it returned. *)
Definition loop_calls (ok : string * string -> syscall)
    (failed : string * string -> exn -> syscall)
    (l : list (string * string)) (r : res unit) (cs : list syscall) : Prop :=
  (r = Ok tt /\ cs = map ok l) \/
  (exists gone p rest e,
     l = (gone ++ p :: rest)%list /\ r = Raise e /\
     cs = (map ok gone ++ [failed p e])%list).

(** What [clean_directories] returned and the calls it made, in terms
    of the pairs [new] of the directories it renamed away. *)
Definition clean_outcome (directories : list string) (r : res unit)
    (cs : list syscall) : Prop :=
  exists new, Forall (well_named directories) new /\
    ((** every directory that was renamed away has been removed *)
     (r = Ok tt /\ cs = (map fwd_call new ++ map removed new)%list) \/
     (** a removal raised: nothing is renamed back *)
     (exists gone p rest e,
        new = (gone ++ p :: rest)%list /\
        r = Raise (failed_to_remove_any e) /\
        cs = (map fwd_call new ++ map removed gone
              ++ [CallRmtree (snd p) (Some e)])%list) \/
     (** a rename raised: the earlier renames are undone, as far as
         the renames back succeed *)
     (exists d e r' back,
        In d directories /\ r = Raise (failed_to_remove d) /\
        loop_calls back_call (fun p e' => CallRename (snd p) (fst p) (Some e'))
          (rev new) r' back /\
        cs = (map fwd_call new
              ++ [CallRename d (d ++ ".deleteme")%string (Some e)]
              ++ back)%list)).

(** A call that concerns one of [dirs]: a rename between a listed
    directory and its [.deleteme] name, in either direction, or the
    removal of such a [.deleteme] name. *)
Definition call_within (dirs : list string) (c : syscall) : Prop :=
  exists a, In a dirs /\
    match c with
    | CallRename x y _ =>
        (x = a /\ y = (a ++ ".deleteme")%string) \/
        (x = (a ++ ".deleteme")%string /\ y = a)
    | CallRmtree p _ => p = (a ++ ".deleteme")%string
    end.

(** ** The runs of clean_directories

    What the three loops of [clean_directories] do on a file system,
    one call after the other. *)

Section CleanRuns.
Variable FS : Type.
Variable os_path_isdir : string -> FS -> bool.
Variable os_rename : string -> string -> FS -> outcome unit * FS.
Variable shutil_rmtree : string -> FS -> outcome unit * FS.

(** [renames_away s directories new stop s']: going through
    [directories] in order from the file system [s], a path that is not
    a directory when its turn comes is passed over and every other one
    is renamed to its [.deleteme] name, up to the first rename that
    raises.  [new] lists the renames that succeeded, in order; [stop]
    is [None] when the end of the list was reached, and the directory
    and the exception of the rename that raised otherwise; [s'] is the
    file system at the end. *)
Inductive renames_away
  : FS -> list string -> list (string * string) -> option (string * exn)
    -> FS -> Prop :=
  | away_end s : renames_away s [] [] None s
  | away_skip s d rest new stop s' :
      os_path_isdir d s = false ->
      renames_away s rest new stop s' ->
      renames_away s (d :: rest) new stop s'
  | away_step s d rest s1 new stop s' :
      os_path_isdir d s = true ->
      os_rename d (d ++ ".deleteme") s = (Returns tt, s1) ->
      renames_away s1 rest new stop s' ->
      renames_away s (d :: rest) ((d, (d ++ ".deleteme")%string) :: new) stop s'
  | away_stop s d rest e s1 :
      os_path_isdir d s = true ->
      os_rename d (d ++ ".deleteme") s = (Raises e, s1) ->
      renames_away s (d :: rest) [] (Some (d, e)) s1.

(** [in_turn call s l gone stop s']: the calls [call p] for the pairs
    [p] of [l], in order from the file system [s], up to the first one
    that raises.  [gone] lists the pairs whose call returned; [stop] is
    [None] when the end of the list was reached, and the pair and the
    exception of the call that raised otherwise. *)
Inductive in_turn (call : string * string -> FS -> outcome unit * FS)
  : FS -> list (string * string) -> list (string * string)
    -> option ((string * string) * exn) -> FS -> Prop :=
  | turn_end s : in_turn call s [] [] None s
  | turn_step s p rest s1 gone stop s' :
      call p s = (Returns tt, s1) ->
      in_turn call s1 rest gone stop s' ->
      in_turn call s (p :: rest) (p :: gone) stop s'
  | turn_stop s p rest e s1 :
      call p s = (Raises e, s1) ->
      in_turn call s (p :: rest) [] (Some (p, e)) s1.

(** The rename that undoes the rename [p], and the removal of what [p]
    renamed away. *)
Definition rename_back_of (p : string * string) : FS -> outcome unit * FS :=
  os_rename (snd p) (fst p).

Definition remove_of (p : string * string) : FS -> outcome unit * FS :=
  shutil_rmtree (snd p).

(** The record of the call that raised, if one did. *)
Definition failed_rename (stop : option (string * exn)) : list syscall :=
  match stop with
  | None => []
  | Some (d, e) => [CallRename d (d ++ ".deleteme") (Some e)]
  end.

Definition failed_back (stop : option ((string * string) * exn))
  : list syscall :=
  match stop with
  | None => []
  | Some (p, e) => [CallRename (snd p) (fst p) (Some e)]
  end.

Definition failed_removal (stop : option ((string * string) * exn))
  : list syscall :=
  match stop with
  | None => []
  | Some (p, e) => [CallRmtree (snd p) (Some e)]
  end.

(** [clean_run directories disk result]: what [clean_directories]
    returns or raises on [directories] from the file system [disk], the
    file system it leaves and the calls it has made.  Either every
    rename and then every removal went through; or every rename went
    through and a removal raised, after which nothing more is called;
    or a rename raised, after which the renames that had succeeded are
    undone in reverse order up to the first rename back that raises. *)
Inductive clean_run (directories : list string) (disk : FS)
  : res unit * Disk FS -> Prop :=
  | run_removed new s1 s2 :
      renames_away disk directories new None s1 ->
      in_turn remove_of s1 new new None s2 ->
      clean_run directories disk
        (Ok tt,
         {| fs := s2; calls := map fwd_call new ++ map removed new |})
  | run_removal_failed new s1 gone p e s2 :
      renames_away disk directories new None s1 ->
      in_turn remove_of s1 new gone (Some (p, e)) s2 ->
      clean_run directories disk
        (Raise (failed_to_remove_any e),
         {| fs := s2;
            calls := map fwd_call new ++ map removed gone
                     ++ [CallRmtree (snd p) (Some e)] |})
  | run_rolled_back new d e s1 back stop s2 :
      renames_away disk directories new (Some (d, e)) s1 ->
      in_turn rename_back_of s1 (rev new) back stop s2 ->
      clean_run directories disk
        (Raise (failed_to_remove d),
         {| fs := s2;
            calls := map fwd_call new
                     ++ [CallRename d (d ++ ".deleteme") (Some e)]
                     ++ map back_call back ++ failed_back stop |}).

(** What is asked of a file system for a rollback to restore it: a
    rename that raises changes nothing, and a rename that returned is
    undone by the opposite rename. *)
Definition renames_reversible : Prop :=
  (forall a b s e s', os_rename a b s = (Raises e, s') -> s' = s) /\
  (forall a b s s',
     os_rename a b s = (Returns tt, s') -> os_rename b a s' = (Returns tt, s)).

End CleanRuns.

(** ** What the operations leave alone *)

(** [same_record d d']: [d'] is the record [d] after some lookups; it
    has the same environment and the same override flag, and every
    value that was cached still is. *)
Definition same_record (d d' : Dependency) : Prop :=
  env_dict (expander d') = env_dict (expander d) /\
  has_overrides d' = has_overrides d /\
  cache (expander d) ⊆ cache (expander d').

(** [same_collection c c']: the same base environment, the same table
    of types and the same records under the same names, in the same
    order. *)
Definition same_collection (c c' : DependencyCollection) : Prop :=
  base_env c' = base_env c /\
  dependency_types c' = dependency_types c /\
  Forall2 (fun kd kd' => fst kd' = fst kd /\ same_record (snd kd) (snd kd'))
    (dependencies c) (dependencies c').

(** The names of [subset] that are not stored in [deps], each as often
    as [subset] has it and in the order of [subset]. *)
Fixpoint unknown_names (deps : list (value * Dependency))
    (subset : list string) : list string :=
  match subset with
  | [] => []
  | name :: rest =>
      match deps_get (VStr name) deps with
      | None => name :: unknown_names deps rest
      | Some _ => unknown_names deps rest
      end
  end.

(** The error of [_filter] for the names [missing]. *)
Definition no_entries_named (missing : list string) : exn :=
  mk_exn Exception
    [VStr ("No entries in dependency file named: "
           ++ PyStr.join ", " missing ++ ".")].

(** ** The branches of create_dependency *)

(** The environment of a definition: the base environment overwritten
    by the type defaults, the definition and the override, in this
    order. *)
Definition merged (base defaults defn overrides : gmap string value)
  : gmap string value :=
  dict_update (dict_update (dict_update (dict_update ∅ base) defaults) defn)
    overrides.

Definition no_name : exn :=
  mk_exn ValueError [VStr "Dependency definition contains no name"].

(** ** Reading the two files *)

(** A record is marked as overridden exactly when the overrides have an
    entry for the name it is stored under. *)
Definition marked (by_name : list (value * gmap string value))
    (kd : value * Dependency) : Prop :=
  has_overrides (snd kd) = true <-> pydict_get (fst kd) by_name <> None.

(** Every override is indexed under a key equal to its own [name]. *)
Definition named_entries (by_name : list (value * gmap string value)) : Prop :=
  Forall (fun ko => exists n, snd ko !! "name" = Some n /\
                              PyVal.key_eqb (fst ko) n = true) by_name.

Definition has_name (d : gmap string value) : Prop := d !! "name" <> None.

(** ** The start of fetch_dependencies *)

(** The directories that [fetch_dependencies] may clean, given the
    [platform] entry of the environment. *)
Definition cleanable (platform : option value) : list string :=
  match platform with
  | Some (VStr p) =>
      ["dependencies/AnyPlatform"; ("dependencies/" ++ p)%string;
       "dependencies/nuget"]
  | _ => ["dependencies/nuget"]
  end.

(** [extends m m']: whenever [m] ends with a value or an exception,
    [m'] does the same. *)
Definition extends {S A} (m m' : M S A) : Prop :=
  forall s r s', m s = (r, s') -> r <> OutOfFuel -> m' s = (r, s').

(** A name that the [$word] form can hold: a letter or an underscore,
    then letters, digits and underscores. *)
Fixpoint all_word_chars (s : string) : bool :=
  match s with
  | EmptyString => true
  | String c r => PyStr.is_word_char c && all_word_chars r
  end.

Definition is_identifier (s : string) : bool :=
  match s with
  | EmptyString => false
  | String c r => PyStr.is_word_start c && all_word_chars r
  end.

(** The text goes on with a letter, a digit or an underscore. *)
Definition continues_word (s : string) : bool :=
  match s with
  | EmptyString => false
  | String c _ => PyStr.is_word_char c
  end.

(** ** Plain substitution

    What the values of an environment stand for when every reference is
    replaced by what it refers to, without a cache and without an
    in-progress set: [look] is the meaning of the keys, [None] stands
    for no value (an undefined key, a malformed conditional, a mapping
    with items, a piece that is not a string). *)

Section Plain.
Variable look : string -> option value.

Definition plain_conditional (key : string) : option value :=
  if negb (PyStr.contains "?" key) then None else
  match PyStr.split1 "?" key with
  | None => None
  | Some (condition, rest) =>
      if negb (PyStr.contains ":" rest) then None else
      match PyStr.split1 ":" rest with
      | None => None
      | Some (primary, alternative) =>
          match look (PyStr.strip condition) with
          | Some v =>
              if is_trueish v then look (PyStr.strip primary)
              else look (PyStr.strip alternative)
          | None => None
          end
      end
  end.

Definition plain_match (m : regex_match) : option value :=
  match m with
  | MDollar => Some (VStr "$")
  | MWord key | MParens key =>
      let key := PyStr.strip key in
      if PyStr.contains "?" key then plain_conditional key else look key
  end.

Definition plain_token (t : token) : option value :=
  match t with
  | TLit c => Some (VStr (String c EmptyString))
  | TMatch m => plain_match m
  end.

Fixpoint plain_pieces (ts : list token) : option (list value) :=
  match ts with
  | [] => Some []
  | t :: ts' =>
      match plain_token t, plain_pieces ts' with
      | Some p, Some ps => Some (p :: ps)
      | _, _ => None
      end
  end.

Definition plain_template (s : string) : option value :=
  match plain_pieces (tokenize s) with
  | Some ps =>
      match join_pieces ps with
      | Ok r => Some (VStr r)
      | _ => None
      end
  | None => None
  end.

Fixpoint plain_value (v : value) : option value :=
  match v with
  | VStr s => plain_template s
  | VList l =>
      match (fix each (l : list value) : option (list value) :=
               match l with
               | [] => Some []
               | x :: l' =>
                   match plain_value x, each l' with
                   | Some y, Some ys => Some (y :: ys)
                   | _, _ => None
                   end
               end) l with
      | Some xs => Some (VList xs)
      | None => None
      end
  | VDict [] => Some (VDict [])
  | VDict (_ :: _) => None
  | VNone | VBool _ | VInt _ | VFloat _ => Some v
  end.

Fixpoint plain_each (l : list value) : option (list value) :=
  match l with
  | [] => Some []
  | x :: l' =>
      match plain_value x, plain_each l' with
      | Some y, Some ys => Some (y :: ys)
      | _, _ => None
      end
  end.

End Plain.

(** The meaning of a key with references followed at most [n] deep. *)
Fixpoint substitute (n : nat) (E : gmap string value) (key : string)
  : option value :=
  match n with
  | O => None
  | S n =>
      match E !! key with
      | Some v => plain_value (substitute n E) v
      | None => None
      end
  end.

(** An expander during a lookup that follows references at most [n]
    deep: the keys in progress are [X], none of which has a meaning at
    that depth, and the cached value of a key that has a meaning at
    depth [N] is that meaning. *)
Definition in_lookup (E : gmap string value) (N : nat) (X : gset string)
    (n : nat) (self : EnvironmentExpander) : Prop :=
  env_dict self = E /\ expandset self = X /\
  (forall a, a ∈ X -> substitute n E a = None) /\
  forall k c c',
    cache self !! k = Some c -> substitute N E k = Some c' -> c' = c.

(** An expander between two lookups, seen at depth [N]: the keys that
    lookups which raised have left in progress have no meaning at that
    depth. *)
Definition between_lookups (E : gmap string value) (N : nat)
    (self : EnvironmentExpander) : Prop :=
  in_lookup E N (expandset self) N self.

(** A character that is white space for [str] and for [unicode] alike
    or for neither, a string of such characters, and an environment
    whose strings, at any depth of a list, are such strings.  On any
    part of such a string [str.strip()] and [unicode.strip()] return the
    same, so that the references of a template name the same keys
    whichever of the two types the template has. *)
Definition same_space (c : ascii) : bool :=
  Bool.eqb (PyStr.is_uspace c) (PyStr.is_space c).

Fixpoint kind_free (s : string) : bool :=
  match s with
  | EmptyString => true
  | String c r => same_space c && kind_free r
  end.

Fixpoint kind_free_value (v : value) : bool :=
  match v with
  | VStr s => kind_free s
  | VList l => forallb kind_free_value l
  | _ => true
  end.

Definition kind_free_env (E : gmap string value) : bool :=
  forallb (fun kv => kind_free_value (snd kv)) (map_to_list E).

(** [agrees I m o]: when [o] is a value, the computation [m] returns it
    from every state in which [I] holds, and [I] holds afterwards. *)
Definition agrees {A} (I : EnvironmentExpander -> Prop)
    (m : M EnvironmentExpander A) (o : option A) : Prop :=
  forall a, o = Some a ->
    forall s, I s -> exists s', m s = (Ok a, s') /\ I s'.

(** * Properties *)

(** One step of a sequence of two computations. *)
Lemma bind_run {S A B} (m : M S A) (k : A -> M S B) s :
  bind m k s
  = match m s with
    | (Ok a, s') => k a s'
    | (Raise e, s') => (Raise e, s')
    | (OutOfFuel, s') => (OutOfFuel, s')
    end.
Proof. unfold bind. by destruct (m s) as [[a | e | ] s']. Qed.

(** ** Properties of the expander *)

(** Induction on values that reaches the elements of a list. *)
Lemma value_ind_list (P : value -> Prop) :
  P VNone -> (forall b, P (VBool b)) -> (forall n, P (VInt n)) ->
  (forall x, P (VFloat x)) ->
  (forall s, P (VStr s)) -> (forall l, Forall P l -> P (VList l)) ->
  (forall d, P (VDict d)) -> forall v, P v.
Proof.
  intros HN HB HI HF HS HL HD. fix IH 1.
  intros [ | b | n | x | s | l | d];
    [apply HN | apply HB | apply HI | apply HF | apply HS | | apply HD].
  apply HL. revert l. fix IHl 1. intros [ | x l]; constructor.
  - apply IH.
  - apply IHl.
Qed.

Section ExpanderSound.
Local Open Scope py_scope.
Abbreviation Exp := (M EnvironmentExpander).

Variable E : gmap string value.
Variable base : gset string.

Lemma sound_ret {A} (a : A) : sound E base (ret a).
Proof. intros self r self' HE Hb [= <- <-]. done. Qed.

Lemma sound_raise {A} e : sound E base (@raise _ A e).
Proof. intros self r self' HE Hb [= <- <-]. done. Qed.

Lemma sound_bind {A B} (m : Exp A) (k : A -> Exp B) :
  sound E base m -> (forall a, sound E base (k a)) -> sound E base (bind m k).
Proof.
  intros Hm Hk self r self' HE Hb. unfold bind.
  destruct (m self) as [[a | e | ] s1] eqn:Hms;
    destruct (Hm _ _ _ HE Hb Hms) as (Hr & HE1 & Hsub).
  - intros Hks. destruct (Hk a s1 r self') as (? & ? & ?); auto.
    + set_solver.
    + split_and!; auto. set_solver.
  - intros [= <- <-]. done.
  - done.
Qed.

Lemma sound_try_except {A} (m : Exp A) cls h :
  sound E base m -> (forall e, sound E base (h e)) ->
  sound E base (try_except m cls h).
Proof.
  intros Hm Hh self r self' HE Hb. unfold try_except.
  destruct (m self) as [[a | e | ] s1] eqn:Hms;
    destruct (Hm _ _ _ HE Hb Hms) as (Hr & HE1 & Hsub).
  - intros [= <- <-]. done.
  - destruct (exn_class_eqb _ _).
    + intros Hhs. destruct (Hh e s1 r self') as (? & ? & ?); auto.
      * set_solver.
      * split_and!; auto. set_solver.
    + intros [= <- <-]. done.
  - done.
Qed.

Lemma join_pieces_fuel ps : join_pieces ps <> OutOfFuel.
Proof.
  induction ps as [ | [ | | | | s | | ] ps IH]; simpl; try done.
  destruct (join_pieces ps); done.
Qed.

Variable rec : string -> Exp value.
Hypothesis rec_sound : forall key, sound E base (rec key).

Lemma sound_expandconditional key : sound E base (expandconditional rec key).
Proof.
  unfold expandconditional.
  destruct (negb _); [apply sound_raise | ].
  destruct (PyStr.split1 "?" key) as [[c rest] | ]; [ | apply sound_raise].
  destruct (negb _); [apply sound_raise | ].
  destruct (PyStr.split1 ":" rest) as [[p a] | ]; [ | apply sound_raise].
  apply sound_bind.
  - apply sound_try_except; [apply rec_sound | intros; apply sound_ret].
  - intros v. destruct (is_trueish v); apply rec_sound.
Qed.

Lemma sound_replacematch m : sound E base (replacematch rec m).
Proof.
  destruct m as [ | w | b]; simpl; try apply sound_ret;
    destruct (PyStr.contains _ _);
    first [apply sound_expandconditional | apply rec_sound].
Qed.

Lemma sound_sub_pieces ts : sound E base (sub_pieces rec ts).
Proof.
  induction ts as [ | t ts IH]; simpl; [apply sound_ret | ].
  apply sound_bind;
    [destruct t; [apply sound_ret | apply sound_replacematch] | intros p].
  apply sound_bind; [apply IH | intros ps; apply sound_ret].
Qed.

Lemma sound_template_sub s : sound E base (template_sub rec s).
Proof.
  unfold template_sub.
  apply sound_bind; [apply sound_sub_pieces | intros ps].
  apply sound_bind; [ | intros; apply sound_ret].
  intros self r self' HE Hb [= <- <-].
  split_and!; auto. apply join_pieces_fuel.
Qed.

Lemma sound__expandvalue v : sound E base (_expandvalue rec v).
Proof.
  induction v as [ | b | n | q | s | l IH | d] using value_ind_list; simpl;
    try apply sound_ret.
  - apply sound_template_sub.
  - apply sound_bind; [ | intros; apply sound_ret].
    induction IH as [ | x l Hx _ IHl]; [apply sound_ret | ].
    apply sound_bind; [apply Hx | intros y].
    apply sound_bind; [apply IHl | intros; apply sound_ret].
  - destruct d; [apply sound_ret | apply sound_raise].
Qed.

End ExpanderSound.

(** [expand] with more fuel than there are environment keys outside the
    in-progress set always produces a value or an exception. *)
Lemma expand_sound fuel : forall E base key,
  (size (dom E ∖ base) < fuel)%nat -> sound E base (expand fuel key).
Proof.
  induction fuel as [ | fuel IH]; intros E base key Hsz; [lia | ].
  intros self r self' HE Hb. simpl. unfold bind at 1, get at 1.
  destruct (cache self !! key) as [v | ].
  { intros [= <- <-]. done. }
  destruct (decide (key ∈ expandset self)) as [Hin | Hnin].
  { intros [= <- <-]. done. }
  unfold bind at 1, modify at 1.
  set (self1 := {| env_dict := env_dict self; cache := cache self;
                   expandset := {[key]} ∪ expandset self |}).
  unfold bind at 1, _expand at 1, bind at 1, get at 1.
  change (env_dict self1) with (env_dict self). rewrite HE.
  destruct (E !! key) as [v | ] eqn:Hkey.
  2:{ intros [= <- <-]. split_and!; auto. simpl. set_solver. }
  assert (Hrec : forall k, sound E ({[key]} ∪ expandset self) (expand fuel k)).
  { intros k. apply IH.
    assert (Hlt : dom E ∖ ({[key]} ∪ expandset self) ⊂ dom E ∖ base).
    { apply elem_of_dom_2 in Hkey. set_solver. }
    apply subset_size in Hlt. lia. }
  destruct (_expandvalue (expand fuel) v self1) as [[result | e | ] self2] eqn:Hv;
    destruct (sound__expandvalue E _ _ Hrec v self1 _ _ HE (reflexivity _) Hv)
      as (Hr & HE2 & Hsub); simpl in Hsub.
  - unfold bind at 1, modify at 1, bind at 1, expandset_remove, bind at 1, get at 1.
    simpl. destruct (decide (key ∈ expandset self2)) as [Hin2 | Hnin2].
    + unfold modify. simpl. intros [= <- <-]. simpl.
      split_and!; auto. set_solver.
    + exfalso. set_solver.
  - intros [= <- <-]. split_and!; auto. set_solver.
  - done.
Qed.

(** [self.expand(key)] terminates on every expander, with a value or
    with an exception; it keeps the environment and never shrinks the
    in-progress set. *)
Lemma expander_expand_total key self :
  fst (expander_expand key self) <> OutOfFuel /\
  env_dict (snd (expander_expand key self)) = env_dict self /\
  expandset self ⊆ expandset (snd (expander_expand key self)).
Proof.
  unfold expander_expand.
  destruct (expand (enough_fuel self) key self) as [r self'] eqn:Hx.
  eapply (expand_sound (enough_fuel self) (env_dict self) ∅ key); eauto.
  - unfold enough_fuel.
    assert (size (dom (env_dict self) ∖ (∅ : gset string)) <= size (dom (env_dict self)))%nat.
    { apply subseteq_size. set_solver. }
    rewrite size_dom in H. lia.
  - set_solver.
Qed.

(** *** Unfolding one call of [expand] *)

Lemma expand_cached fuel key self v :
  cache self !! key = Some v -> expand (S fuel) key self = (Ok v, self).
Proof. intros H. simpl. unfold bind, get. by rewrite H. Qed.

Lemma expand_in_progress fuel key self :
  cache self !! key = None -> key ∈ expandset self ->
  expand (S fuel) key self = (Raise (recursive_expansion key), self).
Proof.
  intros H Hin. simpl. unfold bind, get. rewrite H.
  by destruct (decide (key ∈ expandset self)).
Qed.

Lemma expand_undefined fuel key self :
  cache self !! key = None -> key ∉ expandset self ->
  env_dict self !! key = None ->
  expand (S fuel) key self = (Raise (key_undefined key), enter key self).
Proof.
  intros H Hin HE. simpl. unfold bind at 1, get at 1. rewrite H.
  destruct (decide (key ∈ expandset self)); [done | ].
  unfold bind, modify, _expand, get, bind. simpl. by rewrite HE.
Qed.

Lemma expand_defined fuel key self v :
  cache self !! key = None -> key ∉ expandset self ->
  env_dict self !! key = Some v ->
  expand (S fuel) key self =
  leave key (_expandvalue (expand fuel) v (enter key self)).
Proof.
  intros H Hin HE. simpl. unfold bind at 1, get at 1. rewrite H.
  destruct (decide (key ∈ expandset self)); [done | ].
  unfold bind at 1, modify at 1. fold (enter key self).
  unfold bind at 1, _expand at 1, bind at 1, get at 1.
  change (env_dict (enter key self)) with (env_dict self). rewrite HE.
  destruct (_expandvalue (expand fuel) v (enter key self)) as [[result | e | ] self2];
    try done.
  unfold leave, bind, modify, expandset_remove, bind, get. simpl.
  by destruct (decide (key ∈ expandset self2)).
Qed.

(** *** Invariants of the expander state *)

Section Keeps.
Context {S : Type}.
Variable I : S -> Prop.

Lemma keeps_ret {A} (a : A) : keeps I (ret a).
Proof. by intros s r s' HI [= <- <-]. Qed.

Lemma keeps_raise {A} e : keeps I (@raise _ A e).
Proof. by intros s r s' HI [= <- <-]. Qed.

Lemma keeps_lift_res {A} (x : res A) : keeps I (lift_res x).
Proof. by intros s r s' HI [= <- <-]. Qed.

Lemma keeps_get : keeps I get.
Proof. by intros s r s' HI [= <- <-]. Qed.

Lemma keeps_modify f : (forall s, I s -> I (f s)) -> keeps I (modify f).
Proof. intros Hf s r s' HI [= <- <-]. by apply Hf. Qed.

Lemma keeps_bind {A B} (m : M S A) (k : A -> M S B) :
  keeps I m -> (forall a, keeps I (k a)) -> keeps I (bind m k).
Proof.
  intros Hm Hk s r s' HI. unfold bind.
  destruct (m s) as [[a | e | ] s1] eqn:Hms; pose proof (Hm _ _ _ HI Hms).
  - by apply Hk.
  - by intros [= <- <-].
  - by intros [= <- <-].
Qed.

Lemma keeps_try_except {A} (m : M S A) cls h :
  keeps I m -> (forall e, keeps I (h e)) -> keeps I (try_except m cls h).
Proof.
  intros Hm Hh s r s' HI. unfold try_except.
  destruct (m s) as [[a | e | ] s1] eqn:Hms; pose proof (Hm _ _ _ HI Hms).
  - by intros [= <- <-].
  - destruct (exn_class_eqb _ _); [by apply Hh | by intros [= <- <-]].
  - by intros [= <- <-].
Qed.

End Keeps.

Section Preserves.
Local Open Scope py_scope.

Variable I : EnvironmentExpander -> Prop.
Variable rec : string -> M EnvironmentExpander value.
Hypothesis rec_preserves : forall key, keeps I (rec key).

Lemma preserves_expandconditional key : keeps I (expandconditional rec key).
Proof.
  unfold expandconditional.
  destruct (negb _); [apply keeps_raise | ].
  destruct (PyStr.split1 "?" key) as [[c rest] | ]; [ | apply keeps_raise].
  destruct (negb _); [apply keeps_raise | ].
  destruct (PyStr.split1 ":" rest) as [[p a] | ]; [ | apply keeps_raise].
  apply keeps_bind.
  - apply keeps_try_except; [apply rec_preserves | intros; apply keeps_ret].
  - intros v. destruct (is_trueish v); apply rec_preserves.
Qed.

Lemma preserves_replacematch m : keeps I (replacematch rec m).
Proof.
  destruct m as [ | w | b]; simpl; try apply keeps_ret;
    destruct (PyStr.contains _ _);
    first [apply preserves_expandconditional | apply rec_preserves].
Qed.

Lemma preserves_sub_pieces ts : keeps I (sub_pieces rec ts).
Proof.
  induction ts as [ | t ts IH]; simpl; [apply keeps_ret | ].
  apply keeps_bind;
    [destruct t; [apply keeps_ret | apply preserves_replacematch] | intros p].
  apply keeps_bind; [apply IH | intros ps; apply keeps_ret].
Qed.

Lemma preserves__expandvalue v : keeps I (_expandvalue rec v).
Proof.
  induction v as [ | b | n | q | s | l IH | d] using value_ind_list; simpl;
    try apply keeps_ret.
  - unfold template_sub.
    apply keeps_bind; [apply preserves_sub_pieces | intros ps].
    apply keeps_bind; [apply keeps_lift_res | intros; apply keeps_ret].
  - apply keeps_bind; [ | intros; apply keeps_ret].
    induction IH as [ | x l Hx _ IHl]; [apply keeps_ret | ].
    apply keeps_bind; [apply Hx | intros y].
    apply keeps_bind; [apply IHl | intros; apply keeps_ret].
  - destruct d; [apply keeps_ret | apply keeps_raise].
Qed.

End Preserves.

Lemma cache_inv_new E : cache_inv (new_expander E).
Proof. intros k Hk. simpl in Hk. set_solver. Qed.

Lemma cache_inv_enter key self :
  cache_inv self -> cache self !! key = None -> cache_inv (enter key self).
Proof.
  intros HI Hc k Hk. simpl in *.
  apply elem_of_union in Hk as [Hk | Hk]; [ | by apply HI].
  apply elem_of_singleton in Hk. by subst.
Qed.

Lemma cache_inv_leave key r self r' self' :
  cache_inv self -> leave key (r, self) = (r', self') -> cache_inv self'.
Proof.
  intros HI. destruct r as [result | e | ]; simpl; try by intros [= <- <-].
  destruct (decide (key ∈ expandset self)) as [Hin | Hnin];
    intros [= <- <-] k Hk; simpl in *.
  - rewrite lookup_insert_ne; [apply HI | ]; set_solver.
  - rewrite lookup_insert_ne; [by apply HI | ]. intros ->. done.
Qed.

Lemma expand_cache_inv fuel : forall key, keeps cache_inv (expand fuel key).
Proof.
  induction fuel as [ | fuel IH]; intros key self r self' HI.
  { by intros [= <- <-]. }
  destruct (cache self !! key) as [v | ] eqn:Hc.
  { rewrite (expand_cached _ _ _ v Hc). by intros [= <- <-]. }
  destruct (decide (key ∈ expandset self)) as [Hin | Hnin].
  { rewrite expand_in_progress by done. by intros [= <- <-]. }
  destruct (env_dict self !! key) as [v | ] eqn:HE.
  - rewrite (expand_defined _ _ _ v) by done.
    destruct (_expandvalue (expand fuel) v (enter key self)) as [r2 self2] eqn:Hv.
    apply cache_inv_leave.
    eapply (preserves__expandvalue cache_inv (expand fuel) IH v); [ | exact Hv].
    by apply cache_inv_enter.
  - rewrite expand_undefined by done. intros [= <- <-].
    by apply cache_inv_enter.
Qed.

(** *** The template regular expression on examples *)

Example tokenize_sample :
  tokenize "a$$b ${x?y:z} $foo-bar ${open $w9."
  = [TLit "a"; TMatch MDollar; TLit "b"; TLit " "; TMatch (MParens "x?y:z");
     TLit " "; TMatch (MWord "foo"); TLit "-"; TLit "b"; TLit "a"; TLit "r";
     TLit " "; TLit "$"; TLit "{"; TLit "o"; TLit "p"; TLit "e"; TLit "n";
     TLit " "; TMatch (MWord "w9"); TLit "."].
Proof. reflexivity. Qed.

Example dollar_escape :
  fst (expander_expand "price"
         (new_expander (list_to_map [("price", VStr "$$name costs 5$$");
                                     ("name", VStr "x")])))
  = Ok (VStr "$name costs 5$").
Proof. vm_compute. reflexivity. Qed.

Example none_is_dropped_and_number_is_refused :
  let env : gmap string value :=
    list_to_map [("git", VNone); ("n", VInt 0);
                 ("a", VStr "<${git}>"); ("b", VStr "<${n}>")] in
  fst (expander_expand "a" (new_expander env)) = Ok (VStr "<>") /\
  fst (expander_expand "b" (new_expander env))
  = Raise (mk_exn TypeError [VStr "sequence item: expected string"]).
Proof. split; vm_compute; reflexivity. Qed.

(** *** Splitting at the first occurrence of a character *)

Lemma contains_app_char c x y :
  PyStr.contains c (x ++ String c y) = true.
Proof.
  induction x as [ | d x IH]; simpl.
  - by rewrite Ascii.eqb_refl.
  - rewrite IH. by destruct (Ascii.eqb c d).
Qed.

Lemma split1_app_char c x y :
  PyStr.contains c x = false ->
  PyStr.split1 c (x ++ String c y) = Some (x, y).
Proof.
  induction x as [ | d x IH]; simpl.
  - by rewrite Ascii.eqb_refl.
  - intros H. apply orb_false_iff in H as [Hd Hx].
    rewrite Hd, (IH Hx). done.
Qed.

(** *** The fuel of [tokenize] *)

Lemma span_word_length s w r :
  PyStr.span_word s = (w, r) -> (String.length r <= String.length s)%nat.
Proof.
  revert w r. induction s as [ | c s IH]; intros w r; simpl.
  - intros [= _ <-]. done.
  - destruct (PyStr.is_word_char c).
    + destruct (PyStr.span_word s) as [w' r'] eqn:Hs. intros [= _ <-].
      specialize (IH _ _ eq_refl). lia.
    + intros [= _ <-]. simpl. lia.
Qed.

Lemma split1_length c s a b :
  PyStr.split1 c s = Some (a, b) -> (String.length b < String.length s)%nat.
Proof.
  revert a b. induction s as [ | d s IH]; intros a b; simpl; [done | ].
  destruct (Ascii.eqb c d).
  - intros [= _ <-]. lia.
  - destruct (PyStr.split1 c s) as [[a' b'] | ] eqn:Hs; [ | done].
    intros [= _ <-]. specialize (IH _ _ eq_refl). lia.
Qed.

(** More fuel than the length of the string changes nothing. *)
Lemma tokenize_fuel_enough n : forall m s,
  (String.length s <= n)%nat -> (String.length s <= m)%nat ->
  tokenize_fuel n s = tokenize_fuel m s.
Proof.
  induction n as [ | n IH]; intros m s Hn Hm.
  { destruct s; [ | simpl in Hn; lia]. by destruct m. }
  destruct m as [ | m].
  { destruct s; [done | simpl in Hm; lia]. }
  destruct s as [ | c s]; [done | ]. simpl in Hn, Hm.
  assert (Hstep : forall r, (String.length r <= String.length s)%nat ->
                            tokenize_fuel n r = tokenize_fuel m r).
  { intros r Hr. apply IH; lia. }
  assert (Hlit : TLit c :: tokenize_fuel n s = TLit c :: tokenize_fuel m s).
  { f_equal. by apply Hstep. }
  destruct s as [ | d s].
  { simpl. destruct c as [[] [] [] [] [] [] [] []]; exact Hlit. }
  assert (Hdollar :
    (if PyStr.is_word_start d then
       let '(w, r') := PyStr.span_word (String d s) in
       TMatch (MWord w) :: tokenize_fuel n r'
     else if Ascii.eqb d "{" then
       match PyStr.split1 "}" s with
       | Some (b, r') => TMatch (MParens b) :: tokenize_fuel n r'
       | None => TLit "$" :: tokenize_fuel n (String d s)
       end
     else TLit "$" :: tokenize_fuel n (String d s))
    = (if PyStr.is_word_start d then
       let '(w, r') := PyStr.span_word (String d s) in
       TMatch (MWord w) :: tokenize_fuel m r'
     else if Ascii.eqb d "{" then
       match PyStr.split1 "}" s with
       | Some (b, r') => TMatch (MParens b) :: tokenize_fuel m r'
       | None => TLit "$" :: tokenize_fuel m (String d s)
       end
     else TLit "$" :: tokenize_fuel m (String d s))).
  { destruct (PyStr.is_word_start d).
    - destruct (PyStr.span_word (String d s)) as [w r'] eqn:Hw.
      apply span_word_length in Hw. f_equal. by apply Hstep.
    - destruct (Ascii.eqb d "{").
      + destruct (PyStr.split1 "}" s) as [[b r'] | ] eqn:Hb.
        * apply split1_length in Hb. f_equal. apply Hstep. simpl. lia.
        * f_equal. by apply Hstep.
      + f_equal. by apply Hstep. }
  assert (Hdd : TMatch MDollar :: tokenize_fuel n s
                = TMatch MDollar :: tokenize_fuel m s).
  { f_equal. apply Hstep. simpl. lia. }
  destruct c as [[] [] [] [] [] [] [] []]; try exact Hlit.
  destruct d as [[] [] [] [] [] [] [] []]; first [exact Hdd | exact Hdollar].
Qed.

(** *** Stripping around a character that is not white space *)

Lemma lstrip_app_char x c y :
  PyStr.is_space c = false ->
  PyStr.lstrip (x ++ String c y) = (PyStr.lstrip x ++ String c y)%string.
Proof.
  intros Hc. induction x as [ | d x IH]; simpl.
  - by rewrite Hc.
  - by destruct (PyStr.is_space d).
Qed.

Lemma rstrip_cons_char c y :
  PyStr.is_space c = false ->
  PyStr.rstrip (String c y) = String c (PyStr.rstrip y).
Proof. intros Hc. simpl. rewrite Hc. by destruct (PyStr.rstrip y). Qed.

Lemma rstrip_app_char x c y :
  PyStr.is_space c = false ->
  PyStr.rstrip (x ++ String c y) = (x ++ String c (PyStr.rstrip y))%string.
Proof.
  intros Hc. induction x as [ | d x IH].
  - by apply rstrip_cons_char.
  - change (PyStr.rstrip (String d (x ++ String c y))
            = String d (x ++ String c (PyStr.rstrip y))).
    simpl. rewrite IH. by destruct x.
Qed.

Lemma contains_lstrip c x :
  PyStr.contains c x = false -> PyStr.contains c (PyStr.lstrip x) = false.
Proof.
  induction x as [ | d x IH]; simpl; [done | ].
  intros H. destruct (PyStr.is_space d); [ | done].
  apply orb_false_iff in H as [_ H]. by apply IH.
Qed.

(** *** Conditional expressions *)

Lemma is_trueish_iff v :
  is_trueish v = true <->
  v = VInt 1 \/ v = VBool true \/
  (exists x, v = VFloat x /\ (x == 1)%Q) \/
  exists s, v = VStr s /\ In (PyStr.upper s) truthy_strings.
Proof.
  destruct v as [ | b | n | q | s | l | d]; cbn [is_trueish].
  - split; [done | ]. intros [? | [? | [(x & ? & _) | (s & ? & _)]]]; done.
  - split.
    + intros ->. auto.
    + intros [? | [[= ->] | [(x & ? & _) | (s & ? & _)]]]; done.
  - split.
    + intros H. apply Z.eqb_eq in H. subst. auto.
    + intros [[= ->] | [? | [(x & ? & _) | (s & ? & _)]]]; done.
  - rewrite Qeq_bool_iff. split.
    + intros H. right. right. left. by exists q.
    + intros [? | [? | [(x & [= <-] & H) | (s & ? & _)]]]; done.
  - split.
    + intros H. right. right. right. exists s. split; [done | ].
      unfold truthy_strings. simpl in H.
      repeat (apply orb_prop in H as [H | H];
              [apply String.eqb_eq in H; rewrite H; simpl; tauto | ]).
      done.
    + intros [? | [? | [(x & ? & _) | (s' & [= <-] & Hin)]]]; try done.
      unfold truthy_strings in Hin. simpl in Hin. simpl.
      destruct Hin as [<- | [<- | [<- | [<- | [<- | []]]]]];
        rewrite ?String.eqb_refl, ?orb_true_r; reflexivity.
  - split; [done | ]. intros [? | [? | [(x & ? & _) | (s & ? & _)]]]; done.
  - split; [done | ]. intros [? | [? | [(x & ? & _) | (s & ? & _)]]]; done.
Qed.

(** The lemmas on stripping, for any set of white space. *)
Section StripBy.
Variable sp : ascii -> bool.

Lemma lstrip_by_app_char x c y :
  sp c = false ->
  PyStr.lstrip_by sp (x ++ String c y)
  = (PyStr.lstrip_by sp x ++ String c y)%string.
Proof.
  intros Hc. induction x as [ | d x IH]; simpl.
  - by rewrite Hc.
  - by destruct (sp d).
Qed.

Lemma rstrip_by_cons_char c y :
  sp c = false ->
  PyStr.rstrip_by sp (String c y) = String c (PyStr.rstrip_by sp y).
Proof. intros Hc. simpl. rewrite Hc. by destruct (PyStr.rstrip_by sp y). Qed.

Lemma rstrip_by_app_char x c y :
  sp c = false ->
  PyStr.rstrip_by sp (x ++ String c y)
  = (x ++ String c (PyStr.rstrip_by sp y))%string.
Proof.
  intros Hc. induction x as [ | d x IH].
  - by apply rstrip_by_cons_char.
  - change (PyStr.rstrip_by sp (String d (x ++ String c y))
            = String d (x ++ String c (PyStr.rstrip_by sp y))).
    simpl. rewrite IH. by destruct x.
Qed.

Lemma lstrip_by_idem x :
  PyStr.lstrip_by sp (PyStr.lstrip_by sp x) = PyStr.lstrip_by sp x.
Proof.
  induction x as [ | d x IH]; simpl; [done | ].
  destruct (sp d) eqn:Hd; [done | ]. simpl. by rewrite Hd.
Qed.

Lemma rstrip_by_fixed d z :
  z <> EmptyString -> PyStr.rstrip_by sp z = z ->
  PyStr.rstrip_by sp (String d z) = String d z.
Proof. intros Hz Hzz. simpl. rewrite Hzz. by destruct z. Qed.

Lemma rstrip_by_idem x :
  PyStr.rstrip_by sp (PyStr.rstrip_by sp x) = PyStr.rstrip_by sp x.
Proof.
  induction x as [ | d x IH]; simpl; [done | ].
  destruct (PyStr.rstrip_by sp x) as [ | e r] eqn:Hr.
  - destruct (sp d) eqn:Hd; [done | ]. simpl. by rewrite Hd.
  - by apply rstrip_by_fixed.
Qed.

Lemma lstrip_by_rstrip_by x :
  PyStr.lstrip_by sp (PyStr.rstrip_by sp x)
  = PyStr.rstrip_by sp (PyStr.lstrip_by sp x).
Proof.
  induction x as [ | d x IH]; simpl; [done | ].
  destruct (sp d) eqn:Hd.
  - destruct (PyStr.rstrip_by sp x) as [ | e r] eqn:Hr.
    + by rewrite <- IH.
    + simpl. rewrite Hd. exact IH.
  - rewrite (rstrip_by_cons_char _ _ Hd).
    destruct (PyStr.rstrip_by sp x); simpl; by rewrite Hd.
Qed.

Lemma strip_by_lstrip x :
  PyStr.strip_by sp (PyStr.lstrip_by sp x) = PyStr.strip_by sp x.
Proof. unfold PyStr.strip_by. by rewrite lstrip_by_idem. Qed.

Lemma strip_by_rstrip x :
  PyStr.strip_by sp (PyStr.rstrip_by sp x) = PyStr.strip_by sp x.
Proof.
  unfold PyStr.strip_by. by rewrite lstrip_by_rstrip_by, rstrip_by_idem.
Qed.

Lemma contains_lstrip_by c x :
  PyStr.contains c x = false ->
  PyStr.contains c (PyStr.lstrip_by sp x) = false.
Proof.
  induction x as [ | d x IH]; simpl; [done | ].
  intros H. destruct (sp d); [ | done].
  apply orb_false_iff in H as [_ H]. by apply IH.
Qed.

Lemma strip_by_conditional condition primary alternative :
  sp "?" = false -> sp ":" = false ->
  PyStr.strip_by sp (condition ++ "?" ++ primary ++ ":" ++ alternative)
  = (PyStr.lstrip_by sp condition ++ "?" ++ primary ++ ":"
     ++ PyStr.rstrip_by sp alternative)%string.
Proof.
  intros Hq Hc. unfold PyStr.strip_by.
  change (condition ++ "?" ++ primary ++ ":" ++ alternative)%string
    with (condition ++ String "?" (primary ++ String ":" alternative))%string.
  rewrite lstrip_by_app_char by done.
  rewrite rstrip_by_app_char by done.
  rewrite rstrip_by_app_char by done. reflexivity.
Qed.

End StripBy.

(** [str.strip()] strips the characters of [string.whitespace]. *)
Lemma lstrip_is_by s : PyStr.lstrip s = PyStr.lstrip_by PyStr.is_space s.
Proof. induction s as [ | c s IH]; simpl; [done | ]. by rewrite IH. Qed.

Lemma rstrip_is_by s : PyStr.rstrip s = PyStr.rstrip_by PyStr.is_space s.
Proof. induction s as [ | c s IH]; simpl; [done | ]. by rewrite IH. Qed.

Lemma strip_as_by kind s :
  PyStr.strip_as kind s = PyStr.strip_by (PyStr.whitespace kind) s.
Proof.
  destruct kind; [ | done]. unfold PyStr.strip_as, PyStr.strip, PyStr.strip_by.
  by rewrite lstrip_is_by, rstrip_is_by.
Qed.

Lemma whitespace_marks kind :
  PyStr.whitespace kind "?" = false /\ PyStr.whitespace kind ":" = false.
Proof. by destruct kind. Qed.

Lemma expandconditional_eval kind rec condition primary alternative self :
  PyStr.contains "?" condition = false ->
  PyStr.contains ":" primary = false ->
  expandconditional_as rec kind
    (condition ++ "?" ++ primary ++ ":" ++ alternative) self
  = conditional_result kind rec condition primary alternative self.
Proof.
  intros Hc Hp. unfold expandconditional_as, conditional_result.
  change (condition ++ "?" ++ primary ++ ":" ++ alternative)%string
    with (condition ++ String "?" (primary ++ String ":" alternative))%string.
  rewrite contains_app_char, (split1_app_char _ _ _ Hc).
  rewrite contains_app_char, (split1_app_char _ _ _ Hp).
  cbn [negb]. unfold bind, try_except. cbv beta zeta.
  destruct (rec (PyStr.strip_as kind condition) self) as [[v | e | ] self1].
  - by destruct (is_trueish v).
  - by destruct (exn_class_eqb (exn_cls e) KeyError).
  - done.
Qed.

Lemma replacematch_eval kind rec condition primary alternative self :
  PyStr.contains "?" condition = false ->
  PyStr.contains ":" primary = false ->
  replacematch_as rec kind
    (MParens (condition ++ "?" ++ primary ++ ":" ++ alternative)) self
  = conditional_result kind rec condition primary alternative self.
Proof.
  intros Hc Hp. destruct (whitespace_marks kind) as [Hq Hcolon].
  unfold replacematch_as. cbv zeta.
  rewrite strip_as_by, strip_by_conditional by done.
  set (sp := PyStr.whitespace kind).
  change (PyStr.lstrip_by sp condition ++ "?" ++ primary ++ ":"
          ++ PyStr.rstrip_by sp alternative)%string
    with (PyStr.lstrip_by sp condition
          ++ String "?" (primary ++ ":" ++ PyStr.rstrip_by sp alternative))%string
    at 1.
  rewrite contains_app_char.
  rewrite expandconditional_eval by (by try apply contains_lstrip_by).
  unfold conditional_result.
  by rewrite !strip_as_by, strip_by_lstrip, strip_by_rstrip.
Qed.

(** C3.  In [${condition?primary:alternative}] the condition is looked
    up first; an undefined-key error of that lookup counts as a false
    condition instead of being raised, any other error is raised; the
    condition is true exactly for the integer 1, the float 1.0, [True]
    and the strings that are "1", "YES", "Y", "TRUE" or "ON" once put in
    upper case; the result is the lookup of the stripped primary when
    the condition is true and of the stripped alternative otherwise.
    This is what [expandconditional] returns on the text between the
    braces and what [replacematch] returns on the match, in a template
    that is a [str] and in one that is a [unicode], each with the
    [strip] of its type, and whatever the lookup [rec] does; in
    particular for the lookup [expand] of the expander. *)
Theorem expandconditional_spec kind rec condition primary alternative self :
  PyStr.contains "?" condition = false ->
  PyStr.contains ":" primary = false ->
  let expression := (condition ++ "?" ++ primary ++ ":" ++ alternative)%string in
  expandconditional_as rec kind expression self
  = conditional_result kind rec condition primary alternative self /\
  replacematch_as rec kind (MParens expression) self
  = conditional_result kind rec condition primary alternative self /\
  (forall fuel,
     expandconditional (expand fuel) expression self
     = conditional_result PyStr.Bytes (expand fuel)
         condition primary alternative self /\
     replacematch (expand fuel) (MParens expression) self
     = conditional_result PyStr.Bytes (expand fuel)
         condition primary alternative self) /\
  (forall v, is_trueish v = true <->
     v = VInt 1 \/ v = VBool true \/
     (exists x, v = VFloat x /\ (x == 1)%Q) \/
     exists s, v = VStr s /\ In (PyStr.upper s) truthy_strings).
Proof.
  intros Hc Hp expression. split_and!.
  - by apply expandconditional_eval.
  - by apply replacematch_eval.
  - intros fuel. split.
    + exact (expandconditional_eval PyStr.Bytes (expand fuel) _ _ _ _ Hc Hp).
    + exact (replacematch_eval PyStr.Bytes (expand fuel) _ _ _ _ Hc Hp).
  - apply is_trueish_iff.
Qed.

(** *** Reference cycles *)

(** A string that is one braced reference to [k] expands to whatever the
    lookup of [k] fails with. *)
Lemma expandvalue_single_fails rec s k self r self' :
  tokenize s = [TMatch (MParens k)] -> PyStr.strip k = k ->
  PyStr.contains "?" k = false ->
  rec k self = (r, self') -> is_ok r = false ->
  _expandvalue rec (VStr s) self = (r, self').
Proof.
  intros Ht Hs Hq Hrec Hr. simpl. unfold template_sub. rewrite Ht. simpl.
  rewrite Hs, Hq. unfold bind. rewrite Hrec. by destruct r.
Qed.

Section Cycle.
Variable E : gmap string value.
Variables x y sx sy : string.
Hypothesis x_def : E !! x = Some (VStr sx).
Hypothesis y_def : E !! y = Some (VStr sy).
Hypothesis x_refers : tokenize sx = [TMatch (MParens y)].
Hypothesis y_refers : tokenize sy = [TMatch (MParens x)].
Hypothesis x_plain : PyStr.strip x = x /\ PyStr.contains "?" x = false.
Hypothesis y_plain : PyStr.strip y = y /\ PyStr.contains "?" y = false.

Lemma uncached_enter k self : uncached E x y self -> uncached E x y (enter k self).
Proof. by intros (? & ? & ?). Qed.

(** Looking up [y] while [x] is in progress. *)
Lemma cycle_inner fuel self :
  uncached E x y self -> x ∈ expandset self ->
  exists r self',
    expand fuel y self = (r, self') /\ is_ok r = false /\ uncached E x y self' /\
    (2 <= fuel -> cycle_error x y r)%nat.
Proof.
  intros HU Hx. pose proof HU as (HE & Hcx & Hcy).
  destruct fuel as [ | fuel].
  { exists OutOfFuel, self. split_and!; auto. lia. }
  destruct (decide (y ∈ expandset self)) as [Hy | Hy].
  { rewrite expand_in_progress by done.
    eexists _, _. split_and!; eauto. intros _. by right. }
  rewrite (expand_defined _ _ _ (VStr sy)) by (by rewrite ?HE).
  assert (Hin : exists r,
    expand fuel x (enter y self) = (r, enter y self) /\ is_ok r = false /\
    (2 <= S fuel -> cycle_error x y r)%nat).
  { destruct fuel as [ | fuel].
    - exists OutOfFuel. split_and!; auto. lia.
    - rewrite expand_in_progress; [ | done | simpl; set_solver].
      eexists. split_and!; eauto. intros _. by left. }
  destruct Hin as (r & Hr & Hok & Hcyc).
  destruct y_plain as [Hs Hq]. destruct x_plain as [Hs' Hq'].
  rewrite (expandvalue_single_fails _ _ _ _ _ _ y_refers Hs' Hq' Hr Hok).
  exists r, (enter y self). split_and!; auto.
  by destruct r.
Qed.

(** Looking up [x]. *)
Lemma cycle_outer fuel self :
  uncached E x y self ->
  exists r self',
    expand fuel x self = (r, self') /\ is_ok r = false /\ uncached E x y self' /\
    (3 <= fuel -> cycle_error x y r)%nat.
Proof.
  intros HU. pose proof HU as (HE & Hcx & Hcy).
  destruct fuel as [ | fuel].
  { exists OutOfFuel, self. split_and!; auto. lia. }
  destruct (decide (x ∈ expandset self)) as [Hx | Hx].
  { rewrite expand_in_progress by done.
    eexists _, _. split_and!; eauto. intros _. by left. }
  rewrite (expand_defined _ _ _ (VStr sx)) by (by rewrite ?HE).
  destruct (cycle_inner fuel (enter x self)) as (r & self' & Hr & Hok & HU' & Hcyc).
  { by apply uncached_enter. }
  { simpl. set_solver. }
  destruct y_plain as [Hs Hq].
  rewrite (expandvalue_single_fails _ _ _ _ _ _ x_refers Hs Hq Hr Hok).
  exists r, self'. split_and!; auto.
  - by destruct r.
  - intros Hf. apply Hcyc. lia.
Qed.

End Cycle.

Lemma uncached_sym E x y self : uncached E x y self -> uncached E y x self.
Proof. by intros (? & ? & ?). Qed.

Lemma uncached_leave E x y key r self r' self' :
  key <> x -> key <> y ->
  uncached E x y self -> leave key (r, self) = (r', self') ->
  uncached E x y self'.
Proof.
  intros Hx Hy (HE & Hcx & Hcy).
  destruct r as [result | e | ]; simpl; try by intros [= <- <-].
  destruct (decide (key ∈ expandset self)); intros [= <- <-];
    (split_and!; simpl; [done | by rewrite lookup_insert_ne ..]).
Qed.

(** No call of [expand], with whatever fuel, caches a key of a cycle. *)
Lemma expand_uncached E x y sx sy :
  E !! x = Some (VStr sx) -> E !! y = Some (VStr sy) ->
  tokenize sx = [TMatch (MParens y)] -> tokenize sy = [TMatch (MParens x)] ->
  PyStr.strip x = x /\ PyStr.contains "?" x = false ->
  PyStr.strip y = y /\ PyStr.contains "?" y = false ->
  forall fuel key, keeps (uncached E x y) (expand fuel key).
Proof.
  intros Hx Hy Tx Ty Px Py fuel.
  induction fuel as [ | fuel IH]; intros key self r self' HU.
  { by intros [= <- <-]. }
  destruct (decide (key = x)) as [-> | Hkx].
  { destruct (cycle_outer E x y sx sy Hx Hy Tx Ty Px Py (S fuel) self HU)
      as (r1 & s1 & -> & _ & HU1 & _).
    by intros [= <- <-]. }
  destruct (decide (key = y)) as [-> | Hky].
  { destruct (cycle_outer E y x sy sx Hy Hx Ty Tx Py Px (S fuel) self
                (uncached_sym _ _ _ _ HU)) as (r1 & s1 & -> & _ & HU1 & _).
    intros [= <- <-]. by apply uncached_sym. }
  destruct (cache self !! key) as [v | ] eqn:Hc.
  { rewrite (expand_cached _ _ _ v Hc). by intros [= <- <-]. }
  destruct (decide (key ∈ expandset self)) as [Hin | Hnin].
  { rewrite expand_in_progress by done. by intros [= <- <-]. }
  destruct (env_dict self !! key) as [v | ] eqn:HE.
  - rewrite (expand_defined _ _ _ v) by done.
    destruct (_expandvalue (expand fuel) v (enter key self)) as [r2 self2] eqn:Hv.
    apply uncached_leave; [done | done | ].
    eapply (preserves__expandvalue _ (expand fuel) IH v); [ | exact Hv].
    by apply uncached_enter.
  - rewrite expand_undefined by done. intros [= <- <-].
    by apply uncached_enter.
Qed.

Lemma reachable_env E self : reachable E self -> env_dict self = E.
Proof.
  induction 1 as [ | self key _ IH]; [done | ].
  rewrite <- IH. apply expander_expand_total.
Qed.

Lemma reachable_cache_inv E self : reachable E self -> cache_inv self.
Proof.
  induction 1 as [ | self key _ IH]; [apply cache_inv_new | ].
  unfold expander_expand.
  destruct (expand (enough_fuel self) key self) as [r self'] eqn:Hx.
  by eapply expand_cache_inv.
Qed.

Lemma two_keys_size (E : gmap string value) x y vx vy :
  x <> y -> E !! x = Some vx -> E !! y = Some vy -> (2 <= size E)%nat.
Proof.
  intros Hne Hx Hy. rewrite <- size_dom.
  assert (Hsub : ({[x; y]} : gset string) ⊆ dom E).
  { apply elem_of_dom_2 in Hx, Hy. set_solver. }
  apply subseteq_size in Hsub.
  rewrite size_union in Hsub by set_solver.
  rewrite !size_singleton in Hsub. lia.
Qed.

(** C4.  In an environment with a = "${b}" and b = "${a}", looking up
    either key on an expander in any state it can reach ends with the
    recursive-expansion error, for one of the two keys.  In general a
    lookup of a key that is in the in-progress set ends at once with the
    recursive-expansion error for that key, and the state is left as it
    was; this holds in every state in which no in-progress key is
    cached, which is so for a new expander and is kept by every call of
    [expand], nested ones included. *)
Theorem recursive_expansion_detected E self :
  E !! "a" = Some (VStr "${b}") -> E !! "b" = Some (VStr "${a}") ->
  reachable E self ->
  (exists k self', (k = "a" \/ k = "b") /\
     expander_expand "a" self = (Raise (recursive_expansion k), self')) /\
  (exists k self', (k = "a" \/ k = "b") /\
     expander_expand "b" self = (Raise (recursive_expansion k), self')) /\
  (forall fuel key s, cache_inv s -> key ∈ expandset s ->
     expand (S fuel) key s = (Raise (recursive_expansion key), s)) /\
  (forall E', cache_inv (new_expander E')) /\
  (forall fuel key s, cache_inv s -> cache_inv (snd (expand fuel key s))).
Proof.
  intros Ha Hb Hreach.
  assert (HU : uncached E "a" "b" self).
  { induction Hreach as [ | self key Hr IH]; [done | ].
    unfold expander_expand.
    destruct (expand (enough_fuel self) key self) as [r self'] eqn:Hx.
    eapply (expand_uncached E "a" "b" _ _ Ha Hb); eauto. }
  assert (Hfuel : (3 <= enough_fuel self)%nat).
  { unfold enough_fuel. rewrite (reachable_env _ _ Hreach).
    pose proof (two_keys_size E "a" "b" _ _ ltac:(done) Ha Hb). lia. }
  split_and!.
  - destruct (cycle_outer E "a" "b" _ _ Ha Hb eq_refl eq_refl
                (conj eq_refl eq_refl) (conj eq_refl eq_refl)
                (enough_fuel self) self HU) as (r & s' & Hx & _ & _ & Hc).
    unfold expander_expand. rewrite Hx.
    destruct (Hc Hfuel) as [-> | ->]; eauto.
  - destruct (cycle_outer E "b" "a" _ _ Hb Ha eq_refl eq_refl
                (conj eq_refl eq_refl) (conj eq_refl eq_refl)
                (enough_fuel self) self (uncached_sym _ _ _ _ HU))
      as (r & s' & Hx & _ & _ & Hc).
    unfold expander_expand. rewrite Hx.
    destruct (Hc Hfuel) as [-> | ->]; eauto.
  - intros fuel key s HI Hin. apply expand_in_progress; auto.
  - apply cache_inv_new.
  - intros fuel key s HI.
    destruct (expand fuel key s) as [r s'] eqn:Hx.
    by eapply expand_cache_inv.
Qed.

Lemma recursive_expansion_detected_witness :
  exists k self', (k = "a" \/ k = "b") /\
    expander_expand "a" (new_expander cycle_env)
    = (Raise (recursive_expansion k), self').
Proof.
  apply (recursive_expansion_detected cycle_env (new_expander cycle_env));
    [reflexivity | reflexivity | constructor].
Defined.

Lemma expandconditional_spec_witness :
  replacematch_as (expand 2) PyStr.Unicode
    (MParens ("flag" ++ "?" ++ (unit_separator ++ "yes ") ++ ":" ++ "no"))
    (new_expander flag_env)
  = conditional_result PyStr.Unicode (expand 2)
      "flag" (unit_separator ++ "yes ") "no" (new_expander flag_env).
Proof.
  apply (expandconditional_spec PyStr.Unicode (expand 2)
           "flag" (unit_separator ++ "yes ") "no" (new_expander flag_env));
    reflexivity.
Defined.

(** The same expression in a [unicode] template and in a [str]
    template: only the first strips the separator before [yes]. *)
Example conditional_unicode :
  fst (replacematch_as (expand 2) PyStr.Unicode
         (MParens ("flag?" ++ unit_separator ++ "yes :no"))
         (new_expander flag_env))
  = Ok (VStr "Y").
Proof. vm_compute. reflexivity. Qed.

Example conditional_bytes :
  fst (replacematch (expand 2)
         (MParens ("flag?" ++ unit_separator ++ "yes :no"))
         (new_expander flag_env))
  = Raise (key_undefined (unit_separator ++ "yes")).
Proof. vm_compute. reflexivity. Qed.

Example one_float_is_trueish :
  is_trueish one_float = true /\ is_trueish (VFloat (3 # 2)) = false.
Proof. vm_compute. auto. Qed.

Example conditional_true :
  fst (expander_expand "v" (new_expander (<["v" := VStr "${flag? yes : no}"]> flag_env)))
  = Ok (VStr "Y").
Proof. vm_compute. reflexivity. Qed.

Example conditional_missing :
  fst (expander_expand "v" (new_expander (<["v" := VStr "${absent?yes:no}"]> flag_env)))
  = Ok (VStr "N").
Proof. vm_compute. reflexivity. Qed.

(** A lookup that raised leaves its key uncached and in the in-progress
    set, so that the next lookup of the key raises the
    recursive-expansion error. *)
Lemma failed_expand_sticks self key e self' :
  cache_inv self -> expander_expand key self = (Raise e, self') ->
  cache self' !! key = None /\ key ∈ expandset self' /\
  expander_expand key self' = (Raise (recursive_expansion key), self').
Proof.
  intros HI. unfold expander_expand at 1. unfold enough_fuel.
  assert (Hagain : forall s, cache s !! key = None -> key ∈ expandset s ->
            cache s !! key = None /\ key ∈ expandset s /\
            expander_expand key s = (Raise (recursive_expansion key), s)).
  { intros s Hc Hin. split_and!; auto. by apply expand_in_progress. }
  destruct (cache self !! key) as [v | ] eqn:Hc.
  { by rewrite (expand_cached _ _ _ v Hc). }
  destruct (decide (key ∈ expandset self)) as [Hin | Hnin].
  { rewrite expand_in_progress by done. intros [= _ <-]. by apply Hagain. }
  destruct (env_dict self !! key) as [v | ] eqn:HE.
  - rewrite (expand_defined _ _ _ v) by done.
    destruct (_expandvalue (expand (size (env_dict self))) v (enter key self))
      as [r2 self2] eqn:Hv.
    assert (Hrec : forall k, sound (env_dict self) ({[key]} ∪ expandset self)
                               (expand (size (env_dict self)) k)).
    { intros k. apply expand_sound. rewrite <- size_dom.
      apply subset_size. apply elem_of_dom_2 in HE. set_solver. }
    destruct (sound__expandvalue _ _ _ Hrec v (enter key self) _ _
                eq_refl (reflexivity _) Hv) as (_ & _ & Hsub).
    simpl in Hsub.
    assert (Hin2 : key ∈ expandset self2) by set_solver.
    assert (HI2 : cache_inv self2).
    { eapply (preserves__expandvalue cache_inv _
                (expand_cache_inv (size (env_dict self))) v); [ | exact Hv].
      by apply cache_inv_enter. }
    destruct r2 as [result | e2 | ]; simpl; [ | | done].
    + by destruct (decide (key ∈ expandset self2)).
    + intros [= _ <-]. apply Hagain; auto.
  - rewrite expand_undefined by done. intros [= _ <-].
    apply Hagain; simpl; [done | set_solver].
Qed.

(** C5.  The empty environment and the key "missing": the first lookup
    fails with the undefined-key error and caches nothing, but leaves the
    key in the in-progress set; the second lookup on the same expander
    does not try again and fails with the recursive-expansion error.
    The same happens to a string that tests an absent flag twice.  In
    general, after any lookup that raised, the key is not cached and
    every later lookup of it raises the recursive-expansion error. *)
Theorem failed_expansion_is_not_retried :
  let self0 := new_expander ∅ in
  let self1 := snd (expander_expand "missing" self0) in
  fst (expander_expand "missing" self0) = Raise (key_undefined "missing") /\
  cache self1 = ∅ /\
  "missing" ∈ expandset self1 /\
  fst (expander_expand "missing" self1) = Raise (recursive_expansion "missing") /\
  fst (expander_expand "twice"
         (new_expander (<["twice" := VStr "${absent?yes:no}-${absent?yes:no}"]> flag_env)))
  = Raise (recursive_expansion "absent") /\
  (forall self key e self',
     cache_inv self -> expander_expand key self = (Raise e, self') ->
     cache self' !! key = None /\
     expander_expand key self' = (Raise (recursive_expansion key), self')).
Proof.
  split_and!; [vm_compute; reflexivity .. | ].
  intros self key e self' HI Hx.
  destruct (failed_expand_sticks _ _ _ _ HI Hx) as (? & _ & ?). done.
Qed.

(** C6.  A mapping value with one item: the lookup fails with
    [AttributeError], because [_expandvalue] calls [self.expandvalue],
    a method the class does not define; so does the lookup of every key
    whose value is a mapping that is not empty.  A list is expanded
    element by element, and numbers, booleans and [None] come back
    unchanged. *)
Theorem mapping_value_raises :
  fst (expander_expand "k"
         (new_expander (list_to_map [("k", VDict [("inner", VStr "x")])])))
  = Raise no_expandvalue /\
  (forall E key item items,
     E !! key = Some (VDict (item :: items)) ->
     fst (expander_expand key (new_expander E)) = Raise no_expandvalue) /\
  fst (expander_expand "l"
         (new_expander (list_to_map
            [("l", VList [VStr "$n-1"; VInt 2; VBool true; VNone; VList [VStr "${n}"]]);
             ("n", VStr "x")])))
  = Ok (VList [VStr "x-1"; VInt 2; VBool true; VNone; VList [VStr "x"]]) /\
  (forall rec self,
     _expandvalue rec VNone self = (Ok VNone, self) /\
     (forall b, _expandvalue rec (VBool b) self = (Ok (VBool b), self)) /\
     (forall n, _expandvalue rec (VInt n) self = (Ok (VInt n), self))).
Proof.
  split_and!; [vm_compute; reflexivity | | vm_compute; reflexivity | done].
  intros E key item items HE. unfold expander_expand, enough_fuel.
  rewrite (expand_defined _ _ _ (VDict (item :: items))); done.
Qed.

(** *** Building a dependency *)

Lemma deps_get_set name d l :
  PyVal.hashable name = true -> deps_get name (deps_set name d l) = Some d.
Proof.
  intros Hh.
  assert (Hrefl : PyVal.key_eqb name name = true).
  { destruct name as [ | [ | ] | n | q | s | | ]; try done.
    - exact (Z.eqb_refl n).
    - exact (Qeq_bool_refl q).
    - exact (String.eqb_refl s). }
  induction l as [ | [k' d'] l IH]; simpl.
  - by rewrite Hrefl.
  - destruct (PyVal.key_eqb k' name) eqn:Hk; simpl; rewrite Hk; auto.
Qed.

(** C9.  The environment of a built dependency is the base environment
    overwritten by the defaults of the definition's type, then by the
    definition, then by the override: for every key the override wins
    over the definition, the definition over the type defaults, and the
    type defaults over the base environment.  The record is stored under
    its name, and its [has_overrides] flag is true exactly when the
    override is not empty. *)
Theorem create_dependency_layers {W} (coll : DependencyCollection) (sys : Sys W)
    (defn overrides defaults : gmap string value) (name : value) :
  type_layer (dependency_types coll) defn = Ok defaults ->
  layered_lookup "name" overrides defn defaults (base_env coll) = Some name ->
  PyVal.hashable name = true ->
  match layered_lookup "ignore" overrides defn defaults (base_env coll) with
  | Some v => PyVal.truthy v
  | None => false
  end = false ->
  exists d,
    create_dependency W defn overrides (coll, sys)
      = (Ok tt, (store name d coll, sys)) /\
    deps_get name (dependencies (store name d coll)) = Some d /\
    (forall k, env_dict (expander d) !! k
               = layered_lookup k overrides defn defaults (base_env coll)) /\
    cache (expander d) = ∅ /\ expandset (expander d) = ∅ /\
    (has_overrides d = true <-> overrides <> ∅).
Proof.
  intros Htype Hname Hhash Hign.
  set (env := dict_update (dict_update (dict_update (dict_update ∅ (base_env coll))
                defaults) defn) overrides).
  assert (Hlook : forall k, env !! k
            = layered_lookup k overrides defn defaults (base_env coll)).
  { intros k. unfold env, dict_update, layered_lookup.
    rewrite !lookup_union, lookup_empty.
    destruct (overrides !! k), (defn !! k), (defaults !! k), (base_env coll !! k);
      reflexivity. }
  exists (new_dependency name env (0 <? size overrides)%nat).
  split_and!.
  - unfold create_dependency, bind at 1, get at 1. cbn [fst].
    unfold type_layer in Htype.
    assert (Henv :
      (match defn !! "type" with
       | Some dep_type =>
           bind (lift_res (types_getitem (dependency_types coll) dep_type))
             (fun defaults0 => ret (dict_update (dict_update ∅ (base_env coll)) defaults0))
       | None => ret (dict_update ∅ (base_env coll))
       end) (coll, sys)
      = (Ok (dict_update (dict_update ∅ (base_env coll)) defaults), (coll, sys))).
    { destruct (defn !! "type") as [t | ].
      - unfold bind, lift_res. rewrite Htype. done.
      - injection Htype as <-. unfold ret, dict_update.
        by rewrite (left_id_L ∅ (∪)). }
    unfold bind at 1. rewrite Henv. fold env.
    rewrite !Hlook, Hname, Hign, Hhash. reflexivity.
  - apply deps_get_set. done.
  - apply Hlook.
  - reflexivity.
  - reflexivity.
  - simpl. split.
    + intros Hsz%Nat.ltb_lt Hempty. subst. rewrite map_size_empty in Hsz. lia.
    + intros Hne. apply Nat.ltb_lt.
      destruct (decide (size overrides = 0)%nat) as [Hz | Hz]; [ | lia].
      by apply map_size_empty_inv in Hz.
Qed.

Lemma create_dependency_layers_witness :
  exists d,
    create_dependency unit defn_A override_A (new_collection linux_env, quiet)
      = (Ok tt, (store (VStr "A") d (new_collection linux_env), quiet)) /\
    deps_get (VStr "A")
      (dependencies (store (VStr "A") d (new_collection linux_env))) = Some d /\
    (forall k, env_dict (expander d) !! k
               = layered_lookup k override_A defn_A external_defaults linux_env) /\
    cache (expander d) = ∅ /\ expandset (expander d) = ∅ /\
    (has_overrides d = true <-> override_A <> ∅).
Proof.
  apply (create_dependency_layers (new_collection linux_env) quiet
           defn_A override_A external_defaults (VStr "A"));
    vm_compute; reflexivity.
Defined.

Example override_wins :
  match create_dependency unit defn_A override_A (new_collection linux_env, quiet) with
  | (Ok tt, (coll, _)) =>
      match deps_get (VStr "A") (dependencies coll) with
      | Some d =>
          (fst (expander_expand "archive-filename" (expander d)),
           fst (expander_expand "archive-path" (expander d)),
           has_overrides d)
          = (Ok (VStr "a2.zip"),
             Ok (VStr "http://openhome.org/releases/artifacts/Linux-x64/a2.zip"),
             true)
      | None => False
      end
  | _ => False
  end.
Proof. vm_compute. reflexivity. Qed.

(** *** A [type] that is not in the table *)

(** With a list as [type] the error is [TypeError] (a list cannot be
    hashed), not a key-lookup error. *)
Lemma unhashable_type_is_not_key_error :
  ~ (exists args st,
       create_dependency unit defn_list_type ∅ (new_collection ∅, quiet)
       = (Raise (mk_exn KeyError args), st)).
Proof. intros (args & st & H). vm_compute in H. discriminate H. Qed.

Lemma builtin_types_lookup t :
  t <> "ignore" -> t <> "openhome" -> t <> "external" ->
  DEPENDENCY_TYPES !! t = None.
Proof.
  intros H1 H2 H3. unfold DEPENDENCY_TYPES.
  cbn [list_to_map foldr uncurry fst snd].
  rewrite !lookup_insert_ne by congruence. apply lookup_empty.
Qed.

(** C10, amended.  When the [type] of a definition is none of 'ignore',
    'openhome' and 'external', [create_dependency] raises before the
    definition or the override is merged and stores nothing: [KeyError]
    when the value can be hashed (a string, a number, a boolean or
    [None]), [TypeError] when it is a list or a mapping. *)
Theorem unknown_type_raises {W} (coll : DependencyCollection) (sys : Sys W)
    (defn overrides : gmap string value) (dep_type : value) :
  dependency_types coll = DEPENDENCY_TYPES ->
  defn !! "type" = Some dep_type ->
  dep_type <> VStr "ignore" -> dep_type <> VStr "openhome" ->
  dep_type <> VStr "external" ->
  create_dependency W defn overrides (coll, sys)
  = (Raise (if PyVal.hashable dep_type then mk_exn KeyError [dep_type]
            else PyVal.unhashable),
     (coll, sys)).
Proof.
  intros Htypes Ht H1 H2 H3.
  unfold create_dependency, bind at 1, get at 1. cbn [fst].
  rewrite Ht, Htypes. unfold bind, lift_res.
  destruct dep_type as [ | b | n | q | s | l | d]; try reflexivity.
  simpl. rewrite builtin_types_lookup by congruence. reflexivity.
Qed.

Lemma unknown_type_raises_witness :
  create_dependency unit
    (list_to_map [("name", VStr "A"); ("type", VStr "internal")])
    override_A (new_collection linux_env, quiet)
  = (Raise (mk_exn KeyError [VStr "internal"]), (new_collection linux_env, quiet)).
Proof.
  apply (unknown_type_raises (new_collection linux_env) quiet
           (list_to_map [("name", VStr "A"); ("type", VStr "internal")])
           override_A (VStr "internal"));
    [reflexivity | reflexivity | discriminate ..].
Defined.

(** *** clean_directories *)

Section CleanerRuns.
Variable FS : Type.
Variable os_path_isdir : string -> FS -> bool.
Variable os_rename : string -> string -> FS -> outcome unit * FS.
Variable shutil_rmtree : string -> FS -> outcome unit * FS.

Abbreviation renames_away' := (renames_away FS os_path_isdir os_rename).
Abbreviation rename_back_of' := (rename_back_of FS os_rename).
Abbreviation remove_of' := (remove_of FS shutil_rmtree).

(** The three loops, one by one. *)
Lemma rename_away_run directories : forall loc disk,
  lastdirectory loc = None ->
  exists new stop s',
    renames_away' (fs disk) directories new stop s' /\
    rename_away FS os_path_isdir os_rename directories (loc, disk)
    = (match stop with
       | None => Ok tt
       | Some (_, e) => Raise e
       end,
       ({| moved := moved loc ++ new; lastdirectory := option_map fst stop |},
        {| fs := s';
           calls := calls disk ++ map fwd_call new ++ failed_rename stop |})).
Proof.
  induction directories as [ | d rest IH]; intros [mv ld] [s cs] Hl;
    simpl in Hl; subst ld.
  - exists [], None, s. split; [constructor | ]. simpl.
    by rewrite !app_nil_r.
  - cbn [rename_away]. rewrite bind_run. unfold get at 1. cbn [snd fs].
    destruct (os_path_isdir d s) eqn:Hd; cbn [negb].
    + rewrite bind_run. unfold set_lastdirectory at 1, modify at 1.
      cbn [fst snd moved]. rewrite bind_run. unfold rename at 1.
      cbn [fst snd fs calls].
      destruct (os_rename d (d ++ ".deleteme") s) as [[[] | e] s1] eqn:Hren;
        cbn [res_of_outcome error_of].
      * rewrite bind_run. unfold set_lastdirectory at 1, modify at 1.
        cbn [fst snd moved]. rewrite bind_run.
        unfold moved_append at 1, modify at 1. cbn [fst snd moved lastdirectory].
        destruct (IH {| moved := mv ++ [(d, (d ++ ".deleteme")%string)];
                        lastdirectory := None |}
                     {| fs := s1;
                        calls := cs ++ [CallRename d (d ++ ".deleteme") None] |}
                     eq_refl) as (new & stop & s' & Hrun & Heq).
        rewrite Heq. cbn [moved fs calls].
        exists ((d, (d ++ ".deleteme")%string) :: new), stop, s'.
        split; [by eapply away_step | ].
        cbn [map fwd_call fst snd]. by rewrite <- !app_assoc.
      * exists [], (Some (d, e)), s1. split; [by eapply away_stop | ].
        cbn [map option_map fst failed_rename moved]. by rewrite app_nil_r.
    + destruct (IH {| moved := mv; lastdirectory := None |}
                   {| fs := s; calls := cs |} eq_refl)
        as (new & stop & s' & Hrun & Heq).
      rewrite Heq. exists new, stop, s'. split; [by eapply away_skip | done].
Qed.

Lemma rename_back_run l : forall loc disk,
  exists back stop s',
    in_turn FS rename_back_of' (fs disk) l back stop s' /\
    rename_back FS os_rename l (loc, disk)
    = (match stop with
       | None => Ok tt
       | Some (_, e) => Raise e
       end,
       (loc, {| fs := s';
                calls := calls disk ++ map back_call back ++ failed_back stop |})).
Proof.
  induction l as [ | [o n] l IH]; intros loc [s cs].
  - exists [], None, s. split; [constructor | ]. simpl. by rewrite app_nil_r.
  - cbn [rename_back]. rewrite bind_run. unfold rename at 1.
    cbn [fst snd fs calls].
    destruct (os_rename n o s) as [[[] | e] s1] eqn:Hren;
      cbn [res_of_outcome error_of].
    + destruct (IH loc {| fs := s1; calls := cs ++ [CallRename n o None] |})
        as (back & stop & s' & Hrun & Heq).
      rewrite Heq. cbn [fs calls].
      exists ((o, n) :: back), stop, s'. split; [by eapply turn_step | ].
      cbn [map back_call fst snd]. by rewrite <- !app_assoc.
    + exists [], (Some ((o, n), e)), s1. split; [by eapply turn_stop | done].
Qed.

Lemma rmtree_all_run l : forall loc disk,
  exists gone stop s',
    in_turn FS remove_of' (fs disk) l gone stop s' /\
    rmtree_all FS shutil_rmtree l (loc, disk)
    = (match stop with
       | None => Ok tt
       | Some (_, e) => Raise e
       end,
       (loc, {| fs := s';
                calls := calls disk ++ map removed gone ++ failed_removal stop |})).
Proof.
  induction l as [ | [o n] l IH]; intros loc [s cs].
  - exists [], None, s. split; [constructor | ]. simpl. by rewrite app_nil_r.
  - cbn [rmtree_all]. rewrite bind_run. unfold rmtree at 1.
    cbn [fst snd fs calls].
    destruct (shutil_rmtree n s) as [[[] | e] s1] eqn:Hrm;
      cbn [res_of_outcome error_of].
    + destruct (IH loc {| fs := s1; calls := cs ++ [CallRmtree n None] |})
        as (gone & stop & s' & Hrun & Heq).
      rewrite Heq. cbn [fs calls].
      exists ((o, n) :: gone), stop, s'. split; [by eapply turn_step | ].
      cbn [map removed fst snd]. by rewrite <- !app_assoc.
    + exists [], (Some ((o, n), e)), s1. split; [by eapply turn_stop | done].
Qed.

(** A loop that reached the end of its list got through all of it. *)
Lemma in_turn_all call s l gone s' :
  in_turn FS call s l gone None s' -> gone = l.
Proof.
  intros H. remember None as stop eqn:Hstop.
  induction H as [ | s p rest s1 gone stop s' _ _ IH | ]; [done | | done].
  by rewrite (IH Hstop).
Qed.

(** The loops are functions of the file system they start on. *)
Lemma renames_away_det s l new stop s' new' stop' s'' :
  renames_away' s l new stop s' -> renames_away' s l new' stop' s'' ->
  new' = new /\ stop' = stop /\ s'' = s'.
Proof.
  intros H. revert new' stop' s''.
  induction H as [s | s d rest new stop s' Hd _ IH
                 | s d rest s1 new stop s' Hd Hren _ IH
                 | s d rest e s1 Hd Hren];
    intros new' stop' s'' H'; inversion H'; subst; try congruence.
  - done.
  - by apply IH.
  - match goal with
    | Hx : os_rename _ _ _ = (Returns tt, _) |- _ =>
        rewrite Hren in Hx; injection Hx as <-
    end.
    match goal with
    | Hr : renames_away _ _ _ s1 rest _ _ _ |- _ =>
        destruct (IH _ _ _ Hr) as (-> & -> & ->)
    end.
    done.
  - match goal with
    | Hx : os_rename _ _ _ = (Raises _, _) |- _ =>
        rewrite Hren in Hx; injection Hx as <- <-
    end.
    done.
Qed.

Lemma in_turn_det call s l gone stop s' gone' stop' s'' :
  in_turn FS call s l gone stop s' -> in_turn FS call s l gone' stop' s'' ->
  gone' = gone /\ stop' = stop /\ s'' = s'.
Proof.
  intros H. revert gone' stop' s''.
  induction H as [s | s p rest s1 gone stop s' Hp _ IH | s p rest e s1 Hp];
    intros gone' stop' s'' H'; inversion H'; subst; try congruence.
  - done.
  - match goal with
    | Hx : call _ _ = (Returns tt, _) |- _ =>
        rewrite Hp in Hx; injection Hx as <-
    end.
    match goal with
    | Hr : in_turn _ _ s1 rest _ _ _ |- _ =>
        destruct (IH _ _ _ Hr) as (-> & -> & ->)
    end.
    done.
  - match goal with
    | Hx : call _ _ = (Raises _, _) |- _ =>
        rewrite Hp in Hx; injection Hx as <- <-
    end.
    done.
Qed.

Lemma in_turn_app call s l1 s1 l2 gone stop s2 :
  in_turn FS call s l1 l1 None s1 -> in_turn FS call s1 l2 gone stop s2 ->
  in_turn FS call s (l1 ++ l2) (l1 ++ gone) stop s2.
Proof.
  intros H1 H2. remember None as stop1 eqn:Hstop.
  remember l1 as gone1 eqn:Hgone in H1 at 2.
  revert Hgone. induction H1 as [ | s p rest s' gone1 stop1 s1 Hp H1 IH | ];
    intros Hgone; [done | | done].
  injection Hgone as ->. simpl. eapply turn_step; [done | ]. by apply IH.
Qed.

(** [clean_directories] makes the run of its list. *)
Lemma clean_directories_run directories disk :
  clean_run FS os_path_isdir os_rename shutil_rmtree directories disk
    (clean_directories FS os_path_isdir os_rename shutil_rmtree
       directories disk).
Proof.
  unfold clean_directories, clean_directories_body.
  unfold try_except_all at 1 2. rewrite bind_run.
  destruct (rename_away_run directories
              {| moved := []; lastdirectory := None |}
              {| fs := disk; calls := [] |} eq_refl)
    as (new & stop & s1 & Haway & Heq).
  unfold try_except_all. rewrite Heq. cbn [moved fs calls app].
  destruct stop as [[d e] | ]; cbn [option_map fst failed_rename].
  - rewrite bind_run. unfold get at 1. cbn [fst moved]. rewrite bind_run.
    destruct (rename_back_run (rev new)
                {| moved := new; lastdirectory := Some d |}
                {| fs := s1;
                   calls := map fwd_call new
                            ++ [CallRename d (d ++ ".deleteme") (Some e)] |})
      as (back & stop & s2 & Hback & Heq2).
    rewrite Heq2. cbn [fs calls].
    assert (Hcalls :
      ((map fwd_call new ++ [CallRename d (d ++ ".deleteme") (Some e)])
       ++ map back_call back ++ failed_back stop
       = map fwd_call new ++ [CallRename d (d ++ ".deleteme") (Some e)]
         ++ map back_call back ++ failed_back stop)%list)
      by (by rewrite <- app_assoc).
    destruct stop as [[p e'] | ]; unfold raise, bind, get;
      cbn [fst snd lastdirectory]; rewrite Hcalls;
      by eapply run_rolled_back.
  - rewrite app_nil_r, bind_run. unfold get at 1. cbn [fst moved].
    destruct (rmtree_all_run new
                {| moved := new; lastdirectory := None |}
                {| fs := s1; calls := map fwd_call new |})
      as (gone & stop & s2 & Hdel & Heq2).
    rewrite Heq2. cbn [fs calls].
    destruct stop as [[p e'] | ]; unfold raise, bind, get;
      cbn [fst snd lastdirectory failed_removal].
    + by eapply run_removal_failed.
    + rewrite app_nil_r. pose proof (in_turn_all _ _ _ _ _ Hdel) as ->.
      by eapply run_removed.
Qed.

(** On a file system whose renames are reversible the rollback gets
    through and restores the file system. *)
Lemma renames_away_renamed s l new stop s' :
  renames_reversible FS os_rename ->
  renames_away' s l new stop s' -> renamed os_rename s new s'.
Proof.
  intros [Hfail _].
  induction 1 as [s | s d rest new stop s' Hd _ IH
                 | s d rest s1 new stop s' Hd Hren _ IH
                 | s d rest e s1 Hd Hren].
  - constructor.
  - exact IH.
  - by econstructor.
  - rewrite (Hfail _ _ _ _ _ Hren). constructor.
Qed.

Lemma renamed_back s new s' :
  renames_reversible FS os_rename ->
  renamed os_rename s new s' ->
  in_turn FS rename_back_of' s' (rev new) (rev new) None s.
Proof.
  intros [_ Hundo].
  induction 1 as [s | s a b s1 l s2 Hab _ IH]; simpl; [constructor | ].
  eapply in_turn_app; [exact IH | ].
  eapply turn_step; [ | constructor].
  unfold rename_back_of. simpl. by apply Hundo.
Qed.

Lemma no_rmtree_fwd p err new : ~ In (CallRmtree p err) (map fwd_call new).
Proof. intros ((o & n) & [=] & _)%in_map_iff. Qed.

Lemma no_rmtree_back p err new : ~ In (CallRmtree p err) (map back_call new).
Proof. intros ((o & n) & [=] & _)%in_map_iff. Qed.

(** C1, amended.  If the rename of a directory raises after the renames
    [new] of earlier directories of the list succeeded, then the
    opposite renames are made in reverse order, up to the first one
    that raises: the directory of that one and the directories before
    it in the list stay under their [.deleteme] names.  Whether the
    rollback got through or not, the function raises the error that
    names the directory whose rename raised, and it removes nothing.
    When the renames of the file system are reversible, the rollback
    gets through and the file system is what it was at the start.  If
    any [shutil.rmtree] call is made, the renaming loop went through
    the whole list without an error, and the calls made are all its
    renames followed by removals. *)
Theorem clean_directories_transactional directories disk :
  let result :=
    clean_directories FS os_path_isdir os_rename shutil_rmtree directories disk in
  (forall new d e s1,
     renames_away' disk directories new (Some (d, e)) s1 ->
     exists back stop s2,
       in_turn FS rename_back_of' s1 (rev new) back stop s2 /\
       result
       = (Raise (failed_to_remove d),
          {| fs := s2;
             calls := map fwd_call new
                      ++ [CallRename d (d ++ ".deleteme") (Some e)]
                      ++ map back_call back ++ failed_back stop |}) /\
       (renames_reversible FS os_rename ->
        back = rev new /\ stop = None /\ s2 = disk)) /\
  (forall p err, In (CallRmtree p err) (calls (snd result)) ->
     exists new s1 gone stop s2,
       renames_away' disk directories new None s1 /\
       in_turn FS remove_of' s1 new gone stop s2 /\
       calls (snd result)
       = (map fwd_call new ++ map removed gone ++ failed_removal stop)%list).
Proof.
  intros result.
  pose proof (clean_directories_run directories disk) as Hrun.
  fold result in Hrun. clearbody result.
  destruct Hrun as [new s1 s2 Haway Hdel
                   | new s1 gone p e s2 Haway Hdel
                   | new d e s1 back stop s2 Haway Hback].
  - split.
    + intros new' d' e' s1' Haway'.
      by destruct (renames_away_det _ _ _ _ _ _ _ _ Haway Haway') as (_ & ? & _).
    + intros p err _. exists new, s1, new, None, s2.
      split_and!; [done | done | ]. simpl. by rewrite app_nil_r.
  - split.
    + intros new' d' e' s1' Haway'.
      by destruct (renames_away_det _ _ _ _ _ _ _ _ Haway Haway') as (_ & ? & _).
    + intros q err _. exists new, s1, gone, (Some (p, e)), s2. by split_and!.
  - split.
    + intros new' d' e' s1' Haway'.
      destruct (renames_away_det _ _ _ _ _ _ _ _ Haway Haway')
        as (-> & [= -> ->] & ->).
      exists back, stop, s2. split_and!; [done | done | ].
      intros Hrev.
      pose proof (renamed_back _ _ _ Hrev
                    (renames_away_renamed _ _ _ _ _ Hrev Haway)) as Hall.
      by destruct (in_turn_det _ _ _ _ _ _ _ _ _ Hall Hback) as (-> & -> & ->).
    + intros q err Hin. exfalso. cbn [snd calls] in Hin.
      apply in_app_or in Hin as [Hin | Hin];
        [by apply no_rmtree_fwd in Hin | ].
      destruct Hin as [[=] | Hin]. cbn [app] in Hin.
      apply in_app_or in Hin as [Hin | Hin];
        [by apply no_rmtree_back in Hin | ].
      destruct stop as [[q' e'] | ]; [ | done].
      by destruct Hin as [[=] | []].
Qed.

End CleanerRuns.

Lemma flatfs_rename_failed a b (s : FlatFS.t) e s' :
  FlatFS.rename a b s = (Raises e, s') -> s' = s.
Proof.
  unfold FlatFS.rename. destruct (s !! a) as [d | ]; [ | by intros [= _ <-]].
  destruct (FlatFS.in_use d); [by intros [= _ <-] | ].
  destruct (s !! b); [by intros [= _ <-] | done].
Qed.

Lemma flatfs_rename_undo a b (s s' : FlatFS.t) :
  FlatFS.rename a b s = (Returns tt, s') -> FlatFS.rename b a s' = (Returns tt, s).
Proof.
  unfold FlatFS.rename. destruct (s !! a) as [d | ] eqn:Ha; [ | done].
  destruct (FlatFS.in_use d) eqn:Hu; [done | ].
  destruct (s !! b) eqn:Hb; [done | ]. intros [= <-].
  assert (a <> b) by congruence.
  rewrite lookup_insert_eq, Hu, lookup_insert_ne, lookup_delete_eq by done.
  f_equal. rewrite delete_insert_eq.
  rewrite (delete_id (delete a s) b) by (by rewrite lookup_delete_ne).
  rewrite insert_delete_eq. by apply insert_id.
Qed.

(** [FlatFS], which nothing else touches, has reversible renames. *)
Lemma flatfs_reversible : renames_reversible FlatFS.t FlatFS.rename.
Proof. split; [apply flatfs_rename_failed | apply flatfs_rename_undo]. Qed.

(** With the watcher, the rename back of [x] raises: the rollback ends
    there, [w] is never renamed back, and both stay under their
    [.deleteme] names; the error still names [y]. *)
Lemma rollback_stops_at_failed_rename :
  clean_directories FlatFS.t FlatFS.isdir WatchedFS.rename FlatFS.rmtree
    ["w"; "x"; "y"] disk_wxy
  = (Raise (failed_to_remove "y"),
     {| fs := list_to_map
                [("w.deleteme", FlatFS.mk_dir ["e1"] true);
                 ("x.deleteme", FlatFS.mk_dir ["f1"; "f2"] true);
                 ("y", FlatFS.mk_dir ["g.dll"] true)];
        calls := [CallRename "w" "w.deleteme" None;
                  CallRename "x" "x.deleteme" None;
                  CallRename "y" "y.deleteme" (Some (FlatFS.os_error 13 "y"));
                  CallRename "x.deleteme" "x"
                    (Some (FlatFS.os_error 13 "x.deleteme"))] |}) /\
  FlatFS.isdir "w"
    (fs (snd (clean_directories FlatFS.t FlatFS.isdir WatchedFS.rename
                FlatFS.rmtree ["w"; "x"; "y"] disk_wxy))) = false /\
  FlatFS.isdir "x"
    (fs (snd (clean_directories FlatFS.t FlatFS.isdir WatchedFS.rename
                FlatFS.rmtree ["w"; "x"; "y"] disk_wxy))) = false.
Proof. vm_compute. auto. Qed.

Lemma clean_directories_transactional_witness :
  clean_directories FlatFS.t FlatFS.isdir FlatFS.rename FlatFS.rmtree
    ["x"; "y"] disk_xy
  = (Raise (failed_to_remove "y"),
     {| fs := disk_xy;
        calls := map fwd_call [("x", "x.deleteme")]
                 ++ [CallRename "y" ("y" ++ ".deleteme")
                       (Some (FlatFS.os_error 13 "y"))]
                 ++ map back_call (rev [("x", "x.deleteme")])
                 ++ failed_back None |}).
Proof.
  pose proof (proj1 (clean_directories_transactional FlatFS.t FlatFS.isdir
                       FlatFS.rename FlatFS.rmtree ["x"; "y"] disk_xy)) as H.
  cbv zeta in H.
  destruct (H [("x", "x.deleteme")] "y" (FlatFS.os_error 13 "y")
              (<["x.deleteme" := FlatFS.mk_dir ["f1"; "f2"] false]>
                 (delete "x" disk_xy)))
    as (back & stop & s2 & _ & Hres & Hrestore).
  { eapply away_step; [reflexivity | reflexivity | ].
    eapply away_stop; reflexivity. }
  destruct (Hrestore flatfs_reversible) as (-> & -> & ->).
  exact Hres.
Defined.

Example clean_xy_calls :
  clean_directories FlatFS.t FlatFS.isdir FlatFS.rename FlatFS.rmtree
    ["x"; "y"] disk_xy
  = (Raise (failed_to_remove "y"),
     {| fs := disk_xy;
        calls := [CallRename "x" "x.deleteme" None;
                  CallRename "y" "y.deleteme" (Some (FlatFS.os_error 13 "y"));
                  CallRename "x.deleteme" "x" None] |}).
Proof. vm_compute. reflexivity. Qed.

(** *** Dependency.fetch and Dependency.checkout *)

Lemma dep_expand_eq {W} key (d : Dependency) (sys : Sys W) r e :
  expander_expand key (expander d) = (r, e) ->
  dep_expand W key (d, sys) = (r, (with_expander d e, sys)).
Proof. intros H. unfold dep_expand. simpl. by rewrite H. Qed.

Section FetchProperties.
Variables W File : Type.
Variable ext : External W File.

Abbreviation fetch' := (fetch W File ext).
Abbreviation fetch_open' := (fetch_open W File ext).
Abbreviation extract_archive' := (@extract_archive W File ext Dependency).

(** C7, amended.  Once the four keys are resolved: an [IOError] while
    the remote file is opened and read makes [fetch] log the failure
    and return [False]; any other exception there is raised; an
    [OSError] of [os.makedirs], whatever its cause, is ignored and the
    archive is still extracted; after a successful extraction [fetch]
    returns [True]; an exception of [os.makedirs] that is not an
    [OSError] is raised. *)
Theorem fetch_outcomes (d : Dependency) (sys : Sys W)
    (remote_path dest : string) (strip_dirs name : value)
    (e1 e2 e3 e4 : EnvironmentExpander) :
  expander_expand "archive-path" (expander d) = (Ok (VStr remote_path), e1) ->
  expander_expand "dest" e1 = (Ok (VStr dest), e2) ->
  expander_expand "strip-archive-dirs" e2 = (Ok strip_dirs, e3) ->
  expander_expand "name" e3 = (Ok name, e4) ->
  let local_path := os_path_abspath ext dest in
  let st1 := (with_expander d e4,
              log_append sys "Fetching '%s'\n  from '%s'\n"
                [name; VStr remote_path]) in
  (forall e st2,
     fetch_open' (VStr remote_path) st1 = (Raise e, st2) ->
     fetch' (d, sys)
     = if exn_class_eqb (exn_cls e) IOError
       then (Ok false, (fst st2, log_append (snd st2) "  FAILED\n" []))
       else (Raise e, st2)) /\
  (forall a remote_file st2 made w3,
     fetch_open' (VStr remote_path) st1 = (Ok (a, remote_file), st2) ->
     os_makedirs ext local_path (world (snd st2)) = (made, w3) ->
     let st3 := (fst st2,
                 log_append {| logfile := logfile (snd st2); world := w3 |}
                   "  unpacking to '%s'\n" [VStr local_path]) in
     match made with
     | Raises e =>
         if exn_class_eqb (exn_cls e) OSError then True
         else fetch' (d, sys)
              = (Raise e, (fst st2, {| logfile := logfile (snd st2);
                                       world := w3 |}))
     | Returns _ => True
     end /\
     ((made = Returns tt \/
       exists e, made = Raises e /\ exn_cls e = OSError) ->
      match extract_archive' a local_path strip_dirs st3 with
      | (Ok _, st4) =>
          fetch' (d, sys)
          = (Ok true,
             (fst st4,
              log_append {| logfile := logfile (snd st4);
                            world := file_close ext remote_file
                                       (world (snd st4)) |}
                "  OK\n" []))
      | (Raise e, st4) => fetch' (d, sys) = (Raise e, st4)
      | (OutOfFuel, st4) => fetch' (d, sys) = (OutOfFuel, st4)
      end)).
Proof.
  intros H1 H2 H3 H4 local_path st1.
  assert (Hfetch : fetch' (d, sys) =
    bind (try_except (bind (fetch_open' (VStr remote_path))
                        (fun r => ret (Some r))) IOError
            (fun _ => bind (logfile_write W "  FAILED\n" [])
                        (fun _ => ret None)))
      (fun opened =>
         match opened with
         | None => ret false
         | Some (a, remote_file) =>
             bind (try_except (in_world W (os_makedirs ext local_path)) OSError
                     (fun _ => ret tt))
               (fun _ =>
                  bind (logfile_write W "  unpacking to '%s'\n" [VStr local_path])
                    (fun _ =>
                       bind (extract_archive' a local_path strip_dirs)
                         (fun _ =>
                            bind (modify (fun st : Dependency * Sys W =>
                                    (fst st,
                                     {| logfile := logfile (snd st);
                                        world := file_close ext remote_file
                                                   (world (snd st)) |})))
                              (fun _ =>
                                 bind (logfile_write W "  OK\n" [])
                                   (fun _ => ret true)))))
         end) st1).
  { unfold fetch. unfold bind at 1. rewrite (dep_expand_eq _ _ _ _ _ H1).
    unfold bind at 1. erewrite (dep_expand_eq "dest") by exact H2.
    unfold bind at 1, as_str at 1, ret at 1.
    unfold bind at 1.
    erewrite (dep_expand_eq "strip-archive-dirs") by exact H3.
    unfold bind at 1. erewrite (dep_expand_eq "name") by exact H4.
    unfold bind at 1, logfile_write at 1, modify at 1. reflexivity. }
  split.
  - intros e st2 Hopen. rewrite Hfetch.
    unfold bind at 1, try_except at 1, bind at 1. rewrite Hopen.
    destruct (exn_class_eqb (exn_cls e) IOError); [ | done].
    unfold bind, logfile_write, modify, ret. destruct st2; done.
  - intros a remote_file st2 made w3 Hopen Hmk st3.
    assert (Hafter : fetch' (d, sys) =
      bind (try_except (in_world W (os_makedirs ext local_path)) OSError
              (fun _ => ret tt))
        (fun _ =>
           bind (logfile_write W "  unpacking to '%s'\n" [VStr local_path])
             (fun _ =>
                bind (extract_archive' a local_path strip_dirs)
                  (fun _ =>
                     bind (modify (fun st : Dependency * Sys W =>
                             (fst st,
                              {| logfile := logfile (snd st);
                                 world := file_close ext remote_file
                                            (world (snd st)) |})))
                       (fun _ =>
                          bind (logfile_write W "  OK\n" [])
                            (fun _ => ret true))))) st2).
    { rewrite Hfetch. unfold bind at 1, try_except at 1, bind at 1.
      rewrite Hopen. reflexivity. }
    clear Hfetch.
    set (s2 := (fst st2, {| logfile := logfile (snd st2); world := w3 |})) in *.
    assert (Hmake :
      try_except (in_world W (os_makedirs ext local_path)) OSError
        (fun _ => ret tt) st2
      = match made with
        | Returns _ => (Ok tt, s2)
        | Raises e =>
            if exn_class_eqb (exn_cls e) OSError then (Ok tt, s2)
            else (Raise e, s2)
        end).
    { unfold try_except, in_world. rewrite Hmk.
      destruct made as [[] | e]; simpl; [done | ].
      by destruct (exn_class_eqb (exn_cls e) OSError). }
    unfold bind at 1 in Hafter. rewrite Hmake in Hafter. clear Hmake.
    split.
    + destruct made as [[] | e]; [done | ].
      destruct (exn_class_eqb (exn_cls e) OSError); done.
    + intros Hmade.
      assert (Hext : fetch' (d, sys) =
        bind (extract_archive' a local_path strip_dirs)
          (fun _ =>
             bind (modify (fun st : Dependency * Sys W =>
                     (fst st,
                      {| logfile := logfile (snd st);
                         world := file_close ext remote_file
                                    (world (snd st)) |})))
               (fun _ =>
                  bind (logfile_write W "  OK\n" [])
                    (fun _ => ret true))) st3).
      { rewrite Hafter.
        destruct Hmade as [-> | (e & -> & He)]; rewrite ?He; reflexivity. }
      destruct (extract_archive' a local_path strip_dirs st3)
        as [[[] | e' | ] st4] eqn:Hex;
        rewrite Hext; unfold bind at 1; rewrite Hex; reflexivity.
Qed.

End FetchProperties.

Section CheckoutProperties.
Variables W File : Type.
Variable ext : External W File.

Abbreviation checkout' := (checkout W File ext).
Abbreviation checkout_commands' := (checkout_commands W File ext).

Lemma check_call_failed {S} args cwd (st : S * Sys W) z w' :
  subprocess_call ext args cwd (world (snd st)) = (Returns z, w') ->
  z <> 0 ->
  check_call W File ext args cwd st
  = (Raise (mk_exn CalledProcessError [VInt z; VList args]),
     (fst st, {| logfile := logfile (snd st); world := w' |})).
Proof.
  intros Hcall Hz. unfold check_call, bind, in_world. rewrite Hcall. simpl.
  apply Z.eqb_neq in Hz. by rewrite Hz.
Qed.

(** C8, amended.  Once [name] is resolved: when [source-git] resolves
    to [None], [checkout] logs that and returns [False]; when the
    lookup of [source-git] raises, as it does with the undefined-key
    error for a key that the environment does not have, [checkout]
    raises that error; when the target path exists and is not a
    directory, [checkout] logs that and returns [False]; a [git]
    command that ends with a non-zero status raises
    [CalledProcessError], which [checkout] catches, logs and turns
    into [False]. *)
Theorem checkout_outcomes (d : Dependency) (sys : Sys W) (name : value)
    (e1 : EnvironmentExpander) :
  expander_expand "name" (expander d) = (Ok name, e1) ->
  (forall e2,
     expander_expand "source-git" e1 = (Ok VNone, e2) ->
     checkout' (d, sys)
     = (Ok false, (with_expander d e2,
                   log_append sys "No git repo defined for {0}.\n" [name]))) /\
  (forall e e2,
     expander_expand "source-git" e1 = (Raise e, e2) ->
     checkout' (d, sys) = (Raise e, (with_expander d e2, sys))) /\
  (env_dict e1 !! "source-git" = None -> cache e1 !! "source-git" = None ->
   "source-git" ∉ expandset e1 ->
   expander_expand "source-git" e1
   = (Raise (key_undefined "source-git"), enter "source-git" e1)) /\
  (forall n sourcegit tag e2 e3,
     name = VStr n ->
     expander_expand "source-git" e1 = (Ok sourcegit, e2) ->
     sourcegit <> VNone ->
     expander_expand "tag" e2 = (Ok tag, e3) ->
     let target := ("../" ++ n)%string in
     let st2 := (with_expander d e3,
                 log_append sys "Fetching source for '%s'\n  into '%s'\n"
                   [VStr n; VStr (os_path_abspath ext target)]) in
     (os_path_exists ext target (world sys) = true ->
      os_path_isdir ext target (world sys) = false ->
      checkout' (d, sys)
      = (Ok false,
         (fst st2,
          log_append (snd st2)
            "Cannot checkout {0}, because directory ../{0} already exists\n"
            [VStr n]))) /\
     (forall e st3,
        checkout_commands' n sourcegit tag st2 = (Raise e, st3) ->
        exn_cls e = CalledProcessError ->
        checkout' (d, sys)
        = (Ok false,
           (fst st3,
            log_append (snd st3)
              "Command '%s' returned non-zero exit status %d\n"
              (rev (exn_args e))))) /\
     (forall b st3,
        checkout_commands' n sourcegit tag st2 = (Ok b, st3) ->
        checkout' (d, sys) = (Ok b, st3))) /\
  (forall args cwd (st : Dependency * Sys W) z w',
     subprocess_call ext args cwd (world (snd st)) = (Returns z, w') ->
     z <> 0 ->
     check_call W File ext args cwd st
     = (Raise (mk_exn CalledProcessError [VInt z; VList args]),
        (fst st, {| logfile := logfile (snd st); world := w' |}))).
Proof.
  intros Hname.
  assert (Hstart : forall r e2,
    expander_expand "source-git" e1 = (r, e2) ->
    checkout' (d, sys) =
    match r with
    | Ok sourcegit =>
        match sourcegit with
        | VNone =>
            bind (logfile_write W "No git repo defined for {0}.\n" [name])
              (fun _ => ret false)
        | _ =>
            bind (as_str TypeError name) (fun name =>
            bind (logfile_write W "Fetching source for '%s'\n  into '%s'\n"
                    [VStr name; VStr (os_path_abspath ext ("../" ++ name))])
              (fun _ =>
            bind (dep_expand W "tag") (fun tag =>
            try_except (checkout_commands' name sourcegit tag)
              CalledProcessError
              (fun cpe =>
                 bind (logfile_write W
                         "Command '%s' returned non-zero exit status %d\n"
                         (rev (exn_args cpe)))
                   (fun _ => ret false)))))
        end (with_expander d e2, sys)
    | Raise e => (Raise e, (with_expander d e2, sys))
    | OutOfFuel => (OutOfFuel, (with_expander d e2, sys))
    end).
  { intros r e2 Hsg. unfold checkout.
    unfold bind at 1. rewrite (dep_expand_eq _ _ _ _ _ Hname).
    unfold bind at 1. erewrite (dep_expand_eq "source-git") by exact Hsg.
    destruct r as [sourcegit | e | ]; reflexivity. }
  split_and!.
  - intros e2 Hsg. rewrite (Hstart _ _ Hsg). reflexivity.
  - intros e e2 Hsg. rewrite (Hstart _ _ Hsg). reflexivity.
  - intros HE Hc Hin. unfold expander_expand, enough_fuel.
    by apply expand_undefined.
  - intros n sourcegit tag e2 e3 -> Hsg Hnn Htag target st2.
    assert (Hbody : checkout' (d, sys) =
      try_except (checkout_commands' n sourcegit tag) CalledProcessError
        (fun cpe =>
           bind (logfile_write W
                   "Command '%s' returned non-zero exit status %d\n"
                   (rev (exn_args cpe)))
             (fun _ => ret false)) st2).
    { rewrite (Hstart _ _ Hsg).
      transitivity (
        bind (as_str TypeError (VStr n)) (fun name =>
        bind (logfile_write W "Fetching source for '%s'\n  into '%s'\n"
                [VStr name; VStr (os_path_abspath ext ("../" ++ name))])
          (fun _ =>
        bind (dep_expand W "tag") (fun tag =>
        try_except (checkout_commands' name sourcegit tag)
          CalledProcessError
          (fun cpe =>
             bind (logfile_write W
                     "Command '%s' returned non-zero exit status %d\n"
                     (rev (exn_args cpe)))
               (fun _ => ret false)))))
        (with_expander d e2, sys)).
      { by destruct sourcegit. }
      unfold bind at 1, as_str at 1, ret at 1.
      unfold bind at 1, logfile_write at 1, modify at 1. cbn [fst snd].
      unfold bind at 1. erewrite (dep_expand_eq "tag") by exact Htag.
      reflexivity. }
    split_and!.
    + intros Hex Hdir. rewrite Hbody.
      unfold try_except, checkout_commands, bind at 1, get at 1.
      subst st2. cbn [fst snd world log_append].
      fold target. rewrite Hex, Hdir. reflexivity.
    + intros e st3 Hcmd He. rewrite Hbody. unfold try_except.
      rewrite Hcmd, He. simpl. destruct st3. reflexivity.
    + intros b st3 Hcmd. rewrite Hbody. unfold try_except.
      rewrite Hcmd. reflexivity.
  - intros args cwd st z w'. apply check_call_failed.
Qed.

End CheckoutProperties.

Lemma fetch_outcomes_witness :
  fetch (list event) string (scripted offline) (dep_A, nothing_happened)
  = (Ok false,
     (with_expander dep_A
        (after "name" (after "strip-archive-dirs" (after "dest"
           (after "archive-path" (expander dep_A))))),
      {| logfile := [("Fetching '%s'\n  from '%s'\n", [VStr "A"; VStr path_A]);
                     ("  FAILED\n", [])];
         world := [] |})).
Proof.
  pose proof (proj1 (fetch_outcomes (list event) string (scripted offline)
    dep_A nothing_happened path_A "dependencies/Linux-x64/" (VInt 0) (VStr "A")
    (after "archive-path" (expander dep_A))
    (after "dest" (after "archive-path" (expander dep_A)))
    (after "strip-archive-dirs" (after "dest" (after "archive-path" (expander dep_A))))
    (after "name" (after "strip-archive-dirs" (after "dest"
       (after "archive-path" (expander dep_A)))))
    ltac:(vm_compute; reflexivity) ltac:(vm_compute; reflexivity)
    ltac:(vm_compute; reflexivity) ltac:(vm_compute; reflexivity))) as H.
  rewrite (H (mk_exn IOError [VInt 2; VStr path_A]) _ ltac:(vm_compute; reflexivity)).
  vm_compute. reflexivity.
Defined.

(** [os.makedirs] fails with "permission denied", which is not the
    directory-exists error; [fetch] goes on, extracts the archive (which
    has nothing to write) and returns [True]. *)
Lemma makedirs_error_is_swallowed :
  os_makedirs (scripted read_only) "/work/dependencies/Linux-x64/" []
  = (Raises permission_denied, []) /\
  fetch (list event) string (scripted read_only) (dep_A, nothing_happened)
  = (Ok true,
     (with_expander dep_A
        (after "name" (after "strip-archive-dirs" (after "dest"
           (after "archive-path" (expander dep_A))))),
      {| logfile := [("Fetching '%s'\n  from '%s'\n", [VStr "A"; VStr path_A]);
                     ("  unpacking to '%s'\n", [VStr "/work/dependencies/Linux-x64/"]);
                     ("  OK\n", [])];
         world := [Extracted {| ar_kind := ZipFile; ar_entries := [] |}
                     "/work/dependencies/Linux-x64/";
                   Closed ""] |})).
Proof. split; vm_compute; reflexivity. Qed.

(** [checkout] on it raises the undefined-key error. *)
Lemma absent_source_git_raises :
  fst (checkout (list event) string (scripted offline) (dep_bare, nothing_happened))
  = Raise (key_undefined "source-git").
Proof. vm_compute. reflexivity. Qed.

Lemma checkout_outcomes_witness :
  checkout (list event) string (scripted offline) (dep_A, nothing_happened)
  = (Ok false,
     (with_expander dep_A (after "source-git" (after "name" (expander dep_A))),
      log_append nothing_happened "No git repo defined for {0}.\n" [VStr "A"])).
Proof.
  apply (proj1 (checkout_outcomes (list event) string (scripted offline)
    dep_A nothing_happened (VStr "A") (after "name" (expander dep_A))
    ltac:(vm_compute; reflexivity))).
  vm_compute. reflexivity.
Defined.

(** *** Batch operations *)

Lemma template_sub_is_str rec s self v self' :
  template_sub rec s self = (Ok v, self') -> exists r, v = VStr r.
Proof.
  unfold template_sub, bind, lift_res, ret.
  destruct (sub_pieces rec (tokenize s) self) as [[ps | e | ] s1]; try done.
  destruct (join_pieces ps) as [r | e | ]; try done.
  intros [= <- _]. eauto.
Qed.

Lemma name_inv_enter key self : name_inv self -> name_inv (enter key self).
Proof. by intros [? ?]. Qed.

Lemma name_inv_leave key r self r' self' :
  name_inv self ->
  (key = "name" -> forall v, r = Ok v -> exists s, v = VStr s) ->
  leave key (r, self) = (r', self') -> name_inv self'.
Proof.
  intros [HE HC] Hstr.
  destruct r as [result | e | ]; simpl; try by intros [= <- <-].
  assert (Hins : forall v, <[key := result]> (cache self) !! "name" = Some v ->
                           exists s, v = VStr s).
  { intros v. destruct (decide (key = "name")) as [-> | Hne].
    - rewrite lookup_insert_eq. intros [= <-]. by eapply Hstr.
    - rewrite lookup_insert_ne by done. apply HC. }
  destruct (decide (key ∈ expandset self)); intros [= <- <-]; by split.
Qed.

Lemma expand_name_inv fuel : forall key, keeps name_inv (expand fuel key).
Proof.
  induction fuel as [ | fuel IH]; intros key self r self' HI.
  { by intros [= <- <-]. }
  destruct (cache self !! key) as [v | ] eqn:Hc.
  { rewrite (expand_cached _ _ _ v Hc). by intros [= <- <-]. }
  destruct (decide (key ∈ expandset self)) as [Hin | Hnin].
  { rewrite expand_in_progress by done. by intros [= <- <-]. }
  destruct (env_dict self !! key) as [v | ] eqn:HE.
  - rewrite (expand_defined _ _ _ v) by done.
    destruct (_expandvalue (expand fuel) v (enter key self)) as [r2 self2] eqn:Hv.
    apply name_inv_leave.
    + eapply (preserves__expandvalue name_inv (expand fuel) IH v); [ | exact Hv].
      by apply name_inv_enter.
    + intros -> w ->. destruct HI as [[s Hs] _]. rewrite Hs in HE.
      injection HE as <-. simpl in Hv. by eapply template_sub_is_str.
  - rewrite expand_undefined by done. intros [= <- <-].
    by apply name_inv_enter.
Qed.

Lemma expand_ok_cached fuel key self v self' :
  expand fuel key self = (Ok v, self') -> cache self' !! key = Some v.
Proof.
  destruct fuel as [ | fuel]; [done | ].
  destruct (cache self !! key) as [w | ] eqn:Hc.
  { rewrite (expand_cached _ _ _ w Hc). by intros [= <- <-]. }
  destruct (decide (key ∈ expandset self)) as [Hin | Hnin].
  { by rewrite expand_in_progress. }
  destruct (env_dict self !! key) as [w | ] eqn:HE.
  - rewrite (expand_defined _ _ _ w) by done.
    destruct (_expandvalue (expand fuel) w (enter key self)) as [[x | e | ] self2];
      simpl; try done.
    destruct (decide (key ∈ expandset self2)); [ | done].
    intros [= <- <-]. simpl. apply lookup_insert_eq.
  - by rewrite expand_undefined.
Qed.

Lemma expand_name_is_str key self v self' :
  name_inv self -> expander_expand "name" self = (Ok v, self') ->
  key = "name" -> exists s, v = VStr s.
Proof.
  intros HI Hx _. unfold expander_expand in Hx.
  pose proof (expand_name_inv _ _ _ _ _ HI Hx) as [_ HC].
  apply HC. by eapply expand_ok_cached.
Qed.

Section BatchProperties.
Variables W File : Type.
Variable ext : External W File.

Lemma keeps_dep_expand key : keeps (@dep_named W) (dep_expand W key).
Proof.
  intros [d sys] r [d' sys'] HI. unfold dep_expand, dep_named in *. simpl in *.
  unfold expander_expand.
  destruct (expand (enough_fuel (expander d)) key (expander d)) as [r0 e] eqn:Hx.
  intros [= <- <- <-]. simpl. by eapply expand_name_inv.
Qed.

Lemma keeps_in_world {A} (m : W -> outcome A * W) :
  keeps (@dep_named W) (in_world W m).
Proof.
  intros [d sys] r [d' sys'] HI. unfold in_world. simpl.
  destruct (m (world sys)). by intros [= <- <- <-].
Qed.

Lemma keeps_logfile_write fmt args :
  keeps (@dep_named W) (logfile_write W fmt args).
Proof. apply keeps_modify. by intros [d sys]. Qed.

Lemma keeps_as_str cls v : keeps (@dep_named W) (as_str cls v).
Proof. destruct v; first [apply keeps_ret | apply keeps_raise]. Qed.

Lemma keeps_check_call args cwd :
  keeps (@dep_named W) (check_call W File ext args cwd).
Proof.
  apply keeps_bind; [apply keeps_in_world | intros z].
  destruct (z =? 0); [apply keeps_ret | apply keeps_raise].
Qed.

Ltac keeps_step :=
  first [ apply keeps_ret | apply keeps_raise | apply keeps_lift_res
        | apply keeps_get | apply keeps_dep_expand | apply keeps_in_world
        | apply keeps_logfile_write | apply keeps_as_str
        | apply keeps_check_call
        | apply keeps_bind; [ | intros ?]
        | apply keeps_try_except; [ | intros ?]
        | apply keeps_modify; by intros [? ?]
        | match goal with
          | |- keeps _ (match ?x with _ => _ end) => destruct x
          end ].

Lemma keeps_fetch : keeps (@dep_named W) (fetch W File ext).
Proof.
  unfold fetch, fetch_open, openarchive, extract_archive.
  repeat keeps_step.
Qed.

Lemma keeps_checkout : keeps (@dep_named W) (checkout W File ext).
Proof.
  unfold checkout, checkout_commands. repeat keeps_step.
Qed.

Lemma key_eqb_str k n : PyVal.key_eqb k (VStr n) = true -> k = VStr n.
Proof.
  destruct k as [ | b | z | q | s | l | d]; simpl; try done.
  by intros ->%String.eqb_eq.
Qed.

Lemma deps_get_named n l d :
  Forall (fun kd => forall n, fst kd = VStr n -> name_inv (expander (snd kd))) l ->
  deps_get (VStr n) l = Some d -> name_inv (expander d).
Proof.
  induction 1 as [ | [k d'] l Hkd _ IH]; simpl; [done | ].
  destruct (PyVal.key_eqb k (VStr n)) eqn:Hk; [ | done].
  intros [= <-]. apply (Hkd n). simpl. by apply key_eqb_str.
Qed.

Lemma deps_set_named n d l :
  Forall (fun kd => forall n, fst kd = VStr n -> name_inv (expander (snd kd))) l ->
  name_inv (expander d) ->
  Forall (fun kd => forall n, fst kd = VStr n -> name_inv (expander (snd kd)))
    (deps_set (VStr n) d l).
Proof.
  intros Hl Hd. induction Hl as [ | [k d'] l Hkd Hl IH]; simpl.
  - constructor; [done | constructor].
  - destruct (PyVal.key_eqb k (VStr n)); constructor; auto.
Qed.

Lemma filter_subset subset st :
  (forall n, In n subset ->
             deps_get (VStr n) (dependencies (fst st)) <> None) ->
  _filter W (Some subset) st = (Ok (map VStr subset), st).
Proof.
  intros Hall. unfold _filter, bind, get.
  assert (Hnil : filter (fun name =>
              deps_get (VStr name) (dependencies (fst st)) = None) subset = []).
  { induction subset as [ | n subset IH]; [done | ].
    rewrite filter_cons.
    destruct (decide (deps_get (VStr n) (dependencies (fst st)) = None)) as [Hn | _].
    - exfalso. apply (Hall n); [by left | done].
    - apply IH. intros m Hm. apply Hall. by right. }
  rewrite Hnil. reflexivity.
Qed.

Lemma join_strings sep names :
  PyVal.join sep (map VStr names) = Ok (PyStr.join sep names).
Proof.
  induction names as [ | x [ | y names] IH]; try reflexivity.
  change (PyVal.join sep (map VStr (x :: y :: names)))
    with (match PyVal.join sep (map VStr (y :: names)) with
          | Ok t => Ok (x ++ sep ++ t)%string
          | e => e
          end).
  by rewrite IH.
Qed.

(** *** Operations never run out of fuel *)

Lemma finishes_ret {S A} (a : A) : finishes (@ret S A a).
Proof. by intros s. Qed.

Lemma finishes_raise {S A} e : finishes (@raise S A e).
Proof. by intros s. Qed.

Lemma finishes_get {S} : finishes (@get S).
Proof. by intros s. Qed.

Lemma finishes_modify {S} (f : S -> S) : finishes (modify f).
Proof. by intros s. Qed.

Lemma finishes_lift_res {S A} (r : res A) :
  r <> OutOfFuel -> finishes (@lift_res S A r).
Proof. by intros Hr s. Qed.

Lemma finishes_bind {S A B} (m : M S A) (k : A -> M S B) :
  finishes m -> (forall a, finishes (k a)) -> finishes (bind m k).
Proof.
  intros Hm Hk s. rewrite bind_run. specialize (Hm s).
  destruct (m s) as [[a | e | ] s']; [apply Hk | done | done].
Qed.

Lemma finishes_try_except {S A} (m : M S A) cls h :
  finishes m -> (forall e, finishes (h e)) -> finishes (try_except m cls h).
Proof.
  intros Hm Hh s. unfold try_except. specialize (Hm s).
  destruct (m s) as [[a | e | ] s']; try done.
  destruct (exn_class_eqb (exn_cls e) cls); [apply Hh | done].
Qed.

Lemma finishes_dep_expand key : finishes (dep_expand W key).
Proof.
  intros [d sys]. unfold dep_expand. cbn [fst snd].
  pose proof (expander_expand_total key (expander d)) as (Hr & _).
  by destruct (expander_expand key (expander d)).
Qed.

Lemma finishes_in_world {S A} (m : W -> outcome A * W) :
  finishes (@in_world W S A m).
Proof.
  intros [x sys]. unfold in_world. cbn [fst snd].
  by destruct (m (world sys)) as [[a | e] w].
Qed.

Lemma finishes_logfile_write {S} fmt args :
  finishes (@logfile_write W S fmt args).
Proof. by intros s. Qed.

Lemma finishes_as_str {S} cls v : finishes (@as_str S cls v).
Proof. destruct v; by intros ?. Qed.

Lemma finishes_check_call {S} args cwd :
  finishes (@check_call W File ext S args cwd).
Proof.
  apply finishes_bind; [apply finishes_in_world | intros z].
  destruct (z =? 0); [apply finishes_ret | apply finishes_raise].
Qed.

Ltac finishes_step :=
  first [ apply finishes_ret | apply finishes_raise | apply finishes_get
        | apply finishes_dep_expand | apply finishes_in_world
        | apply finishes_logfile_write | apply finishes_as_str
        | apply finishes_check_call | apply finishes_modify
        | apply finishes_bind; [ | intros ?]
        | apply finishes_try_except; [ | intros ?]
        | apply finishes_lift_res;
          match goal with
          | |- res_of_outcome ?o <> _ => by destruct o
          | |- PyVal.index ?v <> _ => by destruct v
          end
        | match goal with
          | |- finishes (match ?x with _ => _ end) => destruct x
          | |- finishes (if ?x then _ else _) => destruct x
          end ].

Lemma finishes_fetch : finishes (fetch W File ext).
Proof.
  unfold fetch, fetch_open, openarchive, extract_archive.
  repeat finishes_step.
Qed.

Lemma finishes_checkout : finishes (checkout W File ext).
Proof.
  unfold checkout, checkout_commands. repeat finishes_step.
Qed.

(** *** The run of a batch *)

Lemma deps_set_set k a b l :
  PyVal.key_eqb k k = true -> deps_set k b (deps_set k a l) = deps_set k b l.
Proof.
  intros Hk. induction l as [ | [k' x] l IH]; simpl.
  - by rewrite Hk.
  - destruct (PyVal.key_eqb k' k) eqn:Hk'; simpl; rewrite Hk';
      [done | by rewrite IH].
Qed.

Lemma deps_set_present k d m l :
  deps_get m l <> None -> deps_get m (deps_set k d l) <> None.
Proof.
  induction l as [ | [k' x] l IH]; simpl; [done | ].
  destruct (PyVal.key_eqb k' k) eqn:Hk; simpl;
    destruct (PyVal.key_eqb k' m); auto.
Qed.

(** The loop of the source, with its accumulator, makes the run of its
    list. *)
Lemma collect_failed_ran op :
  finishes op -> keeps (@dep_named W) op ->
  forall names acc st,
    coll_ok st ->
    (forall n, In n names ->
               deps_get (VStr n) (dependencies (fst st)) <> None) ->
    exists rs stop st',
      ran op names st rs stop st' /\
      collect_failed W op (map VStr names) acc st
      = match stop with
        | None => (Ok (acc ++ map VStr (failed_entries rs))%list, st')
        | Some e => (Raise e, st')
        end.
Proof.
  intros Hfin Hkeeps.
  induction names as [ | n names IH]; intros acc [coll sys] HI Hsub.
  - exists [], None, (coll, sys). split; [constructor | ].
    simpl. unfold ret. by rewrite app_nil_r.
  - cbn [fst] in Hsub.
    destruct (deps_get (VStr n) (dependencies coll)) as [d | ] eqn:Hd;
      [ | by destruct (Hsub n (or_introl eq_refl))].
    assert (Hrest : forall d1 m, In m names ->
              deps_get (VStr m) (deps_set (VStr n) d1 (dependencies coll))
              <> None).
    { intros d1 m Hm. apply deps_set_present, Hsub. by right. }
    cbn [map collect_failed]. rewrite bind_run.
    unfold on_dependency at 1. cbn [fst snd]. rewrite Hd.
    pose proof (Hfin (d, sys)) as Hf.
    pose proof (deps_get_named _ _ _ HI Hd) as Hnamed.
    destruct (op (d, sys)) as [r [d' sys']] eqn:Hop.
    pose proof (Hkeeps (d, sys) r (d', sys') Hnamed Hop) as Hnamed'.
    unfold dep_named in Hnamed'. cbn [fst] in Hnamed', Hf.
    destruct r as [[ | ] | e | ]; [ | | | done]; cbn [negb].
    + destruct (IH acc (store (VStr n) d' coll, sys'))
        as (rs & stop & st' & Hran & Heq).
      { unfold coll_ok, stored_ok. simpl. by apply deps_set_named. }
      { intros m Hm. by apply Hrest. }
      unfold store in Heq. rewrite Heq.
      exists ((n, true) :: rs), stop, st'.
      split; [by eapply ran_true | done].
    + rewrite bind_run. unfold on_dependency at 1.
      cbn [fst snd dependencies base_env dependency_types].
      rewrite deps_get_set by done.
      unfold dep_expand at 1. cbn [fst snd expander has_overrides].
      pose proof (expander_expand_total "name" (expander d')) as (Ht & _).
      destruct (expander_expand "name" (expander d')) as [rn e'] eqn:Hname.
      cbn [fst] in Ht.
      rewrite deps_set_set by exact (String.eqb_refl n).
      destruct rn as [v | e | ]; [ | | done].
      * destruct (expand_name_is_str "name" _ _ _ Hnamed' Hname eq_refl)
          as [name ->].
        destruct (IH (acc ++ [VStr name])%list
                    (store (VStr n) (with_expander d' e') coll, sys'))
          as (rs & stop & st' & Hran & Heq).
        { unfold coll_ok, stored_ok. simpl. apply deps_set_named; [done | ].
          pose proof (expander_expand_total "name" (expander d')) as _.
          unfold expander_expand in Hname.
          by eapply (expand_name_inv _ "name" (expander d')). }
        { intros m Hm. by apply Hrest. }
        unfold store, with_expander in Heq. rewrite Heq.
        exists ((name, false) :: rs), stop, st'.
        split; [by eapply ran_false | ].
        destruct stop; [done | ]. simpl. by rewrite <- app_assoc.
      * exists [], (Some e), (store (VStr n) (with_expander d' e') coll, sys').
        split; [by eapply ran_name_raised | done].
    + exists [], (Some e), (store (VStr n) d' coll, sys').
      split; [by eapply ran_raised | done].
Qed.

Lemma ran_length (op : M (Dependency * Sys W) bool) names st rs st' :
  ran op names st rs None st' -> List.length rs = List.length names.
Proof.
  intros H. remember None as stop eqn:Hstop.
  induction H; simpl; try done; by rewrite IHran.
Qed.

Lemma failed_entries_nil rs :
  failed_entries rs = [] <-> Forall (fun r => snd r = true) rs.
Proof.
  induction rs as [ | [name [ | ]] rs IH]; simpl.
  - split; [constructor | done].
  - rewrite IH. split; [by constructor | by inversion 1].
  - split; [done | by inversion 1].
Qed.

Lemma batch_result_true message rs stop
    (st' : DependencyCollection * Sys W) :
  fst (batch_result message rs stop st') = Ok true <->
  stop = None /\ Forall (fun r => snd r = true) rs.
Proof.
  unfold batch_result. destruct stop as [e | ].
  - split; [done | by intros [? _]].
  - rewrite <- failed_entries_nil.
    destruct (failed_entries rs); simpl; split; try done; by intros [_ ?].
Qed.

Lemma batch_ran op batch message subset st :
  finishes op -> keeps (@dep_named W) op ->
  (forall subset st,
     batch (Some subset) st =
     bind (_filter W (Some subset)) (fun ds =>
     bind (collect_failed W op ds [])
       (report_failed W message)) st) ->
  coll_ok st ->
  (forall n, In n subset ->
             deps_get (VStr n) (dependencies (fst st)) <> None) ->
  exists rs stop st',
    ran op subset st rs stop st' /\
    batch (Some subset) st = batch_result message rs stop st' /\
    (stop = None -> List.length rs = List.length subset) /\
    (fst (batch (Some subset) st) = Ok true <->
     stop = None /\ Forall (fun r => snd r = true) rs).
Proof.
  intros Hfin Hop Hbatch HI Hsub.
  destruct (collect_failed_ran op Hfin Hop subset [] st HI Hsub)
    as (rs & stop & st' & Hran & Heq).
  assert (Hrun : batch (Some subset) st = batch_result message rs stop st').
  { rewrite Hbatch, bind_run, (filter_subset _ _ Hsub), bind_run, Heq.
    unfold batch_result. destruct stop as [e | ]; [done | ].
    cbn [app]. unfold report_failed.
    destruct (failed_entries rs) as [ | x names]; [done | ].
    change (map VStr (x :: names)) with (VStr x :: map VStr names) at 1.
    cbv iota. unfold bind at 1, lift_res.
    change (VStr x :: map VStr names) with (map VStr (x :: names)).
    rewrite join_strings. unfold bind, logfile_write, modify, ret.
    destruct st'. reflexivity. }
  exists rs, stop, st'. split_and!; [done | done | | ].
  - intros ->. by eapply ran_length.
  - rewrite Hrun. apply batch_result_true.
Qed.

(** C2, amended.  On a collection whose records stored under a string
    have a string as [name], for every list of names that are all in
    the collection, [fetch] and [checkout] make the run of the list:
    they apply the operation of the record to every listed record in
    turn, also after one returned [False], and end at once, with its
    exception, at the first operation that raises (or at the first
    lookup of the name of a record whose operation returned [False]
    that raises); the records listed after it are not touched and
    nothing is reported.  When no exception ended the run, every
    listed record has been run; they return [True] exactly when every
    operation returned [True], and otherwise write one line with the
    names of all the records whose operation returned [False] and
    return [False]. *)
Theorem batch_attempts_every_entry (subset : list string)
    (st : DependencyCollection * Sys W) :
  stored_ok (fst st) ->
  (forall n, In n subset ->
             deps_get (VStr n) (dependencies (fst st)) <> None) ->
  (exists rs stop st',
     ran (fetch W File ext) subset st rs stop st' /\
     collection_fetch W File ext (Some subset) st
     = batch_result "Failed to fetch some dependencies: " rs stop st' /\
     (stop = None -> List.length rs = List.length subset) /\
     (fst (collection_fetch W File ext (Some subset) st) = Ok true <->
      stop = None /\ Forall (fun r => snd r = true) rs)) /\
  (exists rs stop st',
     ran (checkout W File ext) subset st rs stop st' /\
     collection_checkout W File ext (Some subset) st
     = batch_result "Failed to check out some dependencies: " rs stop st' /\
     (stop = None -> List.length rs = List.length subset) /\
     (fst (collection_checkout W File ext (Some subset) st) = Ok true <->
      stop = None /\ Forall (fun r => snd r = true) rs)).
Proof.
  intros HI Hsub. split.
  - apply batch_ran; auto using keeps_fetch, finishes_fetch.
  - apply batch_ran; auto using keeps_checkout, finishes_checkout.
Qed.

End BatchProperties.

(** Collections are built with string names: a new collection has no
    record, and [create_dependency] stores a record under the [name] of
    its environment. *)
Lemma new_collection_stored_ok env : stored_ok (new_collection env).
Proof. constructor. Qed.

Lemma key_eqb_str_l k n : PyVal.key_eqb (VStr n) k = true -> k = VStr n.
Proof.
  destruct k as [ | b | z | q | s | l | d]; simpl; try done.
  by intros ->%String.eqb_eq.
Qed.

Lemma create_dependency_stored_ok {W} defn overrides
    (st : DependencyCollection * Sys W) r st' :
  stored_ok (fst st) -> create_dependency W defn overrides st = (r, st') ->
  stored_ok (fst st').
Proof.
  destruct st as [coll sys]. intros HI.
  assert (Htail : forall env r st',
    (if match env !! "ignore" with
        | Some v => PyVal.truthy v
        | None => false
        end
     then ret tt
     else match env !! "name" with
          | Some name =>
              if PyVal.hashable name
              then modify (fun st : DependencyCollection * Sys W =>
                     ({| base_env := base_env (fst st);
                         dependency_types := dependency_types (fst st);
                         dependencies :=
                           deps_set name
                             (new_dependency name env (0 <? size overrides)%nat)
                             (dependencies (fst st)) |}, snd st))
              else raise PyVal.unhashable
          | None =>
              raise (mk_exn ValueError
                       [VStr "Dependency definition contains no name"])
          end) (coll, sys) = (r, st') -> stored_ok (fst st')).
  { intros env r0 st0.
    destruct (match env !! "ignore" with
              | Some v => PyVal.truthy v
              | None => false
              end); [by intros [= <- <-] | ].
    destruct (env !! "name") as [name | ] eqn:Hname; [ | by intros [= <- <-]].
    destruct (PyVal.hashable name); [ | by intros [= <- <-]].
    intros [= <- <-]. unfold stored_ok in *. simpl.
    set (d := new_dependency name env (0 <? size overrides)%nat).
    assert (Hd : forall n, name = VStr n -> name_inv (expander d)).
    { intros n ->. split; [by exists n | ]. intros v. simpl.
      by rewrite lookup_empty. }
    clearbody d. clear Hname. cbn [fst] in HI. revert HI.
    generalize (dependencies coll). intros l0 HI.
    induction HI as [ | [k d'] l Hkd Hl IH]; simpl.
    - constructor; [done | constructor].
    - destruct (PyVal.key_eqb k name) eqn:Hk; constructor; auto.
      simpl. intros n ->. apply (Hd n). by apply key_eqb_str_l. }
  unfold create_dependency, bind at 1, get at 1. cbn [fst].
  unfold bind at 1.
  destruct (defn !! "type") as [t | ].
  - unfold bind at 1, lift_res at 1.
    destruct (types_getitem (dependency_types coll) t) as [defaults | e | ].
    + apply Htail.
    + by intros [= <- <-].
    + by intros [= <- <-].
  - apply Htail.
Qed.

Lemma coll_AB_stored_ok : stored_ok coll_AB.
Proof.
  unfold coll_AB, bind.
  destruct (create_dependency unit defn_A override_A (new_collection linux_env, quiet))
    as [r1 st1] eqn:H1.
  pose proof (create_dependency_stored_ok _ _ (new_collection linux_env, quiet)
                _ _ (new_collection_stored_ok linux_env) H1) as HI1.
  destruct r1 as [[] | e | ]; [ | by destruct st1 ..].
  destruct (create_dependency unit defn_B ∅ st1) as [r2 [coll2 sys2]] eqn:H2.
  exact (create_dependency_stored_ok _ _ _ _ _ HI1 H2).
Qed.

Lemma batch_attempts_every_entry_witness :
  (exists rs stop st',
     ran (fetch (list event) string (scripted only_B)) ["A"; "B"]
       (coll_AB, nothing_happened) rs stop st' /\
     collection_fetch (list event) string (scripted only_B)
       (Some ["A"; "B"]) (coll_AB, nothing_happened)
     = batch_result "Failed to fetch some dependencies: " rs stop st' /\
     (stop = None -> List.length rs = List.length ["A"; "B"]) /\
     (fst (collection_fetch (list event) string (scripted only_B)
             (Some ["A"; "B"]) (coll_AB, nothing_happened)) = Ok true <->
      stop = None /\ Forall (fun r => snd r = true) rs)) /\
  (exists rs stop st',
     ran (checkout (list event) string (scripted only_B)) ["A"; "B"]
       (coll_AB, nothing_happened) rs stop st' /\
     collection_checkout (list event) string (scripted only_B)
       (Some ["A"; "B"]) (coll_AB, nothing_happened)
     = batch_result "Failed to check out some dependencies: " rs stop st' /\
     (stop = None -> List.length rs = List.length ["A"; "B"]) /\
     (fst (collection_checkout (list event) string (scripted only_B)
             (Some ["A"; "B"]) (coll_AB, nothing_happened)) = Ok true <->
      stop = None /\ Forall (fun r => snd r = true) rs)).
Proof.
  apply (batch_attempts_every_entry (list event) string (scripted only_B)
           ["A"; "B"] (coll_AB, nothing_happened)).
  - unfold stored_ok. cbn [fst].
    let l := eval vm_compute in (dependencies coll_AB) in
    change (dependencies coll_AB) with l.
    repeat (constructor;
            [intros n _; split;
             [eexists; vm_compute; reflexivity
             | intros v; vm_compute; discriminate] | ]).
    constructor.
  - intros n [<- | [<- | []]]; vm_compute; discriminate.
Defined.

(** The archive of C cannot be named: its [fetch] raises, the batch
    raises the same and ends there.  B, which can be fetched and is
    fetched when it is listed alone, is not fetched, and nothing is
    written to the log. *)
Lemma raising_entry_ends_the_batch :
  fst (collection_fetch (list event) string (scripted only_B)
         (Some ["C"; "B"]) (coll_CB, nothing_happened))
  = Raise (key_undefined "archive-filename") /\
  snd (snd (collection_fetch (list event) string (scripted only_B)
              (Some ["C"; "B"]) (coll_CB, nothing_happened)))
  = nothing_happened /\
  fst (collection_fetch (list event) string (scripted only_B)
         (Some ["B"]) (coll_CB, nothing_happened))
  = Ok true /\
  world (snd (snd (collection_fetch (list event) string (scripted only_B)
                     (Some ["B"]) (coll_CB, nothing_happened))))
  = [Made "/work/dependencies/Linux-x64/";
     Extracted {| ar_kind := TarFile; ar_entries := [("root/f1", "data")] |}
       "/work/dependencies/Linux-x64/";
     Closed "root/f1"].
Proof. vm_compute. auto. Qed.

(** A fails, B is still fetched, and the report names A. *)
Example fetch_A_fails_B_succeeds :
  match collection_fetch (list event) string (scripted only_B)
          (Some ["A"; "B"]) (coll_AB, nothing_happened) with
  | (r, (_, sys)) =>
      r = Ok false /\
      world sys
      = [Made "/work/dependencies/Linux-x64/";
         Extracted {| ar_kind := TarFile; ar_entries := [("root/f1", "data")] |}
           "/work/dependencies/Linux-x64/";
         Closed "root/f1"] /\
      List.last (logfile sys) ("", [])
      = ("Failed to fetch some dependencies: A\n", [])
  end.
Proof. vm_compute. auto. Qed.

(** ** More about the expander *)

(** *** Values that are kept as they are *)

Lemma tokenize_fuel_plain n : forall s,
  PyStr.contains "$" s = false -> (String.length s <= n)%nat ->
  tokenize_fuel n s = text_tokens s.
Proof.
  induction n as [ | n IH]; intros s Hs Hn.
  { destruct s; [done | simpl in Hn; lia]. }
  destruct s as [ | c s]; [done | ].
  simpl in Hs, Hn. apply orb_false_iff in Hs as [Hc Hs].
  assert (Hrest : TLit c :: tokenize_fuel n s = TLit c :: text_tokens s).
  { f_equal. apply IH; [done | lia]. }
  destruct c as [[] [] [] [] [] [] [] []]; try discriminate Hc;
    destruct s; exact Hrest.
Qed.

Lemma sub_pieces_text rec s self :
  sub_pieces rec (text_tokens s) self = (Ok (text_pieces s), self).
Proof.
  induction s as [ | c s IH]; simpl; [done | ].
  unfold bind, ret. by rewrite IH.
Qed.

Lemma join_pieces_text s : join_pieces (text_pieces s) = Ok s.
Proof. induction s as [ | c s IH]; simpl; [done | ]. by rewrite IH. Qed.

Lemma template_sub_plain rec s self :
  PyStr.contains "$" s = false ->
  template_sub rec s self = (Ok (VStr s), self).
Proof.
  intros Hs. unfold template_sub, tokenize.
  rewrite tokenize_fuel_plain by (done || lia).
  unfold bind. rewrite sub_pieces_text. unfold lift_res, ret.
  by rewrite join_pieces_text.
Qed.

Lemma template_sub_shape rec s self c self' :
  template_sub rec s self = (Ok c, self') -> shape (VStr s) c.
Proof.
  intros H. destruct (template_sub_is_str _ _ _ _ _ H) as [r ->]. simpl.
  intros Hs. rewrite (template_sub_plain rec s self Hs) in H. congruence.
Qed.

Lemma expandvalue_list rec l self :
  _expandvalue rec (VList l) self
  = bind (expand_each rec l) (fun xs => ret (VList xs)) self.
Proof.
  assert (Heach : forall l s,
    (fix each (l0 : list value) {struct l0} : M EnvironmentExpander (list value) :=
       match l0 with
       | [] => ret []
       | x :: l' =>
           bind (_expandvalue rec x) (fun y =>
           bind (each l') (fun ys => ret (y :: ys)))
       end) l s = expand_each rec l s).
  { clear. induction l as [ | x l IH]; intros s; [done | ].
    simpl. unfold bind.
    destruct (_expandvalue rec x s) as [[y | e | ] s1]; try done.
    by rewrite IH. }
  simpl. unfold bind. by rewrite Heach.
Qed.

Lemma expand_each_shape rec l :
  Forall (fun v => forall self c self',
            _expandvalue rec v self = (Ok c, self') -> shape v c) l ->
  forall self xs self',
    expand_each rec l self = (Ok xs, self') -> shape (VList l) (VList xs).
Proof.
  induction 1 as [ | x l Hx _ IHl]; intros self xs self'; simpl.
  - by intros [= <- _].
  - unfold bind at 1.
    destruct (_expandvalue rec x self) as [[y | e | ] s2] eqn:Hy; try done.
    unfold bind at 1.
    destruct (expand_each rec l s2) as [[ys | e | ] s3] eqn:Hys; try done.
    intros [= <- _]. split; [by eapply Hx | ].
    by apply (IHl _ _ _ Hys).
Qed.

(** Whatever [expand] does, the value [_expandvalue] returns has the
    shape of the raw value. *)
Lemma expandvalue_shape rec v : forall self c self',
  _expandvalue rec v self = (Ok c, self') -> shape v c.
Proof.
  induction v as [ | b | n | q | s | l IH | d] using value_ind_list;
    intros self c self'.
  - by intros [= <- _].
  - by intros [= <- _].
  - by intros [= <- _].
  - by intros [= <- _].
  - apply template_sub_shape.
  - rewrite expandvalue_list. unfold bind.
    destruct (expand_each rec l self) as [[xs | e | ] s1] eqn:Hrun; try done.
    intros [= <- _]. by eapply expand_each_shape.
  - destruct d; simpl; [ | done]. by intros [= <- _].
Qed.

Lemma shape_literal v : forall c, is_literal v = true -> shape v c -> c = v.
Proof.
  induction v as [ | b | n | q | s | l IH | d] using value_ind_list;
    intros c Hv Hsh.
  - by destruct c.
  - destruct c; simpl in Hsh; try done. by subst.
  - destruct c; simpl in Hsh; try done. by subst.
  - destruct c; simpl in Hsh; try done. by subst.
  - destruct c; simpl in Hsh, Hv; try done.
    apply negb_true_iff in Hv. by rewrite (Hsh Hv).
  - destruct c as [ | | | | | l' | ]; try done. simpl in Hsh, Hv.
    f_equal. revert l' Hv Hsh.
    induction IH as [ | x l Hx _ IHl]; intros [ | y l']; simpl; try done.
    intros Hl [Hxy Hrest]. apply andb_true_iff in Hl as [Hlx Hll].
    f_equal; [by apply Hx | by apply IHl].
  - destruct d; [ | done]. destruct c as [ | | | | | | d']; try done.
    by destruct d'.
Qed.

Lemma shape_refl v : is_literal v = true -> shape v v.
Proof.
  induction v as [ | b | n | q | s | l IH | d] using value_ind_list; simpl; try done.
  - induction IH as [ | x l Hx _ IHl]; simpl; [done | ].
    intros Hl. apply andb_true_iff in Hl as [Hlx Hll].
    split; [by apply Hx | by apply IHl].
  - by destruct d.
Qed.

(** [_expandvalue] returns a literal as it is and calls nothing. *)
Lemma expandvalue_literal rec v : forall self,
  is_literal v = true -> _expandvalue rec v self = (Ok v, self).
Proof.
  induction v as [ | b | n | q | s | l IH | d] using value_ind_list;
    intros self Hv; try done.
  - simpl in *. apply negb_true_iff in Hv. by apply template_sub_plain.
  - rewrite expandvalue_list. unfold bind.
    assert (Heach : expand_each rec l self = (Ok l, self)).
    { simpl in Hv. clear -IH Hv. revert Hv.
      induction IH as [ | x l Hx _ IHl]; simpl; [done | ].
      intros Hl. apply andb_true_iff in Hl as [Hlx Hll].
      unfold bind. rewrite (Hx self Hlx), (IHl Hll). done. }
    by rewrite Heach.
  - by destruct d.
Qed.

Lemma consistent_new E : consistent E (new_expander E).
Proof.
  split_and!; [done | | ].
  - intros k c Hk. simpl in Hk. by rewrite lookup_empty in Hk.
  - intros k v Hk. simpl in Hk. set_solver.
Qed.

Lemma consistent_enter E key self :
  consistent E self ->
  (forall v, E !! key = Some v -> is_literal v = false) ->
  consistent E (enter key self).
Proof.
  intros (HE & HC & HX) Hkey. split_and!; [done | done | ].
  intros k v Hk. simpl in Hk.
  apply elem_of_union in Hk as [Hk | Hk]; [ | by apply HX].
  apply elem_of_singleton in Hk. subst k. apply Hkey.
Qed.

Lemma consistent_leave E key v r self r' self' :
  consistent E self -> E !! key = Some v ->
  (forall c, r = Ok c -> shape v c) ->
  leave key (r, self) = (r', self') -> consistent E self'.
Proof.
  intros (HE & HC & HX) Hkey Hshape.
  destruct r as [result | e | ]; simpl; try by intros [= <- <-].
  assert (Hins : forall k c, <[key := result]> (cache self) !! k = Some c ->
                   exists w, env_dict self !! k = Some w /\ shape w c).
  { intros k c. destruct (decide (key = k)) as [<- | Hne].
    - rewrite lookup_insert_eq. intros [= <-]. exists v.
      rewrite HE. split; [done | by apply Hshape].
    - rewrite lookup_insert_ne by done. apply HC. }
  destruct (decide (key ∈ expandset self)); intros [= <- <-];
    (split_and!; [done | exact Hins | ]); simpl.
  - intros k w Hk. apply HX. set_solver.
  - exact HX.
Qed.

(** Every call of [expand], nested ones included, keeps the state
    consistent. *)
Lemma expand_consistent E fuel : forall key, keeps (consistent E) (expand fuel key).
Proof.
  induction fuel as [ | fuel IH]; intros key self r self' HI.
  { by intros [= <- <-]. }
  destruct (cache self !! key) as [v | ] eqn:Hc.
  { rewrite (expand_cached _ _ _ v Hc). by intros [= <- <-]. }
  destruct (decide (key ∈ expandset self)) as [Hin | Hnin].
  { rewrite expand_in_progress by done. by intros [= <- <-]. }
  pose proof HI as (HE & HC & HX).
  destruct (env_dict self !! key) as [v | ] eqn:Hkey.
  - rewrite (expand_defined _ _ _ v) by done.
    destruct (is_literal v) eqn:Hlit.
    + rewrite expandvalue_literal by done. simpl.
      destruct (decide (key ∈ {[key]} ∪ expandset self)) as [_ | Hn];
        [ | set_solver].
      intros [= <- <-]. split_and!; [done | | ]; simpl.
      * intros k c. simpl. destruct (decide (key = k)) as [<- | Hne].
        -- rewrite lookup_insert_eq. intros [= <-]. exists v.
           split; [done | by apply shape_refl].
        -- rewrite lookup_insert_ne by done. apply HC.
      * intros k w Hk. apply HX. set_solver.
    + destruct (_expandvalue (expand fuel) v (enter key self)) as [r2 self2] eqn:Hv.
      apply (consistent_leave E key v); [ | by rewrite <- HE | ].
      * eapply (preserves__expandvalue (consistent E) (expand fuel) IH v);
          [ | exact Hv].
        apply consistent_enter; [done | ].
        intros w Hw. rewrite <- HE, Hkey in Hw. by injection Hw as <-.
      * intros c ->. by eapply expandvalue_shape.
  - rewrite expand_undefined by done. intros [= <- <-].
    apply consistent_enter; [done | ].
    intros w Hw. by rewrite <- HE, Hkey in Hw.
Qed.

Lemma reachable_consistent E self : reachable E self -> consistent E self.
Proof.
  induction 1 as [ | self key _ IH]; [apply consistent_new | ].
  unfold expander_expand.
  destruct (expand (enough_fuel self) key self) as [r self'] eqn:Hx.
  by eapply expand_consistent.
Qed.

(** *** What a lookup returns *)

(** Whatever was looked up before, a lookup that returns a value returns
    one with the shape of the raw value of the key: a string for a
    string (the same string when it has no dollar sign), a list of the
    same length for a list, element by element, and the value itself for
    [None], a boolean or a number. *)
Theorem lookup_has_shape E self key c self' :
  reachable E self -> expander_expand key self = (Ok c, self') ->
  exists v, E !! key = Some v /\ shape v c.
Proof.
  intros Hreach Hx. apply reachable_consistent in Hreach.
  unfold expander_expand in Hx.
  destruct (expand_consistent E _ key _ _ _ Hreach Hx) as (HE & HC & _).
  rewrite <- HE. apply HC. by eapply expand_ok_cached.
Qed.

Lemma lookup_has_shape_witness :
  exists v, linux_env !! "platform" = Some v /\ shape v (VStr "Linux-x64").
Proof.
  apply (lookup_has_shape linux_env (new_expander linux_env) "platform"
           (VStr "Linux-x64")
           (remember "platform" (VStr "Linux-x64") (new_expander linux_env))).
  - constructor.
  - vm_compute. reflexivity.
Defined.

Lemma expand_literal fuel E self key v :
  consistent E self -> E !! key = Some v -> is_literal v = true ->
  expand (S fuel) key self = (Ok v, remember key v self).
Proof.
  intros (HE & HC & HX) Hkey Hlit.
  destruct (cache self !! key) as [c | ] eqn:Hc.
  { rewrite (expand_cached _ _ _ c Hc).
    destruct (HC _ _ Hc) as (w & Hw & Hsh).
    rewrite HE, Hkey in Hw. injection Hw as <-.
    rewrite (shape_literal _ _ Hlit Hsh) in *.
    unfold remember. rewrite insert_id by done. by destruct self. }
  destruct (decide (key ∈ expandset self)) as [Hin | Hnin].
  { by rewrite (HX _ _ Hin Hkey) in Hlit. }
  rewrite (expand_defined _ _ _ v) by (by rewrite ?HE).
  rewrite expandvalue_literal by done. simpl.
  destruct (decide (key ∈ {[key]} ∪ expandset self)) as [_ | Hn];
    [ | set_solver].
  unfold remember. do 2 f_equal. set_solver.
Qed.

(** Whatever was looked up before, and whether those lookups returned or
    raised, the lookup of a key whose raw value is a literal returns the
    raw value and changes nothing but the cache entry of the key. *)
Theorem lookup_of_literal E self key v :
  reachable E self -> E !! key = Some v -> is_literal v = true ->
  expander_expand key self = (Ok v, remember key v self).
Proof.
  intros Hreach Hkey Hlit. unfold expander_expand, enough_fuel.
  apply (expand_literal _ E); [ | done | done].
  by apply reachable_consistent.
Qed.

Lemma lookup_of_literal_witness :
  expander_expand "platform"
    (snd (expander_expand "missing" (new_expander linux_env)))
  = (Ok (VStr "Linux-x64"),
     remember "platform" (VStr "Linux-x64")
       (snd (expander_expand "missing" (new_expander linux_env)))).
Proof.
  apply (lookup_of_literal linux_env
           (snd (expander_expand "missing" (new_expander linux_env)))
           "platform" (VStr "Linux-x64")).
  - apply reachable_expand. apply reachable_new.
  - reflexivity.
  - reflexivity.
Defined.

(** The lookup of a key that the environment does not have raises: the
    undefined-key error the first time, which leaves the key in the
    in-progress set, and the recursive-expansion error from then on. *)
Theorem lookup_of_absent_key E self key :
  reachable E self -> E !! key = None ->
  expander_expand key self
  = if decide (key ∈ expandset self)
    then (Raise (recursive_expansion key), self)
    else (Raise (key_undefined key), enter key self).
Proof.
  intros Hreach Hkey.
  destruct (reachable_consistent _ _ Hreach) as (HE & HC & _).
  assert (Hc : cache self !! key = None).
  { destruct (cache self !! key) as [c | ] eqn:Hc; [ | done].
    destruct (HC _ _ Hc) as (w & Hw & _). by rewrite HE, Hkey in Hw. }
  unfold expander_expand, enough_fuel.
  destruct (decide (key ∈ expandset self)) as [Hin | Hnin].
  - by apply expand_in_progress.
  - apply expand_undefined; [done | done | by rewrite HE].
Qed.

Lemma lookup_of_absent_key_witness :
  expander_expand "missing" (new_expander linux_env)
  = if decide ("missing" ∈ expandset (new_expander linux_env))
    then (Raise (recursive_expansion "missing"), new_expander linux_env)
    else (Raise (key_undefined "missing"), enter "missing" (new_expander linux_env)).
Proof.
  apply (lookup_of_absent_key linux_env (new_expander linux_env) "missing").
  - apply reachable_new.
  - reflexivity.
Defined.

(** *** The cache *)

(** No call of [expand] changes a cache entry. *)
Lemma expand_keeps_cached k v fuel : forall key,
  keeps (fun s => cache s !! k = Some v) (expand fuel key).
Proof.
  induction fuel as [ | fuel IH]; intros key self r self' HI.
  { by intros [= <- <-]. }
  destruct (cache self !! key) as [c | ] eqn:Hc.
  { rewrite (expand_cached _ _ _ c Hc). by intros [= <- <-]. }
  destruct (decide (key ∈ expandset self)) as [Hin | Hnin].
  { rewrite expand_in_progress by done. by intros [= <- <-]. }
  assert (Hne : key <> k) by (intros ->; congruence).
  destruct (env_dict self !! key) as [w | ] eqn:Hkey.
  - rewrite (expand_defined _ _ _ w) by done.
    destruct (_expandvalue (expand fuel) w (enter key self)) as [r2 self2] eqn:Hv.
    assert (H2 : cache self2 !! k = Some v).
    { by eapply (preserves__expandvalue _ (expand fuel) IH w); [ | exact Hv]. }
    destruct r2 as [result | e | ]; simpl; try by intros [= <- <-].
    destruct (decide (key ∈ expandset self2)); intros [= <- <-]; simpl;
      by rewrite lookup_insert_ne.
  - rewrite expand_undefined by done. by intros [= <- <-].
Qed.

(** Once a lookup has returned a value, every later lookup of the same
    key on the same expander returns that value and changes nothing,
    whatever was looked up in between and whether those lookups
    returned or raised. *)
Theorem lookup_is_memoized key self v self1 self2 :
  expander_expand key self = (Ok v, self1) -> lookups self1 self2 ->
  expander_expand key self2 = (Ok v, self2).
Proof.
  intros Hx Hl. apply expand_ok_cached in Hx.
  induction Hl as [s | s k s' _ IH]; [by apply expand_cached | ].
  apply IH. unfold expander_expand.
  destruct (expand (enough_fuel s) k s) as [r s1] eqn:Hk.
  by eapply (expand_keeps_cached key v).
Qed.

Lemma lookup_is_memoized_witness :
  let self1 := snd (expander_expand "flag" (new_expander flag_env)) in
  let self2 := snd (expander_expand "missing" self1) in
  expander_expand "flag" self2 = (Ok (VStr "on"), self2).
Proof.
  intros self1 self2.
  apply (lookup_is_memoized "flag" (new_expander flag_env) (VStr "on") self1 self2).
  - vm_compute. reflexivity.
  - apply (lookups_step self1 "missing"). apply lookups_refl.
Defined.

(** *** Conditionals that are not well formed *)

Lemma contains_rstrip c x :
  PyStr.contains c x = false -> PyStr.contains c (PyStr.rstrip x) = false.
Proof.
  induction x as [ | d x IH]; simpl; [done | ].
  intros H. apply orb_false_iff in H as [Hd Hx]. specialize (IH Hx).
  destruct (PyStr.rstrip x) as [ | e r].
  - destruct (PyStr.is_space d); [done | ]. simpl. by rewrite Hd.
  - simpl in *. by rewrite Hd, IH.
Qed.

Lemma tokenize_parens b :
  PyStr.contains "}" b = false ->
  tokenize ("${" ++ b ++ "}") = [TMatch (MParens b)].
Proof.
  intros Hb. unfold tokenize.
  change ("${" ++ b ++ "}")%string
    with (String "$" (String "{" (b ++ String "}" EmptyString))).
  cbn [String.length tokenize_fuel].
  change (PyStr.is_word_start "{") with false.
  change (Ascii.eqb "{" "{") with true. cbv iota.
  rewrite (split1_app_char _ _ _ Hb). reflexivity.
Qed.

Lemma expandconditional_malformed rec condition rest self :
  PyStr.contains "?" condition = false -> PyStr.contains ":" rest = false ->
  expandconditional rec (condition ++ "?" ++ rest) self
  = (Raise malformed_conditional, self).
Proof.
  intros Hc Hr. unfold expandconditional.
  change (condition ++ "?" ++ rest)%string
    with (condition ++ String "?" rest)%string.
  rewrite contains_app_char, (split1_app_char _ _ _ Hc), Hr. done.
Qed.

Lemma replacematch_malformed rec condition rest self :
  PyStr.contains "?" condition = false -> PyStr.contains ":" rest = false ->
  replacematch rec (MParens (condition ++ "?" ++ rest)) self
  = (Raise malformed_conditional, self).
Proof.
  intros Hc Hr. unfold replacematch, PyStr.strip.
  change (condition ++ "?" ++ rest)%string
    with (condition ++ String "?" rest)%string.
  rewrite lstrip_app_char by reflexivity.
  rewrite rstrip_app_char by reflexivity.
  rewrite contains_app_char.
  apply (expandconditional_malformed rec (PyStr.lstrip condition)
           (PyStr.rstrip rest));
    [by apply contains_lstrip | by apply contains_rstrip].
Qed.

(** A value [${condition?rest}] whose text after the question mark has
    no colon: the lookup of its key raises the malformed-conditional
    error, without looking the condition up; the key stays in the
    in-progress set and nothing is cached. *)
Theorem lookup_of_malformed_conditional key condition rest self :
  PyStr.contains "?" condition = false -> PyStr.contains ":" rest = false ->
  PyStr.contains "}" (condition ++ "?" ++ rest) = false ->
  env_dict self !! key = Some (VStr ("${" ++ (condition ++ "?" ++ rest) ++ "}")) ->
  cache self !! key = None -> key ∉ expandset self ->
  expander_expand key self = (Raise malformed_conditional, enter key self).
Proof.
  intros Hc Hr Hb Hkey Hcache Hnin. unfold expander_expand, enough_fuel.
  rewrite (expand_defined _ _ _ _ Hcache Hnin Hkey).
  cbn [_expandvalue]. unfold template_sub.
  rewrite (tokenize_parens _ Hb). cbn [sub_pieces]. unfold bind at 1 2.
  by rewrite replacematch_malformed.
Qed.

Lemma lookup_of_malformed_conditional_witness :
  expander_expand "v" (new_expander (<["v" := VStr "${flag?yes}"]> flag_env))
  = (Raise malformed_conditional,
     enter "v" (new_expander (<["v" := VStr "${flag?yes}"]> flag_env))).
Proof.
  apply (lookup_of_malformed_conditional "v" "flag" "yes"
           (new_expander (<["v" := VStr "${flag?yes}"]> flag_env)));
    try reflexivity.
  simpl. set_solver.
Defined.

(** ** Paths and archives *)

(** *** The opener of a path *)

Lemma split1_none c s : PyStr.split1 c s = None -> PyStr.contains c s = false.
Proof.
  induction s as [ | d s IH]; simpl; [done | ].
  destruct (Ascii.eqb c d); [done | ].
  destruct (PyStr.split1 c s) as [[a b] | ]; [done | ]. auto.
Qed.

Lemma split1_some c s : forall w r,
  PyStr.split1 c s = Some (w, r) ->
  s = (w ++ String c r)%string /\ PyStr.contains c w = false.
Proof.
  induction s as [ | d s IH]; intros w r; simpl; [done | ].
  destruct (Ascii.eqb c d) eqn:Hd.
  - intros [= <- <-]. apply Ascii.eqb_eq in Hd. by subst.
  - destruct (PyStr.split1 c s) as [[a b] | ]; [ | done].
    intros [= <- <-]. destruct (IH _ _ eq_refl) as [-> Ha].
    simpl. by rewrite Hd.
Qed.

(** A string without [c] does not start with a text that has [c]. *)
Lemma startswith_no_char c p x : forall s,
  PyStr.contains c s = false ->
  PyStr.startswith (p ++ String c x) s = false.
Proof.
  induction p as [ | a p IH]; intros [ | b s]; simpl; try done.
  - intros H. apply orb_false_iff in H as [Hb _]. by rewrite Hb.
  - intros H. apply orb_false_iff in H as [_ Hs]. rewrite (IH _ Hs).
    apply andb_false_r.
Qed.

Lemma startswith_scheme c p : forall w r,
  PyStr.contains c p = false -> PyStr.contains c w = false ->
  PyStr.startswith (p ++ String c EmptyString) (w ++ String c r)
  = String.eqb p w.
Proof.
  induction p as [ | a p IH]; intros [ | b w] r; simpl.
  - by rewrite Ascii.eqb_refl.
  - intros _ H. apply orb_false_iff in H as [Hb _]. by rewrite Hb.
  - intros H _. apply orb_false_iff in H as [Ha _].
    rewrite Ascii.eqb_sym. by rewrite Ha.
  - intros Hp Hw. apply orb_false_iff in Hp as [_ Hp].
    apply orb_false_iff in Hw as [_ Hw]. by rewrite (IH _ _ Hp Hw).
Qed.

Lemma span_alpha_no_colon s :
  PyStr.contains ":" s = false ->
  PyStr.startswith ":" (snd (span_alpha s)) = false.
Proof.
  induction s as [ | c s IH]; [done | ].
  intros H. simpl in H. apply orb_false_iff in H as [Hc Hs].
  simpl. destruct (PyStr.is_word_start c).
  - specialize (IH Hs). by destruct (span_alpha s).
  - simpl. by rewrite Hc.
Qed.

Lemma span_alpha_word w r :
  is_alpha_word w = true ->
  span_alpha (w ++ String ":" r) = (w, String ":" r).
Proof.
  induction w as [ | c w IH]; simpl; [done | ].
  intros H. apply andb_true_iff in H as [Hc Hw]. by rewrite Hc, (IH Hw).
Qed.

Lemma span_alpha_other w r :
  is_alpha_word w = false -> PyStr.contains ":" w = false ->
  PyStr.startswith ":" (snd (span_alpha (w ++ String ":" r))) = false.
Proof.
  induction w as [ | c w IH]; simpl; [done | ].
  intros Hw H. apply orb_false_iff in H as [Hc Hs].
  destruct (PyStr.is_word_start c); simpl in *.
  - specialize (IH Hw Hs). by destruct (span_alpha (w ++ String ":" r)).
  - by rewrite Hc.
Qed.

(** [get_opener_for_path] decides by the text before the first colon of
    the path: [open_file_url] for [file] and [smb], [urlopen] for any
    other word of two to eight letters or underscores, and the local
    [open] for everything else, a path without a colon and a path with
    a drive letter included. *)
Theorem get_opener_by_scheme path :
  get_opener_for_path path = opener_of_scheme (scheme_of path).
Proof.
  unfold get_opener_for_path, scheme_of, opener_of_scheme, has_scheme.
  change "file:" with ("file" ++ String ":" EmptyString)%string.
  change "smb:" with ("smb" ++ String ":" EmptyString)%string.
  destruct (PyStr.split1 ":" path) as [[w r] | ] eqn:Hsplit.
  - apply split1_some in Hsplit as [-> Hw].
    rewrite (startswith_scheme ":" "file" w r eq_refl Hw).
    rewrite (startswith_scheme ":" "smb" w r eq_refl Hw).
    rewrite (String.eqb_sym "file" w), (String.eqb_sym "smb" w).
    destruct (String.eqb w "file" || String.eqb w "smb"); [done | ].
    destruct (is_alpha_word w) eqn:Ha.
    + rewrite (span_alpha_word _ _ Ha). simpl.
      by rewrite andb_true_r.
    + pose proof (span_alpha_other w r Ha Hw) as Hr.
      destruct (span_alpha (w ++ String ":" r)) as [p q]. cbn [snd] in Hr.
      rewrite Hr. by rewrite andb_false_r.
  - apply split1_none in Hsplit.
    rewrite (startswith_no_char ":" "file" EmptyString _ Hsplit).
    rewrite (startswith_no_char ":" "smb" EmptyString _ Hsplit).
    pose proof (span_alpha_no_colon _ Hsplit) as Hr.
    destruct (span_alpha path) as [p q]. cbn [snd] in Hr.
    rewrite Hr. by rewrite andb_false_r.
Qed.

Example get_opener_samples :
  map get_opener_for_path
    ["http://openhome.org/releases/a.tar.gz"; "file:///tmp/a.tar.gz";
     "smb://host/share/a.zip"; "C:/work/a.tar.gz"; "../a.tar.gz";
     "localhost:8080/a.tar.gz"]
  = [urlopen; open_file_url; open_file_url; open_rb; open_rb; open_rb].
Proof. reflexivity. Qed.

(** *** Member names *)

Lemma split_slash_nonempty s : split_slash s <> [].
Proof.
  destruct s as [ | c s]; simpl; [done | ].
  destruct (Ascii.eqb c "/"); [done | ]. by destruct (split_slash s).
Qed.

(** Splitting at the slashes and joining with slashes gives the name
    back. *)
Lemma join_split_slash s : PyStr.join "/" (split_slash s) = s.
Proof.
  induction s as [ | c s IH]; [done | ]. simpl.
  pose proof (split_slash_nonempty s) as Hne.
  destruct (Ascii.eqb c "/") eqn:Hc.
  - apply Ascii.eqb_eq in Hc. subst c.
    destruct (split_slash s) as [ | x xs]; [done | ].
    change (PyStr.join "/" (EmptyString :: x :: xs))
      with (String "/" (PyStr.join "/" (x :: xs))).
    by rewrite IH.
  - destruct (split_slash s) as [ | x xs]; [done | ].
    rewrite <- IH. by destruct xs.
Qed.

Lemma split_slash_dir d rest :
  PyStr.contains "/" d = false ->
  split_slash (d ++ "/" ++ rest) = d :: split_slash rest.
Proof.
  induction d as [ | c d IH]; intros H; [done | ].
  change (Ascii.eqb "/" c || PyStr.contains "/" d = false) in H.
  apply orb_false_iff in H as [Hc Hd]. rewrite Ascii.eqb_sym in Hc.
  change (split_slash (String c (d ++ "/" ++ rest))
          = String c d :: split_slash rest).
  cbn [split_slash]. by rewrite Hc, (IH Hd).
Qed.

Lemma split_slash_under dirs rest :
  Forall (fun d => PyStr.contains "/" d = false) dirs ->
  split_slash (under dirs rest) = (dirs ++ split_slash rest)%list.
Proof.
  induction 1 as [ | d dirs Hd _ IH]; simpl; [done | ].
  by rewrite (split_slash_dir _ _ Hd), IH.
Qed.

(** Stripping as many directories as the name has leading directories
    leaves the rest of the name. *)
Lemma strip_entry_packed n m :
  has_dirs n m -> strip_entry (Z.of_nat n) (packed m) = stripped m.
Proof.
  destruct m as [[dirs rest] data]. intros [Hlen Hdirs]. simpl in *.
  unfold strip_entry, packed, stripped, slice_from. simpl.
  rewrite (split_slash_under _ _ Hdirs).
  assert (H0 : (0 <=? Z.of_nat n) = true) by (apply Z.leb_le; lia).
  rewrite H0, Nat2Z.id, <- Hlen, drop_app_length.
  by rewrite join_split_slash.
Qed.

(** *** extract_archive *)

(** A tar file whose members all lie under [n] leading directories,
    extracted with [strip_dirs = n]: [extractall] is called on the
    archive of the members without their leading directories, in the
    same order and with the same contents. *)
Theorem extract_archive_strips {W File S} (ext : External W File)
    n members local_path (st : S * Sys W) :
  (0 < n)%nat -> Forall (has_dirs n) members ->
  extract_archive W File ext
    {| ar_kind := TarFile; ar_entries := map packed members |}
    local_path (VInt (Z.of_nat n)) st
  = in_world W
      (extractall ext
         {| ar_kind := TarFile; ar_entries := map stripped members |}
         local_path) st.
Proof.
  intros Hn Hall. unfold extract_archive. cbn [PyVal.gt0 ar_kind ar_entries].
  assert (H0 : (0 <? Z.of_nat n) = true) by (apply Z.ltb_lt; lia).
  rewrite H0.
  destruct members as [ | m members]; [reflexivity | ].
  assert (Hmap : map (strip_entry (Z.of_nat n)) (map packed (m :: members))
                 = map stripped (m :: members)).
  { rewrite map_map. apply map_ext_in. intros x Hx.
    apply strip_entry_packed. rewrite List.Forall_forall in Hall. by apply Hall. }
  change (map packed (m :: members))
    with (packed m :: map packed members) at 1.
  cbv iota. unfold bind at 1. unfold bind at 1. cbn [PyVal.index lift_res].
  unfold ret at 1. by rewrite Hmap.
Qed.

Lemma extract_archive_strips_witness :
  extract_archive (list event) string (scripted only_B)
    {| ar_kind := TarFile;
       ar_entries := map packed [(["root"; "lib"], "f1", "data")] |}
    "/work" (VInt (Z.of_nat 2)) (tt, nothing_happened)
  = in_world (list event)
      (extractall (scripted only_B)
         {| ar_kind := TarFile;
            ar_entries := map stripped [(["root"; "lib"], "f1", "data")] |}
         "/work") (tt, nothing_happened).
Proof.
  apply (extract_archive_strips (scripted only_B) 2
           [(["root"; "lib"], "f1", "data")] "/work" (tt, nothing_happened)).
  - lia.
  - repeat constructor.
Defined.

(** *** The outcomes of clean_directories *)

Section CleanerOutcomes.
Variable FS : Type.
Variable os_path_isdir : string -> FS -> bool.
Variable os_rename : string -> string -> FS -> outcome unit * FS.
Variable shutil_rmtree : string -> FS -> outcome unit * FS.

Lemma rename_away_calls directories : forall loc disk r loc' disk',
  rename_away FS os_path_isdir os_rename directories (loc, disk)
  = (r, (loc', disk')) ->
  lastdirectory loc = None ->
  exists new,
    moved loc' = (moved loc ++ new)%list /\
    Forall (well_named directories) new /\
    ((r = Ok tt /\ lastdirectory loc' = None /\
      calls disk' = (calls disk ++ map fwd_call new)%list) \/
     (exists d e, r = Raise e /\ lastdirectory loc' = Some d /\
        In d directories /\
        calls disk' = (calls disk ++ map fwd_call new
                       ++ [CallRename d (d ++ ".deleteme")%string (Some e)])%list)).
Proof.
  induction directories as [ | d rest IH]; intros loc disk r loc' disk'; simpl.
  - intros [= <- <- <-] Hl. exists []. rewrite !app_nil_r.
    split_and!; auto.
  - unfold bind at 1, get at 1. cbn [snd].
    destruct (os_path_isdir d (fs disk)); simpl.
    + unfold bind at 1, set_lastdirectory at 1, modify at 1. cbn [fst snd].
      unfold bind at 1, rename at 1. cbn [fst snd].
      destruct (os_rename d (d ++ ".deleteme") (fs disk)) as [[[] | e] s1];
        simpl.
      * unfold bind at 1, set_lastdirectory at 1, modify at 1. cbn [fst snd].
        unfold bind at 1, moved_append at 1, modify at 1. cbn [fst snd].
        intros Hrest Hl. cbn [moved lastdirectory] in Hrest.
        apply IH in Hrest; [ | done].
        destruct Hrest as (new & Hm & Hwn & Hcases).
        cbn [moved fs calls] in *.
        exists ((d, (d ++ ".deleteme")%string) :: new).
        split_and!.
        -- rewrite Hm, <- app_assoc. done.
        -- constructor; [split; simpl; auto | ].
           eapply Forall_impl; [exact Hwn | ].
           intros p [? ?]. split; simpl; auto.
        -- destruct Hcases as [(-> & Hl' & Hc) | (d' & e & -> & Hl' & Hin & Hc)].
           ++ left. split_and!; auto. rewrite Hc, <- app_assoc. done.
           ++ right. exists d', e. split_and!; auto.
              rewrite Hc, <- !app_assoc. done.
      * intros [= <- <- <-] Hl. cbn [moved lastdirectory fs calls].
        exists []. rewrite app_nil_r. split_and!; auto.
        right. exists d, e. split_and!; auto.
    + intros Hrest Hl. apply IH in Hrest; [ | done].
      destruct Hrest as (new & Hm & Hwn & Hcases).
      exists new. split_and!; auto.
      * eapply Forall_impl; [exact Hwn | ].
        intros p [? ?]. split; simpl; auto.
      * destruct Hcases as [? | (d' & e & ? & ? & ? & ?)]; [by left | ].
        right. exists d', e. split_and!; auto.
Qed.

Lemma rmtree_all_outcome l : forall loc disk r loc' disk',
  rmtree_all FS shutil_rmtree l (loc, disk) = (r, (loc', disk')) ->
  loc' = loc /\
  exists cs, calls disk' = (calls disk ++ cs)%list /\
    loop_calls removed (fun p e => CallRmtree (snd p) (Some e)) l r cs.
Proof.
  induction l as [ | [o n] l IH]; intros loc disk r loc' disk'; simpl.
  - intros [= <- <- <-]. split; [done | ]. exists [].
    rewrite app_nil_r. split; [done | by left].
  - unfold bind at 1, rmtree at 1. cbn [fst snd].
    destruct (shutil_rmtree n (fs disk)) as [[[] | e] s1]; simpl.
    + intros Hrest. apply IH in Hrest as (-> & cs & Hc & Hcases).
      split; [done | ]. simpl in Hc.
      exists (removed (o, n) :: cs). split.
      * rewrite Hc, <- app_assoc. done.
      * destruct Hcases as [(-> & ->) | (gone & p & rest & e & -> & -> & ->)].
        -- by left.
        -- right. by exists ((o, n) :: gone), p, rest, e.
    + intros [= <- <- <-]. split; [done | ]. simpl.
      exists [CallRmtree n (Some e)]. split; [done | ].
      right. by exists [], (o, n), l, e.
Qed.

Lemma rename_back_outcome l : forall loc disk r loc' disk',
  rename_back FS os_rename l (loc, disk) = (r, (loc', disk')) ->
  loc' = loc /\
  exists cs, calls disk' = (calls disk ++ cs)%list /\
    loop_calls back_call (fun p e => CallRename (snd p) (fst p) (Some e)) l r cs.
Proof.
  induction l as [ | [o n] l IH]; intros loc disk r loc' disk'; simpl.
  - intros [= <- <- <-]. split; [done | ]. exists [].
    rewrite app_nil_r. split; [done | by left].
  - unfold bind at 1, rename at 1. cbn [fst snd].
    destruct (os_rename n o (fs disk)) as [[[] | e] s1]; simpl.
    + intros Hrest. apply IH in Hrest as (-> & cs & Hc & Hcases).
      split; [done | ]. simpl in Hc.
      exists (back_call (o, n) :: cs). split.
      * rewrite Hc, <- app_assoc. done.
      * destruct Hcases as [(-> & ->) | (gone & p & rest & e & -> & -> & ->)].
        -- by left.
        -- right. by exists ((o, n) :: gone), p, rest, e.
    + intros [= <- <- <-]. split; [done | ]. simpl.
      exists [CallRename n o (Some e)]. split; [done | ].
      right. by exists [], (o, n), l, e.
Qed.

Lemma clean_directories_cases directories disk :
  clean_outcome directories
    (fst (clean_directories FS os_path_isdir os_rename shutil_rmtree
            directories disk))
    (calls (snd (clean_directories FS os_path_isdir os_rename shutil_rmtree
                   directories disk))).
Proof.
  unfold clean_directories, clean_directories_body.
  unfold try_except_all, bind, get, raise. cbv beta.
  set (start := ({| moved := []; lastdirectory := None |},
                 {| fs := disk; calls := [] |})).
  destruct (rename_away FS os_path_isdir os_rename directories start)
    as [r [loc' disk']] eqn:Hloop.
  destruct (rename_away_calls directories _ _ _ _ _ Hloop eq_refl)
    as (new & Hm & Hwn & Hcases).
  simpl in Hm. exists new. split; [done | ].
  destruct Hcases as [(-> & Hl & Hc) | (d & e0 & -> & Hl & Hin & Hc)];
    simpl in Hc; cbn [fst snd].
  - destruct (rmtree_all FS shutil_rmtree (moved loc') (loc', disk'))
      as [r2 [loc2 disk2]] eqn:Hdel.
    destruct (rmtree_all_outcome _ _ _ _ _ _ Hdel) as (-> & cs & Hc2 & Hcases).
    rewrite Hm in Hcases. rewrite Hc in Hc2.
    destruct Hcases as [(-> & ->) | (gone & p & rest & e & Hnew & -> & ->)].
    + left. by split.
    + right; left. exists gone, p, rest, e. cbn [fst snd]. rewrite Hl.
      by split_and!.
  - right; right.
    destruct (rename_back FS os_rename (rev (moved loc')) (loc', disk'))
      as [r2 [loc2 disk2]] eqn:Hback.
    destruct (rename_back_outcome _ _ _ _ _ _ Hback) as (-> & cs & Hc2 & Hcases).
    rewrite Hm in Hcases. rewrite Hc in Hc2.
    exists d, e0, r2, cs.
    assert (Hcs : calls disk2
                  = (map fwd_call new
                     ++ [CallRename d (d ++ ".deleteme")%string (Some e0)]
                     ++ cs)%list).
    { rewrite Hc2, <- app_assoc. done. }
    destruct Hcases as [(-> & Hcs') | (gone & p & rest & e & Hnew & -> & Hcs')];
      cbn [fst snd]; rewrite Hl; cbn [fst snd]; split_and!; auto.
    + by left.
    + right. by exists gone, p, rest, e.
Qed.


Lemma well_named_within directories (f : string * string -> syscall) l :
  (forall p, well_named directories p -> call_within directories (f p)) ->
  Forall (well_named directories) l ->
  Forall (call_within directories) (map f l).
Proof.
  intros Hf Hl. apply Forall_map. eapply Forall_impl; [exact Hl | ].
  intros p Hp. by apply Hf.
Qed.

Lemma fwd_call_within directories p :
  well_named directories p -> call_within directories (fwd_call p).
Proof. intros [Hin Hp]. exists (fst p). split; [done | ]. left. done. Qed.

Lemma back_call_within directories p :
  well_named directories p -> call_within directories (back_call p).
Proof. intros [Hin Hp]. exists (fst p). split; [done | ]. right. done. Qed.

Lemma removed_within directories p :
  well_named directories p -> call_within directories (removed p).
Proof. intros [Hin Hp]. by exists (fst p). Qed.

Lemma clean_outcome_within directories r cs :
  clean_outcome directories r cs -> Forall (call_within directories) cs.
Proof.
  intros (new & Hnew & Hcases).
  pose proof (well_named_within directories fwd_call new
                (fwd_call_within directories) Hnew) as Hfwd.
  destruct Hcases as [(_ & ->) | [(gone & p & rest & e & -> & _ & ->)
                                 | (d & e & r' & back & Hd & _ & Hback & ->)]].
  - apply Forall_app. split; [done | ].
    by apply well_named_within; [apply removed_within | ].
  - apply Forall_app in Hnew as [Hgone Hrest].
    apply Forall_cons in Hrest as [Hp _].
    apply Forall_app. split; [done | ]. apply Forall_app. split.
    + by apply well_named_within; [apply removed_within | ].
    + constructor; [ | constructor]. by apply (removed_within directories p).
  - apply Forall_app. split; [done | ]. constructor.
    { exists d. split; [done | ]. by left. }
    assert (Hrev : Forall (well_named directories) (rev new)).
    { by apply Forall_rev. }
    destruct Hback as [(_ & ->) | (gone & p & rest & e' & Hsplit & _ & ->)].
    + by apply well_named_within; [apply back_call_within | ].
    + rewrite Hsplit in Hrev. apply Forall_app in Hrev as [Hgone Hrest].
      apply Forall_cons in Hrest as [Hp _].
      apply Forall_app. split.
      * by apply well_named_within; [apply back_call_within | ].
      * constructor; [ | constructor].
        by apply (back_call_within directories p).
Qed.

(** Whatever the file system does, [clean_directories] makes the run
    of its list.  It goes through the list in order, passes over every
    path that [os.path.isdir] does not find when its turn comes, and
    renames every other one to its [.deleteme] name.  When all these
    renames returned, it removes what it renamed, in the same order: it
    returns when every removal returned; when one raised, it raises its
    second error with the text of that exception, has made no call
    after the failed one and has renamed nothing back.  When a rename
    raised, it raises its first error, which names the directory, after
    renaming the earlier ones back in reverse order, up to the first
    rename back that raises; no removal is made.  The file system it
    leaves is the one that these calls, and no other, lead to.  It never
    passes on an exception of the file system as it is, and the only
    paths it touches are the listed directories and their [.deleteme]
    names. *)
Theorem clean_directories_outcomes directories disk :
  clean_run FS os_path_isdir os_rename shutil_rmtree directories disk
    (clean_directories FS os_path_isdir os_rename shutil_rmtree
       directories disk) /\
  clean_outcome directories
    (fst (clean_directories FS os_path_isdir os_rename shutil_rmtree
            directories disk))
    (calls (snd (clean_directories FS os_path_isdir os_rename shutil_rmtree
                   directories disk))) /\
  Forall (call_within directories)
    (calls (snd (clean_directories FS os_path_isdir os_rename shutil_rmtree
                   directories disk))).
Proof.
  pose proof (clean_directories_cases directories disk) as Hcases.
  split_and!; [apply clean_directories_run | exact Hcases | ].
  by eapply clean_outcome_within.
Qed.

End CleanerOutcomes.

(** Both directories exist and nothing holds them: both are renamed
    away and then removed. *)
Example clean_xy_free :
  clean_directories FlatFS.t FlatFS.isdir FlatFS.rename FlatFS.rmtree
    ["x"; "absent"; "y"]
    (list_to_map [("x", FlatFS.mk_dir ["a.dll"] false);
                  ("y", FlatFS.mk_dir ["b.dll"] false)])
  = (Ok tt,
     {| fs := ∅;
        calls := [CallRename "x" "x.deleteme" None;
                  CallRename "y" "y.deleteme" None;
                  CallRmtree "x.deleteme" None;
                  CallRmtree "y.deleteme" None] |}).
Proof. vm_compute. reflexivity. Qed.

(** ** What fetch and checkout leave alone *)

Lemma same_record_refl d : same_record d d.
Proof. by split_and!. Qed.

Lemma same_record_trans d1 d2 d3 :
  same_record d1 d2 -> same_record d2 d3 -> same_record d1 d3.
Proof.
  intros (HE1 & HO1 & HC1) (HE2 & HO2 & HC2). split_and!.
  - by rewrite HE2.
  - by rewrite HO2.
  - by etrans.
Qed.

Lemma expander_expand_frame key self r self' :
  expander_expand key self = (r, self') ->
  env_dict self' = env_dict self /\ cache self ⊆ cache self'.
Proof.
  intros Hx. split.
  - pose proof (expander_expand_total key self) as (_ & HE & _).
    by rewrite Hx in HE.
  - apply map_subseteq_spec. intros k v Hk.
    by eapply (expand_keeps_cached k v (enough_fuel self) key self).
Qed.

Section RecordFrame.
Variables W File : Type.
Variable ext : External W File.
Variable d0 : Dependency.

Abbreviation framed := (fun st : Dependency * Sys W => same_record d0 (fst st)).

Lemma frame_dep_expand key : keeps framed (dep_expand W key).
Proof.
  intros [d sys] r [d' sys'] HI. unfold dep_expand. cbn [fst snd] in *.
  destruct (expander_expand key (expander d)) as [r0 e] eqn:Hx.
  intros [= <- <- <-]. cbn [fst].
  apply (same_record_trans _ _ _ HI).
  destruct (expander_expand_frame _ _ _ _ Hx) as [HE HC]. by split_and!.
Qed.

Lemma frame_in_world {A} (m : W -> outcome A * W) : keeps framed (in_world W m).
Proof.
  intros [d sys] r [d' sys'] HI. unfold in_world. simpl.
  destruct (m (world sys)). by intros [= <- <- <-].
Qed.

Lemma frame_logfile_write fmt args : keeps framed (logfile_write W fmt args).
Proof. apply keeps_modify. by intros [d sys]. Qed.

Lemma frame_as_str cls v : keeps framed (as_str cls v).
Proof. destruct v; first [apply keeps_ret | apply keeps_raise]. Qed.

Lemma frame_check_call args cwd : keeps framed (check_call W File ext args cwd).
Proof.
  apply keeps_bind; [apply frame_in_world | intros z].
  destruct (z =? 0); [apply keeps_ret | apply keeps_raise].
Qed.

Ltac frame_step :=
  first [ apply keeps_ret | apply keeps_raise | apply keeps_lift_res
        | apply keeps_get | apply frame_dep_expand | apply frame_in_world
        | apply frame_logfile_write | apply frame_as_str
        | apply frame_check_call
        | apply keeps_bind; [ | intros ?]
        | apply keeps_try_except; [ | intros ?]
        | apply keeps_modify; by intros [? ?]
        | match goal with
          | |- keeps _ (match ?x with _ => _ end) => destruct x
          end ].

Lemma frame_fetch : keeps framed (fetch W File ext).
Proof.
  unfold fetch, fetch_open, openarchive, extract_archive.
  repeat frame_step.
Qed.

Lemma frame_checkout : keeps framed (checkout W File ext).
Proof. unfold checkout, checkout_commands. repeat frame_step. Qed.

End RecordFrame.

(** Whatever they return or raise, [fetch] and [checkout] leave the
    environment of the record and its override flag as they were, and
    never drop or change a cached value. *)
Theorem operations_keep_record {W File} (ext : External W File) st :
  same_record (fst st) (fst (snd (fetch W File ext st))) /\
  same_record (fst st) (fst (snd (checkout W File ext st))).
Proof.
  split.
  - destruct (fetch W File ext st) as [r st'] eqn:Hf.
    apply (frame_fetch W File ext (fst st) st r st'); [ | done].
    apply same_record_refl.
  - destruct (checkout W File ext st) as [r st'] eqn:Hf.
    apply (frame_checkout W File ext (fst st) st r st'); [ | done].
    apply same_record_refl.
Qed.

Lemma same_collection_refl c : same_collection c c.
Proof.
  split_and!; [done | done | ].
  induction (dependencies c) as [ | kd l IH]; constructor; [ | done].
  split; [done | apply same_record_refl].
Qed.

Lemma deps_set_same k d d' l0 l :
  Forall2 (fun kd kd' => fst kd' = fst kd /\ same_record (snd kd) (snd kd')) l0 l ->
  deps_get k l = Some d -> same_record d d' ->
  Forall2 (fun kd kd' => fst kd' = fst kd /\ same_record (snd kd) (snd kd'))
    l0 (deps_set k d' l).
Proof.
  intros Hl. induction Hl as [ | [k0 e0] [k1 e1] l0 l [Hk He] Hl IH]; simpl;
    [done | ].
  destruct (PyVal.key_eqb k1 k).
  - intros [= <-] Hd. constructor; [ | done].
    split; [done | ]. simpl in *. by eapply same_record_trans.
  - intros Hget Hd. constructor; [by split | by apply IH].
Qed.

Section CollectionFrame.
Variables W File : Type.
Variable ext : External W File.
Variable c0 : DependencyCollection.

Abbreviation held :=
  (fun st : DependencyCollection * Sys W => same_collection c0 (fst st)).

Lemma held_on_dependency {A} k (m : M (Dependency * Sys W) A) :
  (forall d, keeps (fun st => same_record d (fst st)) m) ->
  keeps held (on_dependency W k m).
Proof.
  intros Hm [coll sys] r [coll' sys'] (HB & HT & HD).
  unfold on_dependency. cbn [fst snd] in *.
  destruct (deps_get k (dependencies coll)) as [d | ] eqn:Hd.
  - destruct (m (d, sys)) as [r0 [d' sys0]] eqn:Hmd.
    intros [= <- <- <-]. split_and!; [done | done | ]. simpl.
    apply (deps_set_same k d d'); [done | done | ].
    apply (Hm d (d, sys) r0 (d', sys0)); [apply same_record_refl | done].
  - intros [= <- <- <-]. by split_and!.
Qed.

Lemma held_filter subset : keeps held (_filter W subset).
Proof.
  unfold _filter. apply keeps_bind; [apply keeps_get | intros self].
  destruct subset as [subset | ]; [ | apply keeps_ret].
  destruct (0 <? _)%nat; [apply keeps_raise | apply keeps_ret].
Qed.

Lemma held_collect_failed op :
  (forall d, keeps (fun st => same_record d (fst st)) op) ->
  forall ds acc, keeps held (collect_failed W op ds acc).
Proof.
  intros Hop. induction ds as [ | d ds IH]; intros acc; simpl;
    [apply keeps_ret | ].
  apply keeps_bind; [by apply held_on_dependency | intros ok].
  destruct (negb ok); [ | apply IH].
  apply keeps_bind; [ | intros name; apply IH].
  apply held_on_dependency. intros d1. apply frame_dep_expand.
Qed.

Lemma held_report_failed message failed :
  keeps held (report_failed W message failed).
Proof.
  destruct failed as [ | x failed]; [apply keeps_ret | ]. simpl.
  apply keeps_bind; [apply keeps_lift_res | intros names].
  apply keeps_bind; [ | intros; apply keeps_ret].
  apply keeps_modify. by intros [? ?].
Qed.

Lemma held_collection_fetch subset : keeps held (collection_fetch W File ext subset).
Proof.
  unfold collection_fetch.
  apply keeps_bind; [apply held_filter | intros ds].
  apply keeps_bind; [ | intros; apply held_report_failed].
  apply held_collect_failed. intros d. apply frame_fetch.
Qed.

Lemma held_collection_checkout subset :
  keeps held (collection_checkout W File ext subset).
Proof.
  unfold collection_checkout.
  apply keeps_bind; [apply held_filter | intros ds].
  apply keeps_bind; [ | intros; apply held_report_failed].
  apply held_collect_failed. intros d. apply frame_checkout.
Qed.

End CollectionFrame.

(** Whatever they return or raise, the batch operations [fetch] and
    [checkout] of a collection add, remove and reorder nothing: the
    collection has the same base environment, the same types and the
    same records under the same names afterwards, each with the
    environment and the override flag it had. *)
Theorem batches_keep_collection {W File} (ext : External W File) subset st :
  same_collection (fst st) (fst (snd (collection_fetch W File ext subset st))) /\
  same_collection (fst st) (fst (snd (collection_checkout W File ext subset st))).
Proof.
  split.
  - destruct (collection_fetch W File ext subset st) as [r st'] eqn:Hf.
    apply (held_collection_fetch W File ext (fst st) subset st r st');
      [apply same_collection_refl | done].
  - destruct (collection_checkout W File ext subset st) as [r st'] eqn:Hf.
    apply (held_collection_checkout W File ext (fst st) subset st r st');
      [apply same_collection_refl | done].
Qed.

(** ** Names that the collection does not have *)

Lemma filter_unknown_names deps subset :
  filter (fun name => deps_get (VStr name) deps = None) subset
  = unknown_names deps subset.
Proof.
  induction subset as [ | m subset IH]; [done | ].
  rewrite filter_cons, IH. simpl.
  destruct (decide (deps_get (VStr m) deps = None)) as [Hm | Hm].
  - by rewrite Hm.
  - by destruct (deps_get (VStr m) deps).
Qed.

Lemma unknown_names_In deps subset n :
  In n subset -> deps_get (VStr n) deps = None ->
  In n (unknown_names deps subset).
Proof.
  intros Hin Hn. induction subset as [ | m subset IH]; [done | ].
  simpl. destruct Hin as [-> | Hin].
  - rewrite Hn. by left.
  - destruct (deps_get (VStr m) deps); [by apply IH | right; by apply IH].
Qed.

Lemma filter_missing {W} subset (st : DependencyCollection * Sys W) n :
  In n subset -> deps_get (VStr n) (dependencies (fst st)) = None ->
  _filter W (Some subset) st
  = (Raise (no_entries_named (unknown_names (dependencies (fst st)) subset)),
     st).
Proof.
  intros Hin Hn.
  pose proof (unknown_names_In _ _ _ Hin Hn) as Hm.
  unfold _filter, bind, get. rewrite filter_unknown_names.
  destruct (unknown_names (dependencies (fst st)) subset) as [ | x missing];
    [done | reflexivity].
Qed.

(** If one name of the list is not in the collection, [fetch],
    [checkout] and [get_args] raise the error that lists the names of
    the list that the collection does not have: each of them as often
    as the list has it and in the order of the list, which is what
    [unknown_names] computes.  The error is raised before any record
    is touched: nothing is looked up, fetched or logged. *)
Theorem unknown_names_stop_the_batch {W File} (ext : External W File)
    subset n (st : DependencyCollection * Sys W) :
  In n subset -> deps_get (VStr n) (dependencies (fst st)) = None ->
  let missing := unknown_names (dependencies (fst st)) subset in
  In n missing /\
  collection_fetch W File ext (Some subset) st
  = (Raise (no_entries_named missing), st) /\
  collection_checkout W File ext (Some subset) st
  = (Raise (no_entries_named missing), st) /\
  get_args W (Some subset) st = (Raise (no_entries_named missing), st).
Proof.
  intros Hin Hn missing.
  pose proof (filter_missing subset st n Hin Hn) as Hf. fold missing in Hf.
  split_and!.
  - by apply unknown_names_In.
  - unfold collection_fetch, bind. by rewrite Hf.
  - unfold collection_checkout, bind. by rewrite Hf.
  - unfold get_args, bind. by rewrite Hf.
Qed.

Lemma unknown_names_stop_the_batch_witness :
  unknown_names (dependencies coll_AB) ["D"; "A"; "C"; "B"; "D"]
  = ["D"; "C"; "D"] /\
  collection_fetch (list event) string (scripted only_B)
    (Some ["D"; "A"; "C"; "B"; "D"]) (coll_AB, nothing_happened)
  = (Raise (no_entries_named ["D"; "C"; "D"]), (coll_AB, nothing_happened)) /\
  collection_checkout (list event) string (scripted only_B)
    (Some ["D"; "A"; "C"; "B"; "D"]) (coll_AB, nothing_happened)
  = (Raise (no_entries_named ["D"; "C"; "D"]), (coll_AB, nothing_happened)) /\
  get_args (list event) (Some ["D"; "A"; "C"; "B"; "D"])
    (coll_AB, nothing_happened)
  = (Raise (no_entries_named ["D"; "C"; "D"]), (coll_AB, nothing_happened)).
Proof.
  split; [vm_compute; reflexivity | ].
  apply (unknown_names_stop_the_batch (scripted only_B)
           ["D"; "A"; "C"; "B"; "D"] "C" (coll_AB, nothing_happened)).
  - simpl. tauto.
  - vm_compute. reflexivity.
Defined.

Example unknown_names_message :
  fst (collection_fetch (list event) string (scripted only_B)
         (Some ["A"; "C"; "B"; "D"]) (coll_AB, nothing_happened))
  = Raise (mk_exn Exception [VStr "No entries in dependency file named: C, D."]) /\
  fst (collection_fetch (list event) string (scripted only_B)
         (Some ["D"; "A"; "C"; "B"; "D"]) (coll_AB, nothing_happened))
  = Raise (mk_exn Exception
             [VStr "No entries in dependency file named: D, C, D."]).
Proof. vm_compute. auto. Qed.

(** ** get_args *)

Section GetArgs.
Variable W : Type.

Abbreviation sum_args := (sum_configure_args W).

Lemma held_sum_configure_args c0 ds : forall total,
  keeps (fun st : DependencyCollection * Sys W => same_collection c0 (fst st))
    (sum_args ds total).
Proof.
  induction ds as [ | d ds IH]; intros total; simpl; [apply keeps_ret | ].
  apply keeps_bind.
  - apply held_on_dependency. intros d1. apply frame_dep_expand.
  - intros [ | | | | | l | ]; first [apply keeps_raise | apply IH].
Qed.

Lemma sum_configure_args_app ds1 ds2 : forall total st,
  sum_args (ds1 ++ ds2) total st
  = bind (sum_args ds1 total) (fun xs => sum_args ds2 xs) st.
Proof.
  induction ds1 as [ | d ds1 IH]; intros total st; simpl; [done | ].
  unfold bind.
  destruct (on_dependency W d (dep_expand W "configure-args") st)
    as [[v | e | ] st1]; try done.
  destruct v; first [done | by rewrite IH].
Qed.

Lemma sum_configure_args_total ds : forall total st,
  sum_args ds total st
  = bind (sum_args ds []) (fun xs => ret (total ++ xs)%list) st.
Proof.
  induction ds as [ | d ds IH]; intros total st; simpl.
  - unfold bind, ret. by rewrite app_nil_r.
  - unfold bind.
    destruct (on_dependency W d (dep_expand W "configure-args") st)
      as [[v | e | ] st1]; try done.
    destruct v as [ | | | | | l | ]; try done.
    rewrite (IH (total ++ l)%list), (IH ([] ++ l)%list). unfold bind.
    destruct (sum_args ds [] st1) as [[xs | e | ] st2]; try done.
    unfold ret. simpl. by rewrite app_assoc.
Qed.

Lemma deps_get_same k l0 l :
  Forall2 (fun kd kd' : value * Dependency =>
             fst kd' = fst kd /\ same_record (snd kd) (snd kd')) l0 l ->
  deps_get k l0 <> None -> deps_get k l <> None.
Proof.
  induction 1 as [ | [k0 e0] [k1 e1] l0 l [Hk _] _ IH]; simpl; [done | ].
  simpl in Hk. subst k1. by destruct (PyVal.key_eqb k0 k).
Qed.

Lemma get_args_present names (st : DependencyCollection * Sys W) :
  (forall n, In n names ->
             deps_get (VStr n) (dependencies (fst st)) <> None) ->
  get_args W (Some names) st = sum_args (map VStr names) [] st.
Proof.
  intros Hall. unfold get_args. rewrite bind_run.
  by rewrite (filter_subset W _ _ Hall).
Qed.

(** The arguments for a list of names are the arguments for its first
    part followed by the arguments for the rest: every record
    contributes its own [configure-args], in the order of the names. *)
Theorem get_args_app (names1 names2 : list string)
    (st : DependencyCollection * Sys W) :
  (forall n, In n (names1 ++ names2)%list ->
             deps_get (VStr n) (dependencies (fst st)) <> None) ->
  get_args W (Some (names1 ++ names2)%list) st
  = bind (get_args W (Some names1)) (fun xs =>
    bind (get_args W (Some names2)) (fun ys => ret (xs ++ ys)%list)) st.
Proof.
  intros Hall.
  rewrite (get_args_present _ _ Hall), map_app, sum_configure_args_app.
  rewrite !bind_run.
  rewrite (get_args_present names1 st)
    by (intros n Hn; apply Hall, in_or_app; by left).
  destruct (sum_args (map VStr names1) [] st) as [[xs | e | ] st1] eqn:H1;
    try done.
  assert (Hsame : same_collection (fst st) (fst st1)).
  { apply (held_sum_configure_args (fst st) (map VStr names1) [] st (Ok xs) st1);
      [apply same_collection_refl | done]. }
  rewrite bind_run, (get_args_present names2 st1).
  2:{ intros n Hn. destruct Hsame as (_ & _ & Hdeps).
      apply (deps_get_same _ _ _ Hdeps). apply Hall, in_or_app. by right. }
  rewrite (sum_configure_args_total (map VStr names2) xs st1).
  by rewrite bind_run.
Qed.

End GetArgs.

Lemma get_args_app_witness :
  get_args (list event) (Some (["A"] ++ ["B"; "A"])%list) (coll_AB, nothing_happened)
  = bind (get_args (list event) (Some ["A"])) (fun xs =>
    bind (get_args (list event) (Some ["B"; "A"]))
      (fun ys => ret (xs ++ ys)%list)) (coll_AB, nothing_happened).
Proof.
  apply (get_args_app (list event) ["A"] ["B"; "A"] (coll_AB, nothing_happened)).
  intros n [<- | [<- | [<- | []]]]; vm_compute; discriminate.
Defined.

(** ** The branches of create_dependency *)

Lemma merged_lookup base defaults defn overrides k :
  merged base defaults defn overrides !! k
  = layered_lookup k overrides defn defaults base.
Proof.
  unfold merged, dict_update, layered_lookup.
  rewrite !lookup_union, lookup_empty.
  destruct (overrides !! k), (defn !! k), (defaults !! k), (base !! k);
    reflexivity.
Qed.

(** [create_dependency] once the defaults of the type are known. *)
Lemma create_dependency_run {W} (coll : DependencyCollection) (sys : Sys W)
    defn overrides defaults :
  type_layer (dependency_types coll) defn = Ok defaults ->
  create_dependency W defn overrides (coll, sys)
  = let env := merged (base_env coll) defaults defn overrides in
    if is_ignored env then (Ok tt, (coll, sys))
    else match env !! "name" with
         | None => (Raise no_name, (coll, sys))
         | Some name =>
             if PyVal.hashable name
             then (Ok tt,
                   (store name
                      (new_dependency name env (0 <? size overrides)%nat) coll,
                    sys))
             else (Raise PyVal.unhashable, (coll, sys))
         end.
Proof.
  intros Htype.
  unfold create_dependency, bind at 1, get at 1. cbn [fst].
  unfold type_layer in Htype.
  assert (Henv :
    (match defn !! "type" with
     | Some dep_type =>
         bind (lift_res (types_getitem (dependency_types coll) dep_type))
           (fun defaults0 => ret (dict_update (dict_update ∅ (base_env coll)) defaults0))
     | None => ret (dict_update ∅ (base_env coll))
     end) (coll, sys)
    = (Ok (dict_update (dict_update ∅ (base_env coll)) defaults), (coll, sys))).
  { destruct (defn !! "type") as [t | ].
    - unfold bind, lift_res. rewrite Htype. done.
    - injection Htype as <-. unfold ret, dict_update.
      by rewrite (left_id_L ∅ (∪)). }
  unfold bind at 1. rewrite Henv. cbv zeta. fold (merged (base_env coll) defaults defn overrides).
  unfold is_ignored.
  destruct (match merged (base_env coll) defaults defn overrides !! "ignore" with
            | Some v => PyVal.truthy v
            | None => false
            end); [reflexivity | ].
  destruct (merged (base_env coll) defaults defn overrides !! "name") as [name | ];
    [ | reflexivity].
  by destruct (PyVal.hashable name).
Qed.

(** A definition whose [ignore] is true after merging is skipped, with
    or without a name, and one that is not ignored and has no [name] in
    any layer is refused; in both cases the collection stays as it
    was.  The layers decide both keys, so an override can switch
    [ignore] on or off. *)
Theorem ignored_or_unnamed {W} (coll : DependencyCollection) (sys : Sys W)
    (defn overrides defaults : gmap string value) :
  type_layer (dependency_types coll) defn = Ok defaults ->
  let ignored :=
    match layered_lookup "ignore" overrides defn defaults (base_env coll) with
    | Some v => PyVal.truthy v
    | None => false
    end in
  (ignored = true ->
   create_dependency W defn overrides (coll, sys) = (Ok tt, (coll, sys))) /\
  (ignored = false ->
   layered_lookup "name" overrides defn defaults (base_env coll) = None ->
   create_dependency W defn overrides (coll, sys) = (Raise no_name, (coll, sys))).
Proof.
  intros Htype ignored.
  pose proof (create_dependency_run coll sys defn overrides defaults Htype) as Hrun.
  cbv zeta in Hrun. unfold is_ignored in Hrun. rewrite !merged_lookup in Hrun.
  fold ignored in Hrun. split.
  - intros Hi. by rewrite Hi in Hrun.
  - intros Hi Hname. by rewrite Hi, Hname in Hrun.
Qed.

Lemma ignored_or_unnamed_witness :
  create_dependency unit (list_to_map [("type", VStr "ignore")]) ∅
    (new_collection linux_env, quiet)
  = (Ok tt, (new_collection linux_env, quiet)) /\
  create_dependency unit (list_to_map [("archive-filename", VStr "a.zip")]) ∅
    (new_collection linux_env, quiet)
  = (Raise no_name, (new_collection linux_env, quiet)).
Proof.
  split.
  - apply (ignored_or_unnamed (new_collection linux_env) quiet
             (list_to_map [("type", VStr "ignore")]) ∅
             (list_to_map [("ignore", VBool true)]));
      reflexivity.
  - apply (ignored_or_unnamed (new_collection linux_env) quiet
             (list_to_map [("archive-filename", VStr "a.zip")]) ∅ ∅);
      reflexivity.
Defined.

Example override_switches_ignore :
  fst (create_dependency unit
         (list_to_map [("name", VStr "A"); ("type", VStr "ignore")])
         (list_to_map [("name", VStr "A"); ("ignore", VBool false)])
         (new_collection linux_env, quiet)) = Ok tt /\
  is_ok (fst (create_dependency unit (list_to_map [("type", VStr "ignore")])
                (list_to_map [("ignore", VBool false)])
                (new_collection linux_env, quiet))) = false /\
  snd (create_dependency unit defn_A
         (list_to_map [("name", VStr "A"); ("ignore", VInt 1)])
         (new_collection linux_env, quiet))
  = (new_collection linux_env, quiet).
Proof. vm_compute. auto. Qed.

(** ** read_json_dependencies *)

(** Equality of keys is an equivalence on the values that can be
    hashed. *)
Lemma key_eqb_refl a : PyVal.hashable a = true -> PyVal.key_eqb a a = true.
Proof.
  destruct a as [ | [ | ] | n | q | s | | ]; try done; intros _.
  - exact (Z.eqb_refl n).
  - exact (Qeq_bool_refl q).
  - exact (String.eqb_refl s).
Qed.

(** The number that a key stands for under [==], if it is one. *)
Lemma key_eqb_number a b :
  let number v :=
    match v with
    | VBool b => Some (inject_Z (if b then 1 else 0))
    | VInt n => Some (inject_Z n)
    | VFloat x => Some x
    | _ => None
    end in
  PyVal.key_eqb a b
  = match number a, number b with
    | Some x, Some y => Qeq_bool x y
    | None, None =>
        match a, b with
        | VNone, VNone => true
        | VStr x, VStr y => String.eqb x y
        | _, _ => false
        end
    | _, _ => false
    end.
Proof.
  assert (Hz : forall x y, (x =? y) = Qeq_bool (inject_Z x) (inject_Z y)).
  { intros x y. apply eq_true_iff_eq.
    by rewrite Z.eqb_eq, Qeq_bool_iff, inject_Z_injective. }
  destruct a as [ | x | x | x | x | | ], b as [ | y | y | y | y | | ];
    cbn [PyVal.key_eqb]; cbv zeta; cbv iota; cbv beta; try reflexivity;
    rewrite ?Hz; try reflexivity; try apply Qeq_bool_comm.
  by destruct x, y.
Qed.

Lemma key_eqb_trans a b c :
  PyVal.key_eqb a b = true -> PyVal.key_eqb c a = PyVal.key_eqb c b.
Proof.
  assert (Hq : forall x y z, Qeq_bool x y = true -> Qeq_bool z x = Qeq_bool z y).
  { intros x y z H. apply Qeq_bool_iff in H. apply eq_true_iff_eq.
    rewrite !Qeq_bool_iff. by rewrite H. }
  rewrite !key_eqb_number. cbv zeta.
  destruct a as [ | x | x | x | x | | ], b as [ | y | y | y | y | | ];
    try done; intros H; try (apply String.eqb_eq in H; subst; done);
    destruct c as [ | z | z | z | z | | ]; try done; by apply Hq.
Qed.

Lemma pydict_get_ext {A} a b (l : list (value * A)) :
  (forall c, PyVal.key_eqb c a = PyVal.key_eqb c b) ->
  pydict_get a l = pydict_get b l.
Proof.
  intros Hab. induction l as [ | [k v] l IH]; simpl; [done | ].
  by rewrite Hab, IH.
Qed.

Lemma pydict_set_named name dep acc :
  named_entries acc -> dep !! "name" = Some name ->
  PyVal.hashable name = true -> named_entries (pydict_set name dep acc).
Proof.
  intros Hacc Hname Hh.
  induction Hacc as [ | [k o] acc Hko Hacc IH]; simpl.
  - constructor; [ | constructor]. exists name. split; [done | ].
    by apply key_eqb_refl.
  - destruct (PyVal.key_eqb k name) eqn:Hk.
    + constructor; [ | exact Hacc]. by exists name.
    + by constructor.
Qed.

Lemma overrides_by_name_named overrides : forall acc by_name,
  named_entries acc -> overrides_by_name overrides acc = Ok by_name ->
  named_entries by_name /\ Forall has_name overrides.
Proof.
  induction overrides as [ | dep rest IH]; intros acc by_name Hacc; simpl.
  - intros [= <-]. by split.
  - unfold getitem_name. destruct (dep !! "name") as [name | ] eqn:Hname;
      [ | done].
    destruct (PyVal.hashable name) eqn:Hh; [ | done].
    intros Hrest.
    destruct (IH _ _ (pydict_set_named _ _ _ Hacc Hname Hh) Hrest) as [Hn Hall].
    split; [done | ]. constructor; [ | done]. unfold has_name. by rewrite Hname.
Qed.

(** The override found for a name has a [name] equal to it. *)
Lemma pydict_get_named k o by_name :
  named_entries by_name -> pydict_get k by_name = Some o ->
  exists n, o !! "name" = Some n /\
            forall c, PyVal.key_eqb c n = PyVal.key_eqb c k.
Proof.
  induction 1 as [ | [k' o'] l (n & Hn & Hk'n) _ IH]; simpl; [done | ].
  destruct (PyVal.key_eqb k' k) eqn:Hk; [ | exact IH].
  intros [= <-]. exists n. split; [done | ]. intros c. simpl in *.
  by rewrite <- (key_eqb_trans _ _ c Hk'n), (key_eqb_trans _ _ c Hk).
Qed.

Lemma deps_set_marked by_name k d l :
  Forall (marked by_name) l ->
  (forall k', k' = k \/ PyVal.key_eqb k' k = true -> marked by_name (k', d)) ->
  Forall (marked by_name) (deps_set k d l).
Proof.
  intros Hl Hd. induction Hl as [ | [k' d'] l Hkd Hl IH]; simpl.
  - constructor; [ | constructor]. apply Hd. by left.
  - destruct (PyVal.key_eqb k' k) eqn:Hk; constructor; auto.
Qed.

(** What [create_dependency] can do to the collection. *)
Lemma create_dependency_cases {W} (coll : DependencyCollection) (sys : Sys W)
    defn overrides r st' :
  create_dependency W defn overrides (coll, sys) = (r, st') ->
  (exists e, r = Raise e /\ st' = (coll, sys)) \/
  (r = Ok tt /\ st' = (coll, sys)) \/
  (exists defaults name,
     type_layer (dependency_types coll) defn = Ok defaults /\
     layered_lookup "name" overrides defn defaults (base_env coll) = Some name /\
     r = Ok tt /\
     st' = (store name
              (new_dependency name
                 (merged (base_env coll) defaults defn overrides)
                 (0 <? size overrides)%nat) coll, sys)).
Proof.
  destruct (type_layer (dependency_types coll) defn) as [defaults | e | ] eqn:Htype.
  - rewrite (create_dependency_run coll sys defn overrides defaults Htype).
    cbv zeta. destruct (is_ignored _).
    { intros [= <- <-]. right; left. done. }
    rewrite merged_lookup.
    destruct (layered_lookup "name" overrides defn defaults (base_env coll))
      as [name | ] eqn:Hname.
    + destruct (PyVal.hashable name).
      * intros [= <- <-]. right; right. by exists defaults, name.
      * intros [= <- <-]. left. eauto.
    + intros [= <- <-]. left. eauto.
  - unfold create_dependency, bind at 1, get at 1. cbn [fst].
    unfold type_layer in Htype.
    destruct (defn !! "type") as [t | ]; [ | done].
    unfold bind, lift_res. rewrite Htype. intros [= <- <-]. left. eauto.
  - unfold type_layer in Htype.
    destruct (defn !! "type") as [t | ]; [ | done].
    destruct t as [ | | | | s | | ]; simpl in Htype; try done.
    by destruct (dependency_types coll !! s).
Qed.

Lemma create_each_marked {W} by_name deps :
  named_entries by_name ->
  forall (st st' : DependencyCollection * Sys W),
    Forall (marked by_name) (dependencies (fst st)) ->
    create_each W by_name deps st = (Ok tt, st') ->
    Forall (marked by_name) (dependencies (fst st')) /\
    snd st' = snd st /\ Forall has_name deps.
Proof.
  intros Hbn. induction deps as [ | d rest IH]; intros [coll sys] st' HI; simpl.
  - intros [= <-]. by split_and!.
  - rewrite bind_run. unfold lift_res, getitem_name.
    destruct (d !! "name") as [name | ] eqn:Hname; [ | done].
    rewrite bind_run.
    destruct (PyVal.hashable name) eqn:Hh; [ | done].
    unfold ret at 1. rewrite bind_run.
    destruct (create_dependency W d (default ∅ (pydict_get name by_name))
                (coll, sys)) as [r st1] eqn:Hcreate.
    assert (Hnamed : has_name d) by (unfold has_name; by rewrite Hname).
    destruct (create_dependency_cases _ _ _ _ _ _ Hcreate)
      as [(e & -> & _) | [(-> & ->) | (defaults & n & Htype & Hn & -> & ->)]];
      [done | | ].
    + intros Hrest. destruct (IH _ _ HI Hrest) as (? & ? & ?).
      by split_and!; [ | | constructor].
    + intros Hrest.
      assert (HI1 : Forall (marked by_name)
                (deps_set n (new_dependency n
                   (merged (base_env coll) defaults d
                      (default ∅ (pydict_get name by_name)))
                   (0 <? size (default ∅ (pydict_get name by_name)))%nat)
                   (dependencies coll))).
      { apply deps_set_marked; [exact HI | ]. intros k' Hk'.
        unfold marked. cbn [fst snd has_overrides new_dependency].
        unfold layered_lookup in Hn.
        destruct (pydict_get name by_name) as [o | ] eqn:Hget;
          cbn [default from_option] in *; unfold id in *.
        - destruct (pydict_get_named _ _ _ Hbn Hget) as (n' & Hn' & Heq).
          rewrite Hn' in Hn. injection Hn as <-.
          assert (Hk : pydict_get k' by_name = Some o).
          { rewrite <- Hget. apply pydict_get_ext. intros c.
            destruct Hk' as [-> | Hk']; [apply Heq | ].
            by rewrite (key_eqb_trans _ _ c Hk'). }
          rewrite Hk. split; [done | ]. intros _. apply Nat.ltb_lt.
          assert (size o <> 0)%nat; [ | lia].
          by apply (map_size_ne_0_lookup_2 o "name").
        - rewrite lookup_empty, Hname in Hn. injection Hn as <-.
          assert (Hk : pydict_get k' by_name = None).
          { rewrite <- Hget. apply pydict_get_ext. intros c.
            destruct Hk' as [-> | Hk']; [done | ].
            by rewrite (key_eqb_trans _ _ c Hk'). }
          rewrite Hk, map_size_empty. split; [done | ]. by intros []. }
      apply IH in Hrest; [ | exact HI1]. destruct Hrest as (? & ? & ?).
      by split_and!; [ | | constructor].
Qed.

(** When [read_json_dependencies] returns a collection: every
    definition and every override has a [name] of its own (the name
    that the type or the base environment would supply is not enough);
    a record is marked [has_overrides] exactly when the overrides have
    an entry whose name equals the name the record is stored under, so
    with an empty list of overrides no record is marked; nothing is
    logged and the outside world is not touched. *)
Theorem read_json_marks_overridden {W} definitions overrides env
    (sys sys' : Sys W) collection :
  read_json_dependencies W definitions overrides env sys = (Ok collection, sys') ->
  sys' = sys /\
  Forall has_name definitions /\ Forall has_name overrides /\
  exists by_name,
    overrides_by_name overrides [] = Ok by_name /\
    Forall (marked by_name) (dependencies collection) /\
    (overrides = [] ->
     Forall (fun kd => has_overrides (snd kd) = false) (dependencies collection)).
Proof.
  unfold read_json_dependencies. rewrite bind_run. unfold lift_res.
  destruct (overrides_by_name overrides []) as [by_name | e | ] eqn:Hbn;
    [ | done | done].
  destruct (overrides_by_name_named _ _ _ (List.Forall_nil _) Hbn) as [Hnamed Hov].
  destruct (create_each W by_name definitions (new_collection env, sys))
    as [[[] | e | ] [coll sys1]] eqn:Hrun; [ | done | done].
  intros [= <- <-].
  destruct (create_each_marked by_name definitions Hnamed
              (new_collection env, sys) (coll, sys1)
              (List.Forall_nil _) Hrun) as (Hm & Hsys & Hdeps).
  simpl in Hm, Hsys. split_and!; [done | done | done | ].
  exists by_name. split_and!; [done | done | ].
  intros ->. simpl in Hbn. injection Hbn as <-.
  eapply Forall_impl; [exact Hm | ].
  intros [k d] Hkd. unfold marked in Hkd. simpl in *.
  destruct (has_overrides d); [ | done].
  exfalso. by apply Hkd.
Qed.

Lemma read_json_marks_overridden_witness :
  Forall has_name [defn_A; defn_B] /\
  Forall has_name [override_A] /\
  exists by_name,
    overrides_by_name [override_A] [] = Ok by_name /\
    Forall (marked by_name) (dependencies coll_AB).
Proof.
  destruct (read_json_marks_overridden [defn_A; defn_B] [override_A] linux_env
              quiet quiet coll_AB) as (_ & Hd & Ho & bn & Hbn & Hm & _).
  - vm_compute. reflexivity.
  - split_and!; [exact Hd | exact Ho | ]. exists bn. by split.
Defined.

Example read_json_samples :
  fst (read_json_dependencies unit
         [list_to_map [("type", VStr "ignore")]] [] linux_env quiet)
  = Raise (mk_exn KeyError [VStr "name"]) /\
  match read_json_dependencies unit [defn_A; defn_B] [override_A] linux_env quiet with
  | (Ok coll, _) =>
      map (fun kd => (fst kd, has_overrides (snd kd))) (dependencies coll)
      = [(VStr "A", true); (VStr "B", false)]
  | _ => False
  end.
Proof. vm_compute. auto. Qed.

(** ** The start of fetch_dependencies *)

Lemma call_within_mono dirs dirs' c :
  (forall a, In a dirs -> In a dirs') ->
  call_within dirs c -> call_within dirs' c.
Proof. intros Hsub (a & Ha & Hc). exists a. split; [by apply Hsub | done]. Qed.

(** The platform that [fetch_dependencies] goes on with. *)
Lemma fetch_dependencies_platform_run default_platform platform env :
  fetch_dependencies_platform default_platform platform env
  = match platform with
    | VNone =>
        match env !! "platform" with
        | Some _ => (Raise no_platform, env)
        | None =>
            match default_platform with
            | VNone => (Raise no_platform, <["platform" := VNone]> env)
            | p => (Ok p, <["platform" := p]> env)
            end
        end
    | p => (Ok p, <["platform" := p]> env)
    end.
Proof.
  unfold fetch_dependencies_platform.
  destruct platform as [ | b | n | q | s | l | d];
    rewrite bind_run; unfold ret at 1, modify at 1;
    rewrite bind_run; unfold get at 1;
    rewrite ?lookup_insert_eq; try reflexivity.
  destruct (env !! "platform") as [v | ]; [reflexivity | ].
  by destruct default_platform.
Qed.

Lemma clean_dirs_cleanable fetch nuget platform dirs a :
  clean_dirs fetch nuget platform = Ok dirs -> In a dirs ->
  In a (cleanable (Some platform)).
Proof.
  unfold clean_dirs, cleanable.
  destruct fetch, nuget, platform as [ | | | | p | | ]; try done;
    intros [= <-]; simpl; tauto.
Qed.

Section FetchDependenciesProperties.
Variable default_platform : value.
Variable FS : Type.
Variable os_path_isdir : string -> FS -> bool.
Variable os_rename : string -> string -> FS -> outcome unit * FS.
Variable shutil_rmtree : string -> FS -> outcome unit * FS.

Abbreviation start_of_fetch :=
  (fetch_dependencies_clean default_platform FS os_path_isdir os_rename
     shutil_rmtree).

(** The first part of [fetch_dependencies].  When it goes on, it does
    so with a platform that is not [None] and that is the [platform]
    entry of [env] from then on: the argument if one was given, else
    what [default_platform] returned, and this only if [env] had no
    such entry.  An [env] that names the platform is not read: without
    the argument the function raises, and has made no call.  Whatever
    happens, every rename and removal concerns
    [dependencies/AnyPlatform], [dependencies/<platform>] or
    [dependencies/nuget], and none is made unless [clean] is set and
    [list_details] is not. *)
Theorem fetch_dependencies_start platform env fetch nuget clean list_details disk :
  let result := start_of_fetch platform env fetch nuget clean list_details disk in
  let env' := fst (snd result) in
  (forall p, fst result = Ok p ->
     p <> VNone /\ env' = <["platform" := p]> (default ∅ env) /\
     (platform = VNone ->
      default ∅ env !! "platform" = None /\ p = default_platform) /\
     (platform <> VNone -> p = platform)) /\
  (platform = VNone -> default ∅ env !! "platform" <> None ->
   result = (Raise no_platform, (default ∅ env, {| fs := disk; calls := [] |}))) /\
  Forall (call_within (cleanable (env' !! "platform")))
    (calls (snd (snd result))) /\
  (clean && negb list_details = false ->
   snd (snd result) = {| fs := disk; calls := [] |}).
Proof.
  intros result env'. subst env' result. unfold fetch_dependencies_clean.
  rewrite fetch_dependencies_platform_run.
  set (env0 := default ∅ env).
  assert (Hgo : forall p, p <> VNone ->
    let result :=
      if clean && negb list_details then
        match clean_dirs fetch nuget p with
        | Ok dirs =>
            match clean_directories FS os_path_isdir os_rename shutil_rmtree
                    dirs disk with
            | (Ok _, d) => (Ok p, (<["platform" := p]> env0, d))
            | (Raise e, d) => (Raise e, (<["platform" := p]> env0, d))
            | (OutOfFuel, d) => (OutOfFuel, (<["platform" := p]> env0, d))
            end
        | Raise e =>
            (Raise e, (<["platform" := p]> env0, {| fs := disk; calls := [] |}))
        | OutOfFuel =>
            (OutOfFuel, (<["platform" := p]> env0, {| fs := disk; calls := [] |}))
        end
      else (Ok p, (<["platform" := p]> env0, {| fs := disk; calls := [] |})) in
    (forall q, fst result = Ok q -> q = p) /\
    fst (snd result) = <["platform" := p]> env0 /\
    Forall (call_within (cleanable (Some p))) (calls (snd (snd result))) /\
    (clean && negb list_details = false ->
     snd (snd result) = {| fs := disk; calls := [] |})).
  { intros p Hp. cbv zeta.
    destruct (clean && negb list_details); [ | by split_and!; [intros q [= <-] | ..]].
    destruct (clean_dirs fetch nuget p) as [dirs | e | ] eqn:Hdirs;
      [ | by split_and! .. ].
    pose proof (clean_directories_cases FS os_path_isdir os_rename
                  shutil_rmtree dirs disk) as Hcases.
    apply clean_outcome_within in Hcases.
    destruct (clean_directories FS os_path_isdir os_rename shutil_rmtree
                dirs disk) as [[[] | e | ] d]; cbn [fst snd] in *;
      (split_and!; [try done; by intros q [= <-] | done | | done]);
      (eapply Forall_impl; [exact Hcases | ]);
      intros c; apply call_within_mono; intros a;
      apply (clean_dirs_cleanable _ _ _ _ _ Hdirs). }
  assert (Hstop : forall env1,
    let result : res value * (gmap string value * Disk FS) :=
      (Raise no_platform, (env1, {| fs := disk; calls := [] |})) in
    (forall q, fst result = Ok q -> False) /\
    Forall (call_within (cleanable (fst (snd result) !! "platform")))
      (calls (snd (snd result))) /\
    snd (snd result) = {| fs := disk; calls := [] |}).
  { intros env1. cbv zeta. by split_and!. }
  assert (Hgoes : forall p, p <> VNone ->
            (platform = VNone -> env0 !! "platform" = None /\ p = default_platform) ->
            (platform <> VNone -> p = platform) ->
            forall result,
              result =
              (if clean && negb list_details then
                 match clean_dirs fetch nuget p with
                 | Ok dirs =>
                     match clean_directories FS os_path_isdir os_rename
                             shutil_rmtree dirs disk with
                     | (Ok _, d) => (Ok p, (<["platform" := p]> env0, d))
                     | (Raise e, d) => (Raise e, (<["platform" := p]> env0, d))
                     | (OutOfFuel, d) => (OutOfFuel, (<["platform" := p]> env0, d))
                     end
                 | Raise e =>
                     (Raise e,
                      (<["platform" := p]> env0, {| fs := disk; calls := [] |}))
                 | OutOfFuel =>
                     (OutOfFuel,
                      (<["platform" := p]> env0, {| fs := disk; calls := [] |}))
                 end
               else (Ok p, (<["platform" := p]> env0, {| fs := disk; calls := [] |}))) ->
    (forall q, fst result = Ok q ->
       q <> VNone /\ fst (snd result) = <["platform" := q]> env0 /\
       (platform = VNone -> env0 !! "platform" = None /\ q = default_platform) /\
       (platform <> VNone -> q = platform)) /\
    (platform = VNone -> env0 !! "platform" <> None ->
     result = (Raise no_platform, (env0, {| fs := disk; calls := [] |}))) /\
    Forall (call_within (cleanable (fst (snd result) !! "platform")))
      (calls (snd (snd result))) /\
    (clean && negb list_details = false ->
     snd (snd result) = {| fs := disk; calls := [] |})).
  { intros p Hp Hnone Hsome result ->.
    destruct (Hgo p Hp) as (H1 & H2 & H3 & H4). cbv zeta in *.
    split_and!.
    - intros q Hq. rewrite (H1 q Hq). by split_and!.
    - intros Hpl Henv. by destruct (Hnone Hpl).
    - by rewrite H2, lookup_insert_eq.
    - exact H4. }
  destruct platform as [ | b | n | x | s | l | d];
    [ | apply (Hgoes (VBool b)); [done | by intros | by intros | done]
      | apply (Hgoes (VInt n)); [done | by intros | by intros | done]
      | apply (Hgoes (VFloat x)); [done | by intros | by intros | done]
      | apply (Hgoes (VStr s)); [done | by intros | by intros | done]
      | apply (Hgoes (VList l)); [done | by intros | by intros | done]
      | apply (Hgoes (VDict d)); [done | by intros | by intros | done] ].
  destruct (env0 !! "platform") as [v | ] eqn:Henv.
  { destruct (Hstop env0) as (H1 & H2 & H3). by split_and!. }
  destruct default_platform as [ | b | n | x | s | l | d] eqn:Hdef;
    [ | apply (Hgoes (VBool b)); [done | intros; rewrite ?Hdef; done | by intros | done]
      | apply (Hgoes (VInt n)); [done | intros; rewrite ?Hdef; done | by intros | done]
      | apply (Hgoes (VFloat x)); [done | intros; rewrite ?Hdef; done | by intros | done]
      | apply (Hgoes (VStr s)); [done | intros; rewrite ?Hdef; done | by intros | done]
      | apply (Hgoes (VList l)); [done | intros; rewrite ?Hdef; done | by intros | done]
      | apply (Hgoes (VDict d)); [done | intros; rewrite ?Hdef; done | by intros | done] ].
  destruct (Hstop (<["platform" := VNone]> env0)) as (H1 & H2 & H3).
  by split_and!.
Qed.

End FetchDependenciesProperties.

Lemma fetch_dependencies_start_witness :
  fetch_dependencies_clean (VStr "Linux-x64") FlatFS.t FlatFS.isdir
    FlatFS.rename FlatFS.rmtree VNone (Some linux_env) true true true false
    disk_xy
  = (Raise no_platform, (linux_env, {| fs := disk_xy; calls := [] |})).
Proof.
  pose proof (fetch_dependencies_start (VStr "Linux-x64") FlatFS.t FlatFS.isdir
                FlatFS.rename FlatFS.rmtree VNone (Some linux_env)
                true true true false disk_xy) as H.
  cbv zeta in H. destruct H as (_ & H & _).
  apply H; [reflexivity | ]. vm_compute. discriminate.
Defined.

(** With the platform given, the directories of the platform are
    cleaned, and nothing else. *)
Example fetch_dependencies_cleans :
  fetch_dependencies_clean VNone FlatFS.t FlatFS.isdir FlatFS.rename
    FlatFS.rmtree (VStr "Linux-x64") None true true true false
    (list_to_map [("dependencies/Linux-x64", FlatFS.mk_dir ["a.dll"] false);
                  ("dependencies/Windows-x86", FlatFS.mk_dir ["b.dll"] false)])
  = (Ok (VStr "Linux-x64"),
     (linux_env,
      {| fs := list_to_map
                 [("dependencies/Windows-x86", FlatFS.mk_dir ["b.dll"] false)];
         calls := [CallRename "dependencies/Linux-x64"
                     "dependencies/Linux-x64.deleteme" None;
                   CallRmtree "dependencies/Linux-x64.deleteme" None] |})).
Proof. vm_compute. reflexivity. Qed.

(** ** open_file_url *)

Lemma classify_local_path sep smb path final :
  FileUrl.classify sep smb path = inr (false, false, final) ->
  exists c r, final = String c r /\ c <> "/"%char.
Proof.
  unfold FileUrl.classify.
  destruct path as [ | c0 [ | c1 rest]]; try done.
  - by destruct (Ascii.eqb c0 "/"), (FileUrl.isalpha c0).
  - destruct (Ascii.eqb c0 "/") eqn:H0.
    + destruct (Ascii.eqb c1 "/") eqn:H1; [done | ]. destruct smb; [done | ].
      intros [= <-]. cbn [FileUrl.replace]. rewrite H1.
      eexists _, _. split; [done | ]. by apply Ascii.eqb_neq.
    + destruct (FileUrl.isalpha c0); [ | done].
      destruct (Ascii.eqb c1 ":"); [ | done].
      intros [= <-]. cbn [FileUrl.replace]. rewrite H0.
      eexists _, _. split; [done | ]. by apply Ascii.eqb_neq.
Qed.

Lemma classify_remote sep smb path final :
  FileUrl.classify sep smb path = inr (true, false, final) ->
  PyStr.startswith "\\" final = true.
Proof.
  unfold FileUrl.classify.
  destruct path as [ | c0 [ | c1 rest]]; try done.
  - destruct (Ascii.eqb c0 "/"); [done | ].
    destruct (FileUrl.isalpha c0); [done | ]. by intros [= <-].
  - destruct (Ascii.eqb c0 "/").
    + destruct (Ascii.eqb c1 "/"); [done | ]. by destruct smb.
    + destruct (FileUrl.isalpha c0); [ | by intros [= <-]].
      destruct (Ascii.eqb c1 ":"); [done | ]. by intros [= <-].
Qed.

Lemma classify_not_legacy_local sep smb path final :
  FileUrl.classify sep smb path <> inr (false, true, final).
Proof.
  unfold FileUrl.classify.
  destruct path as [ | c0 [ | c1 rest]]; try done.
  - by destruct (Ascii.eqb c0 "/"), (FileUrl.isalpha c0).
  - destruct (Ascii.eqb c0 "/").
    + destruct (Ascii.eqb c1 "/"); [done | ]. by destruct smb.
    + destruct (FileUrl.isalpha c0); [ | done].
      by destruct (Ascii.eqb c1 ":").
Qed.

(** When [open_file_url] gets as far as opening a file.  On a platform
    that is not Windows the URL is not an [smb://] one and the path
    opened does not start with a slash: only paths relative to the
    working directory (for [file:///path] the text after the third
    slash) and drive-letter paths are opened, and every host path is
    refused.  An [smb://] URL is opened only on Windows, and then as
    the host path that starts with two backslashes. *)
Theorem open_file_url_opens url2pathname sep windows url final :
  FileUrl.open_file_url url2pathname sep windows url = inr final ->
  (windows = false ->
   PyStr.startswith "smb://" url = false /\
   exists c r, final = String c r /\ c <> "/"%char) /\
  (PyStr.startswith "smb://" url = true ->
   windows = true /\ PyStr.startswith "\\" final = true).
Proof.
  unfold FileUrl.open_file_url.
  set (rest := if PyStr.startswith "smb://" url then (FileUrl.drop 6 url, true)
               else if PyStr.startswith "file://" url
                    then (FileUrl.drop 7 url, false) else (url, false)).
  assert (Hsmb : snd rest = PyStr.startswith "smb://" url).
  { unfold rest. destruct (PyStr.startswith "smb://" url); [done | ].
    by destruct (PyStr.startswith "file://" url). }
  destruct rest as [url' smb]. cbn [snd] in Hsmb. subst smb.
  set (smb := PyStr.startswith "smb://" url).
  destruct (FileUrl.classify sep smb
              (FileUrl.replace sep "/" (url2pathname url')))
    as [e | [[remote legacy] final_path]] eqn:Hc; [done | ].
  destruct smb eqn:Hsmb, remote, legacy, windows; cbn; try done;
    intros [= <-]; split; try done; intros _;
    first [ split; [done | exact (classify_remote _ _ _ _ Hc)]
          | split; [done | exact (classify_local_path _ _ _ _ Hc)]
          | destruct (classify_not_legacy_local _ _ _ _ Hc) ].
Qed.

Lemma open_file_url_opens_witness :
  PyStr.startswith "smb://" "file:///work/a.tar.gz" = false /\
  exists c r, "work/a.tar.gz" = String c r /\ c <> "/"%char.
Proof.
  apply (open_file_url_opens (fun url => url) "/" false
           "file:///work/a.tar.gz" "work/a.tar.gz");
    reflexivity.
Defined.

Example open_file_url_samples :
  map (FileUrl.open_file_url (fun url => url) "/" false)
    ["file:///work/a.tar.gz"; "file:////host/share/a.zip";
     "smb://host/share/a.zip"; "file://host/share/a.zip"; "file://"; "file:///"]
  = [inr "work/a.tar.gz"; inl FileUrl.SmbNotSupported;
     inl FileUrl.SmbNotSupported; inl FileUrl.SmbNotSupported;
     inl FileUrl.IndexError; inl FileUrl.IndexError] /\
  map (FileUrl.open_file_url (fun url => url) "\" true)
    ["smb://host/share/a.zip"; "smb:///share/a.zip"; "smb:////host/a.zip";
     "file://C:/work/a.zip"]
  = [inr "\\host\share\a.zip"; inl FileUrl.BadSmbLocal; inl FileUrl.BadSmbPath;
     inr "C:\work\a.zip"].
Proof. split; reflexivity. Qed.

(** ** References *)

Lemma tokenize_fuel_lit n c t :
  Ascii.eqb "$" c = false ->
  tokenize_fuel (S n) (String c t) = TLit c :: tokenize_fuel n t.
Proof.
  intros Hc.
  destruct c as [[] [] [] [] [] [] [] []]; try discriminate Hc;
    destruct t; reflexivity.
Qed.

Lemma string_length_app a b :
  String.length (a ++ b) = (String.length a + String.length b)%nat.
Proof. induction a as [ | c a IH]; simpl; [done | ]. by rewrite IH. Qed.

Lemma tokenize_fuel_reference prefix k suffix : forall n,
  PyStr.contains "$" prefix = false -> PyStr.contains "}" k = false ->
  PyStr.contains "$" suffix = false ->
  (String.length (prefix ++ "${" ++ k ++ "}" ++ suffix) <= n)%nat ->
  tokenize_fuel n (prefix ++ "${" ++ k ++ "}" ++ suffix)
  = (text_tokens prefix ++ TMatch (MParens k) :: text_tokens suffix)%list.
Proof.
  intros n Hp Hk Hs. revert n Hp.
  induction prefix as [ | c p IH]; intros n Hp Hn.
  - change ("" ++ "${" ++ k ++ "}" ++ suffix)%string
      with (String "$" (String "{" (k ++ String "}" suffix))) in *.
    destruct n as [ | n]; [simpl in Hn; lia | ].
    cbn [tokenize_fuel].
    change (PyStr.is_word_start "{") with false.
    change (Ascii.eqb "{" "{") with true. cbv iota.
    rewrite (split1_app_char _ _ _ Hk).
    rewrite tokenize_fuel_plain; [done | done | ].
    simpl in Hn. rewrite string_length_app in Hn. simpl in Hn. lia.
  - change (PyStr.contains "$" (String c p))
      with (Ascii.eqb "$" c || PyStr.contains "$" p) in Hp.
    apply orb_false_iff in Hp as [Hc Hp].
    change (String c p ++ "${" ++ k ++ "}" ++ suffix)%string
      with (String c (p ++ "${" ++ k ++ "}" ++ suffix)) in *.
    destruct n as [ | n]; [simpl in Hn; lia | ].
    rewrite (tokenize_fuel_lit _ _ _ Hc), IH; [done | done | ].
    simpl in Hn. lia.
Qed.

Lemma sub_pieces_text_app rec p ts self :
  sub_pieces rec (text_tokens p ++ ts) self
  = bind (sub_pieces rec ts) (fun ps => ret (text_pieces p ++ ps)%list) self.
Proof.
  induction p as [ | c p IH]; simpl.
  - unfold bind, ret. by destruct (sub_pieces rec ts self) as [[ps | e | ] s1].
  - rewrite !bind_run. unfold ret at 1. rewrite bind_run, IH, bind_run.
    by destruct (sub_pieces rec ts self) as [[ps | e | ] s1].
Qed.

Lemma join_pieces_text_app p ps :
  join_pieces (text_pieces p ++ ps)
  = match join_pieces ps with
    | Ok r => Ok (p ++ r)%string
    | e => e
    end.
Proof.
  induction p as [ | c p IH]; simpl.
  - by destruct (join_pieces ps).
  - rewrite IH. by destruct (join_pieces ps).
Qed.

(** One reference between two texts without a dollar sign: the template
    becomes the two texts around what the lookup of the reference
    returned. *)
Lemma template_sub_reference rec prefix k suffix s self self' :
  PyStr.contains "$" prefix = false -> PyStr.contains "}" k = false ->
  PyStr.contains "$" suffix = false ->
  PyStr.strip k = k -> PyStr.contains "?" k = false ->
  rec k self = (Ok (VStr s), self') ->
  template_sub rec (prefix ++ "${" ++ k ++ "}" ++ suffix) self
  = (Ok (VStr (prefix ++ s ++ suffix)), self').
Proof.
  intros Hp Hk Hs Hstrip Hq Hrec. unfold template_sub, tokenize.
  rewrite tokenize_fuel_reference by (done || lia).
  rewrite bind_run, sub_pieces_text_app, bind_run.
  cbn [sub_pieces]. rewrite bind_run.
  unfold replacematch. rewrite Hstrip, Hq, Hrec.
  rewrite bind_run, sub_pieces_text. unfold ret at 1 2.
  rewrite bind_run. unfold lift_res.
  rewrite join_pieces_text_app. cbn [join_pieces].
  rewrite join_pieces_text. reflexivity.
Qed.

(** A value with one reference [${k}] between two texts without a
    dollar sign, where the value of [k] is a string without a dollar
    sign: the lookup returns the first text, the value of [k] and the
    second text, and caches both keys.  The name [k] has nothing at its
    ends that [strip] removes, neither the one of [str] nor the one of
    [unicode], so that [k] is the key that is looked up whichever of
    the two the template is: [replacematch] replaces the reference by
    the lookup of [k] on either kind of template.  This holds in every
    state that calls of [expand] can produce in which the key is neither
    cached nor left in progress. *)
Theorem reference_is_replaced E self key prefix k suffix s :
  reachable E self ->
  cache self !! key = None -> key ∉ expandset self ->
  E !! key = Some (VStr (prefix ++ "${" ++ k ++ "}" ++ suffix)) ->
  PyStr.contains "$" prefix = false -> PyStr.contains "$" suffix = false ->
  PyStr.contains "}" k = false -> PyStr.contains "?" k = false ->
  PyStr.strip k = k -> PyStr.ustrip k = k ->
  E !! k = Some (VStr s) -> PyStr.contains "$" s = false ->
  expander_expand key self
  = (Ok (VStr (prefix ++ s ++ suffix)),
     remember key (VStr (prefix ++ s ++ suffix)) (remember k (VStr s) self)) /\
  (forall kind rec, replacematch_as rec kind (MParens k) = rec k).
Proof.
  intros Hreach Hc Hnin Hkey Hp Hs Hk Hq Hstrip Hustrip Hkv Hlit.
  split.
  2:{ intros kind rec. unfold replacematch_as. cbv zeta.
      assert (Hkind : PyStr.strip_as kind k = k) by (by destruct kind).
      by rewrite Hkind, Hq. }
  pose proof (reachable_consistent _ _ Hreach) as Hcons.
  pose proof Hcons as (HE & _ & _).
  unfold expander_expand, enough_fuel.
  rewrite (expand_defined _ _ _ _ Hc Hnin) by (by rewrite HE).
  assert (Hfuel : exists fuel, size (env_dict self) = S fuel).
  { destruct (size (env_dict self)) as [ | fuel] eqn:Hsz; [ | eauto].
    apply map_size_empty_inv in Hsz. rewrite HE in Hsz.
    by rewrite Hsz, lookup_empty in Hkey. }
  destruct Hfuel as [fuel ->].
  assert (Hinner : expand (S fuel) k (enter key self)
                   = (Ok (VStr s), remember k (VStr s) (enter key self))).
  { apply (expand_literal _ E); [ | done | by simpl; rewrite Hlit].
    apply consistent_enter; [done | ].
    intros v Hv. rewrite Hkey in Hv. injection Hv as <-. simpl.
    apply negb_false_iff.
    change (prefix ++ "${" ++ k ++ "}" ++ suffix)%string
      with (prefix ++ String "$" ("{" ++ k ++ "}" ++ suffix))%string.
    apply contains_app_char. }
  cbn [_expandvalue].
  rewrite (template_sub_reference _ _ _ _ _ _ _ Hp Hk Hs Hstrip Hq Hinner).
  simpl.
  destruct (decide (key ∈ {[key]} ∪ expandset self)) as [_ | Hn];
    [ | set_solver].
  unfold remember. simpl. do 2 f_equal. set_solver.
Qed.

Lemma reference_is_replaced_witness :
  expander_expand "dest"
    (new_expander (<["dest" := VStr "dependencies/${platform}/"]> linux_env))
  = (Ok (VStr "dependencies/Linux-x64/"),
     remember "dest" (VStr "dependencies/Linux-x64/")
       (remember "platform" (VStr "Linux-x64")
          (new_expander (<["dest" := VStr "dependencies/${platform}/"]> linux_env)))).
Proof.
  apply (reference_is_replaced
           (<["dest" := VStr "dependencies/${platform}/"]> linux_env)
           (new_expander (<["dest" := VStr "dependencies/${platform}/"]> linux_env))
           "dest" "dependencies/" "platform" "/" "Linux-x64");
    try reflexivity.
  - apply reachable_new.
  - simpl. set_solver.
Defined.

(** ** Termination *)

Section Extends.
Context {S : Type}.

Lemma extends_refl {A} (m : M S A) : extends m m.
Proof. by intros s r s' H _. Qed.

Lemma extends_bind {A B} (m m' : M S A) (k k' : A -> M S B) :
  extends m m' -> (forall a, extends (k a) (k' a)) ->
  extends (bind m k) (bind m' k').
Proof.
  intros Hm Hk s r s'. rewrite !bind_run.
  destruct (m s) as [[a | e | ] s1] eqn:Hms.
  - rewrite (Hm _ _ _ Hms) by done. apply Hk.
  - rewrite (Hm _ _ _ Hms) by done. done.
  - by intros [= <- <-].
Qed.

Lemma extends_try_except {A} (m m' : M S A) cls h h' :
  extends m m' -> (forall e, extends (h e) (h' e)) ->
  extends (try_except m cls h) (try_except m' cls h').
Proof.
  intros Hm Hh s r s'. unfold try_except.
  destruct (m s) as [[a | e | ] s1] eqn:Hms.
  - rewrite (Hm _ _ _ Hms) by done. done.
  - rewrite (Hm _ _ _ Hms) by done.
    destruct (exn_class_eqb _ _); [apply Hh | done].
  - by intros [= <- <-].
Qed.

End Extends.

Section ExtendsExpander.
Variables rec rec' : string -> M EnvironmentExpander value.
Hypothesis rec_extends : forall key, extends (rec key) (rec' key).

Lemma extends_expandconditional key :
  extends (expandconditional rec key) (expandconditional rec' key).
Proof.
  unfold expandconditional.
  destruct (negb _); [apply extends_refl | ].
  destruct (PyStr.split1 "?" key) as [[c rest] | ]; [ | apply extends_refl].
  destruct (negb _); [apply extends_refl | ].
  destruct (PyStr.split1 ":" rest) as [[p a] | ]; [ | apply extends_refl].
  apply extends_bind.
  - apply extends_try_except; [apply rec_extends | intros; apply extends_refl].
  - intros v. destruct (is_trueish v); apply rec_extends.
Qed.

Lemma extends_replacematch m :
  extends (replacematch rec m) (replacematch rec' m).
Proof.
  destruct m as [ | w | b]; simpl; try apply extends_refl;
    destruct (PyStr.contains _ _);
    first [apply extends_expandconditional | apply rec_extends].
Qed.

Lemma extends_sub_pieces ts : extends (sub_pieces rec ts) (sub_pieces rec' ts).
Proof.
  induction ts as [ | t ts IH]; simpl; [apply extends_refl | ].
  apply extends_bind;
    [destruct t; [apply extends_refl | apply extends_replacematch] | intros p].
  apply extends_bind; [apply IH | intros ps; apply extends_refl].
Qed.

Lemma extends__expandvalue v : extends (_expandvalue rec v) (_expandvalue rec' v).
Proof.
  induction v as [ | b | n | q | s | l IH | d] using value_ind_list; simpl;
    try apply extends_refl.
  - unfold template_sub.
    apply extends_bind; [apply extends_sub_pieces | intros; apply extends_refl].
  - apply extends_bind; [ | intros; apply extends_refl].
    induction IH as [ | x l Hx _ IHl]; [apply extends_refl | ].
    apply extends_bind; [apply Hx | intros y].
    apply extends_bind; [apply IHl | intros; apply extends_refl].
Qed.

End ExtendsExpander.

(** More fuel does not change what a call of [expand] returns. *)
Lemma expand_more_fuel fuel : forall fuel' key,
  (fuel <= fuel')%nat -> extends (expand fuel key) (expand fuel' key).
Proof.
  induction fuel as [ | fuel IH]; intros fuel' key Hle.
  { by intros s r s' [= <- <-]. }
  destruct fuel' as [ | fuel']; [lia | ].
  assert (Hrec : forall k, extends (expand fuel k) (expand fuel' k)).
  { intros k. apply IH. lia. }
  cbn [expand].
  apply extends_bind; [apply extends_refl | intros self].
  destruct (cache self !! key); [apply extends_refl | ].
  destruct (decide (key ∈ expandset self)); [apply extends_refl | ].
  apply extends_bind; [apply extends_refl | intros _].
  apply extends_bind; [ | intros; apply extends_refl].
  unfold _expand.
  apply extends_bind; [apply extends_refl | intros self1].
  destruct (env_dict self1 !! key); [ | apply extends_refl].
  by apply extends__expandvalue.
Qed.

(** [expand] terminates on every expander and for every key, references
    in a cycle included: the depth of its recursion never exceeds the
    number of keys of the environment by more than one, so that the
    bound of the model is never reached, and a larger bound gives the
    same result and the same state. *)
Theorem lookup_terminates key self :
  fst (expander_expand key self) <> OutOfFuel /\
  forall fuel, (enough_fuel self <= fuel)%nat ->
    expand fuel key self = expander_expand key self.
Proof.
  pose proof (expander_expand_total key self) as (Hr & _ & _).
  split; [exact Hr | ]. intros fuel Hle.
  unfold expander_expand in *.
  destruct (expand (enough_fuel self) key self) as [r self'] eqn:Hx.
  by apply (expand_more_fuel _ _ key Hle self r self').
Qed.

Lemma lookup_terminates_witness :
  expand 10 "a" (new_expander cycle_env)
  = expander_expand "a" (new_expander cycle_env).
Proof.
  apply (lookup_terminates "a" (new_expander cycle_env)).
  vm_compute. lia.
Defined.

(** ** The two forms of a reference *)

Lemma span_word_app w s :
  all_word_chars w = true -> continues_word s = false ->
  PyStr.span_word (w ++ s) = (w, s).
Proof.
  intros Hw Hs. induction w as [ | c w IH].
  - destruct s as [ | d s]; [done | ].
    cbn [continues_word] in Hs.
    change (PyStr.span_word (String d s) = (EmptyString, String d s)).
    cbn [PyStr.span_word]. by rewrite Hs.
  - cbn [all_word_chars] in Hw. apply andb_true_iff in Hw as [Hc Hw].
    change (PyStr.span_word (String c (w ++ s)) = (String c w, s)).
    cbn [PyStr.span_word]. by rewrite Hc, (IH Hw).
Qed.

Lemma word_char_not_brace c : PyStr.is_word_char c = true -> Ascii.eqb "}" c = false.
Proof.
  intros Hc. destruct (Ascii.eqb "}" c) eqn:H; [ | done].
  apply Ascii.eqb_eq in H. by subst c.
Qed.

Lemma word_without_brace w :
  all_word_chars w = true -> PyStr.contains "}" w = false.
Proof.
  induction w as [ | c w IH]; [done | ].
  intros H. simpl in H. apply andb_true_iff in H as [Hc Hw].
  change (Ascii.eqb "}" c || PyStr.contains "}" w = false).
  by rewrite (word_char_not_brace _ Hc), (IH Hw).
Qed.

Lemma tokenize_fuel_dollar_word n c r :
  PyStr.is_word_start c = true ->
  tokenize_fuel (S n) (String "$" (String c r))
  = let '(w, r') := PyStr.span_word (String c r) in
    TMatch (MWord w) :: tokenize_fuel n r'.
Proof.
  intros Hc. cbn [tokenize_fuel].
  destruct c as [[] [] [] [] [] [] [] []]; try discriminate Hc;
    change (PyStr.is_word_start _) with true; reflexivity.
Qed.

Lemma tokenize_fuel_word prefix w suffix : forall n,
  PyStr.contains "$" prefix = false -> is_identifier w = true ->
  PyStr.contains "$" suffix = false -> continues_word suffix = false ->
  (String.length (prefix ++ "$" ++ w ++ suffix) <= n)%nat ->
  tokenize_fuel n (prefix ++ "$" ++ w ++ suffix)
  = (text_tokens prefix ++ TMatch (MWord w) :: text_tokens suffix)%list.
Proof.
  intros n Hp Hw Hs Hcont. revert n Hp.
  induction prefix as [ | c p IH]; intros n Hp Hn.
  - destruct w as [ | c w]; [done | ].
    simpl in Hw. apply andb_true_iff in Hw as [Hc Hw].
    change ("" ++ "$" ++ String c w ++ suffix)%string
      with (String "$" (String c (w ++ suffix))) in *.
    destruct n as [ | n]; [simpl in Hn; lia | ].
    rewrite (tokenize_fuel_dollar_word _ _ _ Hc).
    assert (Hspan : PyStr.span_word (String c (w ++ suffix))
                    = (String c w, suffix)).
    { apply (span_word_app (String c w)); [ | done].
      simpl. rewrite Hw, andb_true_r.
      unfold PyStr.is_word_char. by rewrite Hc. }
    rewrite Hspan. rewrite tokenize_fuel_plain; [done | done | ].
    simpl in Hn. rewrite string_length_app in Hn. lia.
  - change (PyStr.contains "$" (String c p))
      with (Ascii.eqb "$" c || PyStr.contains "$" p) in Hp.
    apply orb_false_iff in Hp as [Hc Hp].
    change (String c p ++ "$" ++ w ++ suffix)%string
      with (String c (p ++ "$" ++ w ++ suffix)) in *.
    destruct n as [ | n]; [simpl in Hn; lia | ].
    rewrite (tokenize_fuel_lit _ _ _ Hc), IH; [done | done | ].
    simpl in Hn. lia.
Qed.

Lemma sub_pieces_word rec ts1 w ts2 :
  sub_pieces rec (ts1 ++ TMatch (MWord w) :: ts2)
  = sub_pieces rec (ts1 ++ TMatch (MParens w) :: ts2).
Proof. induction ts1 as [ | t ts1 IH]; simpl; [done | ]. by rewrite IH. Qed.

(** [$word] stands for [${word}]: between two texts without a dollar
    sign, the second of which does not go on with a letter, a digit or
    an underscore, the two forms expand in the same way, whatever the
    lookup of the word does. *)
Theorem word_form_is_braces_form rec prefix w suffix self :
  PyStr.contains "$" prefix = false -> PyStr.contains "$" suffix = false ->
  is_identifier w = true -> continues_word suffix = false ->
  _expandvalue rec (VStr (prefix ++ "$" ++ w ++ suffix)) self
  = _expandvalue rec (VStr (prefix ++ "${" ++ w ++ "}" ++ suffix)) self.
Proof.
  intros Hp Hs Hw Hcont. cbn [_expandvalue]. unfold template_sub, tokenize.
  rewrite tokenize_fuel_word by (done || lia).
  rewrite tokenize_fuel_reference; [by rewrite sub_pieces_word | done | | done | lia].
  destruct w as [ | c w]; [done | ]. simpl in Hw.
  apply andb_true_iff in Hw as [Hc Hw].
  apply (word_without_brace (String c w)). simpl.
  rewrite Hw, andb_true_r. unfold PyStr.is_word_char. by rewrite Hc.
Qed.

Lemma word_form_is_braces_form_witness :
  _expandvalue (expand 2) (VStr ("dependencies/" ++ "$" ++ "platform" ++ "/"))
    (new_expander linux_env)
  = _expandvalue (expand 2)
      (VStr ("dependencies/" ++ "${" ++ "platform" ++ "}" ++ "/"))
      (new_expander linux_env).
Proof.
  apply (word_form_is_braces_form (expand 2) "dependencies/" "platform" "/"
           (new_expander linux_env));
    reflexivity.
Defined.

(** ** Plain substitution *)

Lemma plain_value_list look l :
  plain_value look (VList l)
  = match plain_each look l with
    | Some xs => Some (VList xs)
    | None => None
    end.
Proof.
  simpl.
  assert (Heach : forall l,
    (fix each (l0 : list value) : option (list value) :=
       match l0 with
       | [] => Some []
       | x :: l' =>
           match plain_value look x, each l' with
           | Some y, Some ys => Some (y :: ys)
           | _, _ => None
           end
       end) l = plain_each look l).
  { clear. induction l as [ | x l IH]; [done | ]. simpl. by rewrite IH. }
  by rewrite Heach.
Qed.

Section Agrees.
Variable I : EnvironmentExpander -> Prop.
Variable rec : string -> M EnvironmentExpander value.
Variable look : string -> option value.
Hypothesis rec_agrees : forall key, agrees I (rec key) (look key).

Lemma agrees_expandconditional key :
  agrees I (expandconditional rec key) (plain_conditional look key).
Proof.
  unfold expandconditional, plain_conditional.
  destruct (negb _); [done | ].
  destruct (PyStr.split1 "?" key) as [[c rest] | ]; [ | done].
  destruct (negb _); [done | ].
  destruct (PyStr.split1 ":" rest) as [[p a] | ]; [ | done].
  intros r Hr s HI.
  destruct (look (PyStr.strip c)) as [v | ] eqn:Hc; [ | done].
  destruct (rec_agrees _ _ Hc s HI) as (s1 & Hrun & HI1).
  rewrite bind_run. unfold try_except. rewrite Hrun.
  destruct (is_trueish v); by apply rec_agrees.
Qed.

Lemma agrees_replacematch m :
  agrees I (replacematch rec m) (plain_match look m).
Proof.
  destruct m as [ | w | b]; simpl.
  - intros r [= <-] s HI. by exists s.
  - destruct (PyStr.contains _ _);
      [apply agrees_expandconditional | apply rec_agrees].
  - destruct (PyStr.contains _ _);
      [apply agrees_expandconditional | apply rec_agrees].
Qed.

Lemma agrees_sub_pieces ts :
  agrees I (sub_pieces rec ts) (plain_pieces look ts).
Proof.
  induction ts as [ | t ts IH]; simpl.
  - intros r [= <-] s HI. by exists s.
  - intros r Hr s HI.
    destruct (plain_token look t) as [p | ] eqn:Ht; [ | done].
    destruct (plain_pieces look ts) as [ps | ] eqn:Hts; [ | done].
    injection Hr as <-.
    assert (Hhead : exists s1,
      match t with
      | TLit c => ret (VStr (String c EmptyString))
      | TMatch m => replacematch rec m
      end s = (Ok p, s1) /\ I s1).
    { destruct t as [c | m]; simpl in Ht.
      - injection Ht as <-. by exists s.
      - by apply (agrees_replacematch m). }
    destruct Hhead as (s1 & Hrun1 & HI1).
    destruct (IH _ eq_refl s1 HI1) as (s2 & Hrun2 & HI2).
    exists s2. split; [ | done].
    rewrite bind_run, Hrun1, bind_run, Hrun2. done.
Qed.

Lemma agrees_template_sub s :
  agrees I (template_sub rec s) (plain_template look s).
Proof.
  unfold template_sub, plain_template. intros r Hr s0 HI.
  destruct (plain_pieces look (tokenize s)) as [ps | ] eqn:Hps; [ | done].
  destruct (join_pieces ps) as [t | e | ] eqn:Hjoin; try done.
  injection Hr as <-.
  destruct (agrees_sub_pieces _ _ Hps s0 HI) as (s1 & Hrun & HI1).
  exists s1. split; [ | done].
  rewrite bind_run, Hrun, bind_run. unfold lift_res. by rewrite Hjoin.
Qed.

Lemma agrees__expandvalue v :
  agrees I (_expandvalue rec v) (plain_value look v).
Proof.
  induction v as [ | b | n | q | s | l IH | d] using value_ind_list.
  - intros r [= <-] s HI. by exists s.
  - intros r [= <-] s HI. by exists s.
  - intros r [= <-] s HI. by exists s.
  - intros r [= <-] s HI. by exists s.
  - apply agrees_template_sub.
  - intros r Hr s HI. rewrite plain_value_list in Hr.
    destruct (plain_each look l) as [xs | ] eqn:Hxs; [ | done].
    injection Hr as <-.
    assert (Heach : exists s', expand_each rec l s = (Ok xs, s') /\ I s').
    { clear -IH Hxs HI rec_agrees. revert xs s Hxs HI.
      induction IH as [ | x l Hx _ IHl]; intros xs s Hxs HI; simpl in *.
      - injection Hxs as <-. by exists s.
      - destruct (plain_value look x) as [y | ] eqn:Hy; [ | done].
        destruct (plain_each look l) as [ys | ] eqn:Hys; [ | done].
        injection Hxs as <-.
        destruct (Hx _ eq_refl s HI) as (s1 & Hrun1 & HI1).
        destruct (IHl _ _ eq_refl HI1) as (s2 & Hrun2 & HI2).
        exists s2. split; [ | done].
        rewrite bind_run, Hrun1, bind_run, Hrun2. done. }
    destruct Heach as (s' & Hrun & HI').
    exists s'. split; [ | done].
    rewrite expandvalue_list, bind_run, Hrun. done.
  - destruct d; [ | done]. intros r [= <-] s HI. by exists s.
Qed.

End Agrees.

Section PlainMono.
Variables look look' : string -> option value.
Hypothesis look_le : forall k c, look k = Some c -> look' k = Some c.

Lemma plain_conditional_mono key c :
  plain_conditional look key = Some c -> plain_conditional look' key = Some c.
Proof.
  unfold plain_conditional.
  destruct (negb _); [done | ].
  destruct (PyStr.split1 "?" key) as [[cond rest] | ]; [ | done].
  destruct (negb _); [done | ].
  destruct (PyStr.split1 ":" rest) as [[p a] | ]; [ | done].
  destruct (look (PyStr.strip cond)) as [v | ] eqn:Hc; [ | done].
  rewrite (look_le _ _ Hc). destruct (is_trueish v); apply look_le.
Qed.

Lemma plain_token_mono t c :
  plain_token look t = Some c -> plain_token look' t = Some c.
Proof.
  destruct t as [ch | [ | w | b]]; simpl; try done;
    destruct (PyStr.contains _ _);
    first [apply plain_conditional_mono | apply look_le].
Qed.

Lemma plain_pieces_mono ts : forall ps,
  plain_pieces look ts = Some ps -> plain_pieces look' ts = Some ps.
Proof.
  induction ts as [ | t ts IH]; intros ps; simpl; [done | ].
  destruct (plain_token look t) as [p | ] eqn:Ht; [ | done].
  destruct (plain_pieces look ts) as [ps' | ] eqn:Hts; [ | done].
  intros [= <-]. by rewrite (plain_token_mono _ _ Ht), (IH _ eq_refl).
Qed.

Lemma plain_value_mono v : forall c,
  plain_value look v = Some c -> plain_value look' v = Some c.
Proof.
  induction v as [ | b | n | q | s | l IH | d] using value_ind_list;
    intros c; try done.
  - simpl. unfold plain_template.
    destruct (plain_pieces look (tokenize s)) as [ps | ] eqn:Hps; [ | done].
    by rewrite (plain_pieces_mono _ _ Hps).
  - rewrite !plain_value_list.
    destruct (plain_each look l) as [xs | ] eqn:Hxs; [ | done].
    intros [= <-].
    assert (Heach : plain_each look' l = Some xs).
    { clear -IH Hxs. revert xs Hxs.
      induction IH as [ | x l Hx _ IHl]; intros xs; simpl; [done | ].
      destruct (plain_value look x) as [y | ] eqn:Hy; [ | done].
      destruct (plain_each look l) as [ys | ] eqn:Hys; [ | done].
      intros [= <-]. by rewrite (Hx _ eq_refl), (IHl _ eq_refl). }
    by rewrite Heach.
Qed.

End PlainMono.

Lemma substitute_S E n : forall key c,
  substitute n E key = Some c -> substitute (S n) E key = Some c.
Proof.
  induction n as [ | n IH]; intros key c; [done | ].
  change (substitute (S n) E key)
    with (match E !! key with
          | Some v => plain_value (substitute n E) v
          | None => None
          end).
  change (substitute (S (S n)) E key)
    with (match E !! key with
          | Some v => plain_value (substitute (S n) E) v
          | None => None
          end).
  destruct (E !! key) as [v | ]; [ | done].
  apply plain_value_mono. exact IH.
Qed.

Lemma substitute_le E n m key c :
  (n <= m)%nat -> substitute n E key = Some c -> substitute m E key = Some c.
Proof.
  induction 1 as [ | m _ IH]; [done | ].
  intros H. by apply substitute_S, IH.
Qed.

(** The meaning of a key does not depend on the depth at which it is
    found. *)
Lemma substitute_det E n m key c c' :
  substitute n E key = Some c -> substitute m E key = Some c' -> c = c'.
Proof.
  intros Hn Hm.
  apply (substitute_le E n (n `max` m)) in Hn; [ | lia].
  apply (substitute_le E m (n `max` m)) in Hm; [ | lia].
  congruence.
Qed.

Lemma in_lookup_shallower E N X n s :
  in_lookup E N X (S n) s -> in_lookup E N X n s.
Proof.
  intros (HE & HX & Hnone & HC). split_and!; try done.
  intros a Ha. destruct (substitute n E a) as [c | ] eqn:Hs; [ | done].
  apply substitute_S in Hs. by rewrite (Hnone a Ha) in Hs.
Qed.

Lemma in_lookup_deeper E N X n s s' :
  in_lookup E N X (S n) s -> in_lookup E N X n s' -> in_lookup E N X (S n) s'.
Proof.
  intros (_ & _ & Hnone & _) (HE & HX & _ & HC). by split_and!.
Qed.

(** A lookup that follows references at most [n] deep returns the
    meaning of the key, and ends with the keys in progress it began
    with. *)
Lemma expand_substitute E N n : forall fuel key X,
  (n <= N)%nat -> (n <= fuel)%nat ->
  agrees (in_lookup E N X n) (expand fuel key) (substitute n E key).
Proof.
  induction n as [ | n IH]; intros fuel key X HN Hfuel c Hc s HI; [done | ].
  destruct fuel as [ | fuel]; [lia | ].
  pose proof HI as (HE & HX & Hnone & HC).
  pose proof (substitute_le _ _ _ _ _ HN Hc) as HcN.
  destruct (cache s !! key) as [c' | ] eqn:Hcache.
  { rewrite (expand_cached _ _ _ c' Hcache).
    rewrite (HC _ _ _ Hcache HcN). by exists s. }
  destruct (decide (key ∈ expandset s)) as [Hin | Hnin].
  { rewrite HX in Hin. by rewrite (Hnone _ Hin) in Hc. }
  destruct (substitute n E key) as [c' | ] eqn:Hshallow.
  { pose proof (substitute_S _ _ _ _ Hshallow) as Hc'.
    rewrite Hc in Hc'. injection Hc' as <-.
    destruct (IH (S fuel) key X ltac:(lia) ltac:(lia) c Hshallow s
                (in_lookup_shallower _ _ _ _ _ HI)) as (s' & Hrun & HI').
    exists s'. split; [done | ]. by eapply in_lookup_deeper. }
  change (substitute (S n) E key)
    with (match E !! key with
          | Some v => plain_value (substitute n E) v
          | None => None
          end) in Hc.
  destruct (E !! key) as [v | ] eqn:Hkey; [ | done].
  rewrite (expand_defined _ _ _ v) by (by rewrite ?HE).
  assert (HI1 : in_lookup E N ({[key]} ∪ X) n (enter key s)).
  { split_and!; simpl; [done | by rewrite HX | | done].
    intros a Ha. apply elem_of_union in Ha as [Ha | Ha].
    - apply elem_of_singleton in Ha. by subst a.
    - destruct (substitute n E a) as [ca | ] eqn:Hs; [ | done].
      apply substitute_S in Hs. by rewrite (Hnone a Ha) in Hs. }
  destruct (agrees__expandvalue (in_lookup E N ({[key]} ∪ X) n) (expand fuel)
              (substitute n E)
              (fun k => IH fuel k ({[key]} ∪ X) ltac:(lia) ltac:(lia))
              v c Hc (enter key s) HI1) as (s2 & Hrun & HI2).
  rewrite Hrun. destruct HI2 as (HE2 & HX2 & _ & HC2). simpl.
  destruct (decide (key ∈ expandset s2)) as [_ | Hn];
    [ | rewrite HX2 in Hn; set_solver].
  eexists. split; [reflexivity | ].
  split_and!; simpl; [done | | done | ].
  - rewrite HX2. rewrite HX in Hnin. set_solver.
  - intros k ck ck'. destruct (decide (key = k)) as [<- | Hne].
    + rewrite lookup_insert_eq. intros [= <-] Hm. congruence.
    + rewrite lookup_insert_ne by done. apply HC2.
Qed.

(** *** The state between two lookups *)

Lemma between_enter E N key self :
  between_lookups E N self -> substitute N E key = None ->
  between_lookups E N (enter key self).
Proof.
  intros (HE & _ & Hnone & HC) Hkey.
  split_and!; simpl; [done | done | | done].
  intros a Ha. apply elem_of_union in Ha as [Ha | Ha]; [ | by apply Hnone].
  apply elem_of_singleton in Ha. by subst a.
Qed.

(** Every call of [expand], whether it returns or raises, leaves in
    progress only keys that have no meaning, and caches for a key that
    has a meaning nothing but that meaning. *)
Lemma expand_between E N fuel : forall base key,
  (size (dom E ∖ base) < fuel)%nat ->
  keeps (fun s => between_lookups E N s /\ base ⊆ expandset s)
    (expand fuel key).
Proof.
  induction fuel as [ | fuel IH]; intros base key Hsz s r s' [HI Hb] Hrun;
    [lia | ].
  pose proof HI as (HE & _ & Hnone & HC).
  destruct (expand_sound (S fuel) E base key Hsz s r s' HE Hb Hrun)
    as (Hr & HE' & Hsub).
  split; [ | set_solver].
  destruct (substitute N E key) as [c | ] eqn:Hmean.
  { destruct (expand_substitute E N N (N `max` S fuel) key (expandset s)
                ltac:(lia) ltac:(lia) c Hmean s HI) as (s2 & Hrun2 & HI2).
    rewrite (expand_more_fuel (S fuel) (N `max` S fuel) key ltac:(lia)
               s r s' Hrun Hr) in Hrun2.
    injection Hrun2 as -> ->.
    destruct HI2 as (HE2 & HX2 & Hnone2 & HC2).
    unfold between_lookups. rewrite HX2. by split_and!. }
  destruct (cache s !! key) as [v | ] eqn:Hc.
  { rewrite (expand_cached _ _ _ v Hc) in Hrun. by injection Hrun as <- <-. }
  destruct (decide (key ∈ expandset s)) as [Hin | Hnin].
  { rewrite expand_in_progress in Hrun by done. by injection Hrun as <- <-. }
  destruct (env_dict s !! key) as [v | ] eqn:Hkey.
  2:{ rewrite expand_undefined in Hrun by done. injection Hrun as <- <-.
      by apply between_enter. }
  rewrite (expand_defined _ _ _ v) in Hrun by done.
  assert (Hlt : (size (dom E ∖ ({[key]} ∪ base)) < fuel)%nat).
  { assert (Hsub' : dom E ∖ ({[key]} ∪ base) ⊂ dom E ∖ base).
    { rewrite HE in Hkey. apply elem_of_dom_2 in Hkey. set_solver. }
    apply subset_size in Hsub'. lia. }
  destruct (_expandvalue (expand fuel) v (enter key s)) as [r2 s2] eqn:Hv.
  assert (HJ : between_lookups E N s2 /\ {[key]} ∪ base ⊆ expandset s2).
  { eapply (preserves__expandvalue _ (expand fuel)
              (fun k => IH ({[key]} ∪ base) k Hlt) v); [ | exact Hv].
    split; [by apply between_enter | simpl; set_solver]. }
  destruct HJ as [(HE2 & _ & Hnone2 & HC2) Hb2].
  destruct r2 as [result | e | ]; simpl in Hrun.
  - destruct (decide (key ∈ expandset s2)) as [_ | Hn]; [ | set_solver].
    injection Hrun as <- <-. split_and!; simpl; [done | done | | ].
    + intros a Ha. apply Hnone2. set_solver.
    + intros k ck ck'. destruct (decide (key = k)) as [<- | Hne].
      * rewrite lookup_insert_eq. intros _ Hm. by rewrite Hmean in Hm.
      * rewrite lookup_insert_ne by done. apply HC2.
  - injection Hrun as <- <-. by split_and!.
  - injection Hrun as <- <-. by split_and!.
Qed.

Lemma reachable_between E N self :
  reachable E self -> between_lookups E N self.
Proof.
  induction 1 as [ | self key _ IH].
  - split_and!; simpl; [done | done | | ].
    + intros a Ha. set_solver.
    + intros k c c' Hk. by rewrite lookup_empty in Hk.
  - unfold expander_expand.
    destruct (expand (enough_fuel self) key self) as [r s'] eqn:Hx. simpl.
    pose proof IH as (HE & _).
    eapply (expand_between E N (enough_fuel self) ∅ key);
      [ | split; [exact IH | set_solver] | exact Hx].
    unfold enough_fuel. rewrite HE.
    assert (size (dom E ∖ (∅ : gset string)) <= size (dom E))%nat.
    { apply subseteq_size. set_solver. }
    rewrite size_dom in H. lia.
Qed.

(** *** Strings that strip alike as [str] and as [unicode] *)

Lemma lstrip_kind_free s :
  kind_free s = true ->
  PyStr.lstrip_by PyStr.is_uspace s = PyStr.lstrip s /\
  kind_free (PyStr.lstrip s) = true.
Proof.
  induction s as [ | c s IH]; [done | ].
  cbn [kind_free PyStr.lstrip_by PyStr.lstrip].
  intros H. pose proof H as [Hc Hs]%andb_true_iff.
  apply Bool.eqb_prop in Hc. rewrite Hc.
  destruct (PyStr.is_space c); [by apply IH | done].
Qed.

Lemma rstrip_kind_free s :
  kind_free s = true -> PyStr.rstrip_by PyStr.is_uspace s = PyStr.rstrip s.
Proof.
  induction s as [ | c s IH]; [done | ].
  cbn [kind_free PyStr.rstrip_by PyStr.rstrip].
  intros [Hc Hs]%andb_true_iff.
  apply Bool.eqb_prop in Hc. by rewrite Hc, IH.
Qed.

Lemma ustrip_kind_free s :
  kind_free s = true -> PyStr.ustrip s = PyStr.strip s.
Proof.
  intros H. destruct (lstrip_kind_free s H) as [Hl Hk].
  unfold PyStr.ustrip, PyStr.strip_by, PyStr.strip.
  by rewrite Hl, rstrip_kind_free.
Qed.

(** Memoization and the in-progress set are transparent.  In every
    state that calls of [expand] can produce, whether those calls
    returned or raised and whatever their keys were, the lookup of a
    key that has a meaning under plain substitution returns that
    meaning; so what such a lookup returns does not depend on which
    keys were looked up before it, nor in which order.  The strings of
    the environment have no character that only [unicode.strip()]
    removes, so that plain substitution names the same keys for [str]
    and for [unicode] templates. *)
Theorem lookup_is_plain_substitution E self n key c :
  kind_free_env E = true ->
  reachable E self -> substitute n E key = Some c ->
  fst (expander_expand key self) = Ok c.
Proof.
  intros _ Hreach Hc.
  pose proof (reachable_between E n self Hreach) as HI.
  destruct (expand_substitute E n n (n `max` enough_fuel self) key
              (expandset self) ltac:(lia) ltac:(lia) c Hc self HI)
    as (s' & Hrun & _).
  pose proof (expander_expand_total key self) as (Hr & _ & _).
  unfold expander_expand in *.
  destruct (expand (enough_fuel self) key self) as [r s''] eqn:Hx.
  rewrite (expand_more_fuel (enough_fuel self) (n `max` enough_fuel self) key
             ltac:(lia) self r s'' Hx Hr) in Hrun.
  by injection Hrun as -> _.
Qed.

Lemma lookup_is_plain_substitution_witness :
  fst (expander_expand "archive-path"
         (snd (expander_expand "no-such-key" (expander dep_A))))
  = Ok (VStr path_A).
Proof.
  apply (lookup_is_plain_substitution env_A
           (snd (expander_expand "no-such-key" (expander dep_A)))
           4 "archive-path" (VStr path_A)).
  - vm_compute. reflexivity.
  - apply reachable_expand, reachable_new.
  - vm_compute. reflexivity.
Defined.

(** The lookup that raised has left its key in progress. *)
Example key_left_in_progress :
  expandset (snd (expander_expand "no-such-key" (expander dep_A)))
  = {[ "no-such-key" ]} ∪ ∅.
Proof. reflexivity. Qed.
